(** * KruskalController: a shallow embedding and its verification

    The development follows [src/KruskalController.py]: the disjoint-set
    [UnionFindSet], the topology graph [Topo] (a networkx [DiGraph]) with
    its [Kruskal] method, and the Ryu application [KruskalController]
    with its link enforcer and its two event handlers.

    Python objects are mutated in place and exceptions leave the
    mutations behind, so every method is a computation in a small
    state-and-exception monad.  Drawing is part of the model as far as
    it decides how a method ends: [nx.draw] needs a position for every
    node, and the layout of a [Topo] is the one computed when it was
    created.  Recursion depth is bounded by a fuel
    argument: running out of fuel stands for Python's [RecursionError]
    (the interpreter's actual limit is not modelled; every theorem that
    says a call returns gives the fuel that suffices). *)

From stdpp Require Import base option list gmap strings fin_maps sorting.
From Stdlib Require Import ZArith Lia.

Local Open Scope Z_scope.

(** ** The state-and-exception monad *)

Inductive exn : Type :=
  | IndexError
  | RecursionError
  | AttributeError
  | KeyError
  | NetworkXError.

Inductive outcome (A : Type) : Type :=
  | Ret (a : A)
  | Raise (e : exn).
Arguments Ret {A} a.
Arguments Raise {A} e.

Definition M (S A : Type) : Type := S → outcome A * S.

Definition ret {S A} (a : A) : M S A := λ s, (Ret a, s).
Definition raise {S A} (e : exn) : M S A := λ s, (Raise e, s).
Definition bind {S A B} (m : M S A) (k : A → M S B) : M S B :=
  λ s, match m s with
       | (Ret a, s') => k a s'
       | (Raise e, s') => (Raise e, s')
       end.
Definition get_state {S} : M S S := λ s, (Ret s, s).
Definition put_state {S} (s : S) : M S unit := λ _, (Ret tt, s).

#[global] Instance M_ret {S} : MRet (M S) := λ A, ret.
#[global] Instance M_bind {S} : MBind (M S) := λ A B k m, bind m k.

(** Run a computation on a component of a larger state. *)
Definition focus {S T A} (proj : S → T) (upd : T → S → S) (m : M T A) : M S A :=
  λ s, let '(o, t') := m (proj s) in (o, upd t' s).

(** ** Python list indexing

    [l[i]] accepts [0 <= i < len(l)] and, counting from the end,
    [-len(l) <= i < 0]; anything else raises [IndexError]. *)

Definition py_index (len : nat) (i : Z) : option nat :=
  if bool_decide (0 ≤ i < Z.of_nat len) then Some (Z.to_nat i)
  else if bool_decide (- Z.of_nat len ≤ i < 0) then Some (Z.to_nat (Z.of_nat len + i))
  else None.

(** ** class UnionFindSet *)

Record UnionFindSet : Type := mkUnionFindSet {
  fa : list Z;
  size : Z
}.

(** [__init__]: [self.fa = [i for i in range(n + 1)]; self.size = n]. *)
Definition UnionFindSet_init (n : Z) : UnionFindSet :=
  {| fa := Z.of_nat <$> seq 0 (Z.to_nat (n + 1)); size := n |}.

(** [self.fa[x]] as an expression. *)
Definition fa_getitem (x : Z) : M UnionFindSet Z :=
  λ s, match py_index (length (fa s)) x with
       | Some i => match fa s !! i with
                   | Some v => (Ret v, s)
                   | None => (Raise IndexError, s)
                   end
       | None => (Raise IndexError, s)
       end.

(** [self.fa[x] = v]. *)
Definition fa_setitem (x v : Z) : M UnionFindSet unit :=
  λ s, match py_index (length (fa s)) x with
       | Some i => (Ret tt, {| fa := <[i := v]> (fa s); size := size s |})
       | None => (Raise IndexError, s)
       end.

Fixpoint find (fuel : nat) (x : Z) : M UnionFindSet Z :=
  match fuel with
  | O => raise RecursionError
  | S fuel' =>
      p ← fa_getitem x;
      (if bool_decide (p ≠ x)
       then p' ← fa_getitem x; r ← find fuel' p'; fa_setitem x r
       else ret tt);;
      fa_getitem x
  end.

Definition union (fuel : nat) (x y : Z) : M UnionFindSet unit :=
  x' ← find fuel x;
  y' ← find fuel y;
  if bool_decide (x' ≠ y') then fa_setitem y' x' else ret tt.

(** ** Observable effects

    Messages handed to [datapath.send_msg] and what is done to the
    matplotlib figure are the controller's outputs.  They are appended to
    a log that is part of the state of every computation that can produce
    them.  [plt_clf] and [plt_title] are the calls of these names;
    [plt_draw_tree tree] is the graph drawn with the edges of [tree] in
    red, with its edge labels, shown and paused on (lines 71 to 74 of the
    source, completed); [plt_draw_topo] is the graph drawn at the end of
    a rebuild (lines 171 to 173, completed). *)

Inductive OFPAction : Type :=
  | OFPActionOutput (port max_len : Z).

Record OFPMatch : Type := mkOFPMatch {
  m_in_port : option Z;
  m_eth_dst : option string;
  m_eth_src : option string
}.

Inductive OFPMsg : Type :=
  | OFPFlowMod (buffer_id priority : Z) (mtch : OFPMatch) (actions : list OFPAction)
  | OFPPortMod (port_no : Z) (hw_addr : string) (config mask : Z)
  | OFPPacketOut (buffer_id in_port : Z) (actions : list OFPAction)
                 (data : option (list Z)).

Inductive Effect : Type :=
  | send_msg (dpid : Z) (msg : OFPMsg)
  | plt_clf
  | plt_title (s : string)
  | plt_draw_tree (tree : list (Z * Z))
  | plt_draw_topo.

Definition emit {S} (e : Effect) : M (S * list Effect) unit :=
  λ '(s, log), (Ret tt, (s, log ++ [e])).

(** A computation on [S] alone, run where a log is carried along. *)
Definition quiet {S A} (m : M S A) : M (S * list Effect) A :=
  focus fst (λ s' '(_, log), (s', log)) m.

(** ** Insertion-ordered dictionaries keyed by switch id *)

Fixpoint od_get {V} (k : Z) (d : list (Z * V)) : option V :=
  match d with
  | [] => None
  | (k', v) :: d' => if bool_decide (k' = k) then Some v else od_get k d'
  end.

(** [d[k] = v]: an existing key keeps its position, a new key goes last. *)
Fixpoint od_set {V} (k : Z) (v : V) (d : list (Z * V)) : list (Z * V) :=
  match d with
  | [] => [(k, v)]
  | (k', v') :: d' =>
      if bool_decide (k' = k) then (k', v) :: d' else (k', v') :: od_set k v d'
  end.

(** ** class Topo(nx.DiGraph) *)

Record EdgeData : Type := mkEdgeData {
  src_port : Z;
  dst_port : Z;
  weight : Z
}.

#[global] Instance EdgeData_eq_dec : EqDecision EdgeData.
Proof. solve_decision. Defined.

(** An edge as [edges(data=True)] yields it: [(u, v, datadict)]. *)
Definition Edge : Type := Z * Z * EdgeData.

Record Topo : Type := mkTopo {
  _node : list (Z * list Z);               (* node id -> its "ports" attribute *)
  _adj : list (Z * list (Z * EdgeData));   (* node id -> successor -> data *)
  set : option UnionFindSet;
  MST_exist : bool;
  pos : list Z                             (* the keys of the layout [self.pos] *)
}.

(** [Topo()]: an empty graph, [self.set = None], [self.MST_exist = False],
    and [self.pos = nx.spring_layout(self)], the layout of the graph as it
    is then: without a node, hence the empty dictionary.  No line of the
    source assigns [pos] again.  The coordinates are not modelled, only
    which nodes have some; the plot options and the selection of the
    figure ([plt.figure], [plt.ion]) are not modelled either. *)
Definition Topo_init : Topo :=
  {| _node := []; _adj := []; set := None; MST_exist := false; pos := [] |}.

Definition with_set (s : option UnionFindSet) (t : Topo) : Topo :=
  {| _node := _node t; _adj := _adj t; set := s; MST_exist := MST_exist t;
     pos := pos t |}.

Definition with_MST_exist (b : bool) (t : Topo) : Topo :=
  {| _node := _node t; _adj := _adj t; set := set t; MST_exist := b;
     pos := pos t |}.

(** An assignment to [pos] from outside the class, as a caller that
    wants the figure has to make. *)
Definition with_pos (p : list Z) (t : Topo) : Topo :=
  {| _node := _node t; _adj := _adj t; set := set t; MST_exist := MST_exist t;
     pos := p |}.

(** [DiGraph.clear]: the graph is emptied, the attributes of [Topo] stay. *)
Definition clear (t : Topo) : Topo :=
  {| _node := []; _adj := []; set := set t; MST_exist := MST_exist t;
     pos := pos t |}.

(** [DiGraph.add_node(n, ports=...)]: a new node gets an empty adjacency;
    a known node only has its attribute updated. *)
Definition add_node (n : Z) (prts : list Z) (t : Topo) : Topo :=
  {| _node := od_set n prts (_node t);
     _adj := match od_get n (_adj t) with
             | Some _ => _adj t
             | None => od_set n [] (_adj t)
             end;
     set := set t; MST_exist := MST_exist t; pos := pos t |}.

Definition add_nodes_from (ns : list (Z * list Z)) (t : Topo) : Topo :=
  foldl (λ t' '(n, prts), add_node n prts t') t ns.

(** An endpoint that [add_edge] meets for the first time becomes a node
    without attributes. *)
Definition touch_node (n : Z) (t : Topo) : Topo :=
  match od_get n (_adj t) with
  | Some _ => t
  | None => {| _node := od_set n [] (_node t); _adj := od_set n [] (_adj t);
               set := set t; MST_exist := MST_exist t; pos := pos t |}
  end.

(** [DiGraph.add_edge(u, v, src_port=.., dst_port=.., weight=..)]. *)
Definition add_edge (u v : Z) (d : EdgeData) (t : Topo) : Topo :=
  let t1 := touch_node v (touch_node u t) in
  {| _node := _node t1;
     _adj := od_set u (od_set v d (default [] (od_get u (_adj t1)))) (_adj t1);
     set := set t1; MST_exist := MST_exist t1; pos := pos t1 |}.

(** [DiGraph.has_edge(u, v)]. *)
Definition has_edge (u v : Z) (t : Topo) : bool :=
  match od_get u (_adj t) with
  | Some nbrs => bool_decide (is_Some (od_get v nbrs))
  | None => false
  end.

(** [self.edges[u, v]]: the data of an edge, [KeyError] when absent. *)
Definition edge_data (u v : Z) (t : Topo) : option EdgeData :=
  nbrs ← od_get u (_adj t); od_get v nbrs.

(** [self.edges(data=True)]: nodes in insertion order, and for each node
    its successors in insertion order. *)
Definition edges (t : Topo) : list Edge :=
  '(n, nbrs) ← _adj t; '(nbr, d) ← nbrs; [(n, nbr, d)].

Definition e_weight (e : Edge) : Z := weight e.2.

(** [sorted(..., key=lambda e: e[2]["weight"])] is stable: an element
    goes in front of the first element with a strictly larger key. *)
Fixpoint insert_by_weight (e : Edge) (l : list Edge) : list Edge :=
  match l with
  | [] => [e]
  | e' :: l' =>
      if bool_decide (e_weight e ≤ e_weight e') then e :: e' :: l'
      else e' :: insert_by_weight e l'
  end.

Definition sorted_by_weight (l : list Edge) : list Edge :=
  foldr insert_by_weight [] l.

(** [initialize_ufset]. *)
Definition initialize_ufset (n : Z) (t : Topo) : Topo :=
  with_set (Some (UnionFindSet_init n)) t.

(** A method call on [self.set]; [None] has no methods. *)
Definition on_set {A} (m : M UnionFindSet A) : M Topo A :=
  λ t, match set t with
       | Some s => let '(o, s') := m s in (o, with_set (Some s') t)
       | None => (Raise AttributeError, t)
       end.

(** The body of the [for] loop of [Kruskal], with [tree_edges] as the
    accumulator. *)
Fixpoint Kruskal_loop (fuel : nat) (es : list Edge) (tree_edges : list (Z * Z))
  : M Topo (list (Z * Z)) :=
  match es with
  | [] => ret tree_edges
  | e :: es' =>
      a ← on_set (find fuel e.1.1);
      b ← on_set (find fuel e.1.2);
      if bool_decide (a ≠ b)
      then on_set (union fuel e.1.1 e.1.2);;
           Kruskal_loop fuel es' (tree_edges ++ [(e.1.1, e.1.2)])
      else Kruskal_loop fuel es' tree_edges
  end.

(** Every node of the graph has a position in the layout. *)
Definition has_positions (t : Topo) : Prop :=
  Forall (λ n, n ∈ pos t) (_node t).*1.

(** [nx.draw(self, pos=self.pos, ...)] looks up the position of every
    node of the graph, before it draws anything: a node without a
    position ends the call in [NetworkXError]. *)
Definition nx_draw : M (Topo * list Effect) unit :=
  '(t, _) ← get_state;
  if bool_decide (has_positions t) then ret tt else raise NetworkXError.

Definition tree_title : string := "Minimum Spanning Tree".

(** [draw_tree]: the figure is cleared and titled, then the graph is
    drawn with the tree. *)
Definition draw_tree (tree : list (Z * Z)) : M (Topo * list Effect) unit :=
  emit plt_clf;;
  emit (plt_title tree_title);;
  nx_draw;;
  emit (plt_draw_tree tree).

Definition Kruskal (fuel : nat) : M (Topo * list Effect) (list (Z * Z)) :=
  '(t, _) ← get_state;
  tree_edges ← quiet (Kruskal_loop fuel (sorted_by_weight (edges t)) []);
  draw_tree tree_edges;;
  ret tree_edges.

(** ** The Ryu side: datapaths, the topology API, OpenFlow 1.3 constants *)

Record Datapath : Type := mkDatapath { dp_id : Z }.

Record Port : Type := mkPort {
  dpid : Z;
  port_no : Z;
  hw_addr : string
}.

Record Switch : Type := mkSwitch {
  dp : Datapath;
  ports : list Port
}.

Record Link : Type := mkLink {
  src : Port;
  dst : Port
}.

(** What [ryu.topology.api] answers while one event is handled. *)
Record TopologyAPI : Type := mkTopologyAPI {
  all_switches : list Switch;
  all_links : list Link
}.

(** [get_switch(self, dpid=d)]: the switches registered under [d]. *)
Definition get_switch (api : TopologyAPI) (d : Z) : list Switch :=
  filter (λ s, dp_id (dp s) = d) (all_switches api).

Definition OFPP_FLOOD : Z := 0xfffffffb.
Definition OFPP_CONTROLLER : Z := 0xfffffffd.
Definition OFPCML_MAX : Z := 0xffe5.
Definition OFPCML_NO_BUFFER : Z := 0xffff.
Definition OFP_NO_BUFFER : Z := 0xffffffff.
Definition OFPPC_PORT_DOWN : Z := Z.shiftl 1 0.
Definition OFPPC_NO_RECV : Z := Z.shiftl 1 2.
Definition OFPPC_NO_FWD : Z := Z.shiftl 1 5.
Definition OFPPC_NO_PACKET_IN : Z := Z.shiftl 1 6.
Definition ETH_TYPE_LLDP : Z := 0x88cc.
Definition ETH_TYPE_IPV6 : Z := 0x86dd.

(** ** class KruskalController *)

Record KruskalController : Type := mkKruskalController {
  datapaths : list Datapath;
  mac_to_port : gmap Z (gmap string Z);
  topo : Topo
}.

(** [__init__]. *)
Definition KruskalController_init : KruskalController :=
  {| datapaths := []; mac_to_port := ∅; topo := Topo_init |}.

Definition with_topo (t : Topo) (c : KruskalController) : KruskalController :=
  {| datapaths := datapaths c; mac_to_port := mac_to_port c; topo := t |}.

Definition with_mac_to_port (m : gmap Z (gmap string Z)) (c : KruskalController)
  : KruskalController :=
  {| datapaths := datapaths c; mac_to_port := m; topo := topo c |}.

(** The controller's computations carry the effect log. *)
Definition App (A : Type) : Type := M (KruskalController * list Effect) A.

(** A [Topo] method called on [self.topo]. *)
Definition on_topo {A} (m : M (Topo * list Effect) A) : App A :=
  focus (λ '(c, log), (topo c, log)) (λ '(t', log') '(c, _), (with_topo t' c, log')) m.

Definition find_datapath_by_id (c : KruskalController) (d : Z) : option Datapath :=
  List.find (λ datapath, bool_decide (dp_id datapath = d)) (datapaths c).

(** [buffer_id or ofproto.OFP_NO_BUFFER]: [None] and [0] are falsy. *)
Definition buffer_or_none (buffer_id : option Z) : Z :=
  match buffer_id with
  | Some b => if bool_decide (b = 0) then OFP_NO_BUFFER else b
  | None => OFP_NO_BUFFER
  end.

Definition add_flow (datapath : Datapath) (priority : Z) (mtch : OFPMatch)
    (actions : list OFPAction) (buffer_id : option Z) : App unit :=
  emit (send_msg (dp_id datapath)
          (OFPFlowMod (buffer_or_none buffer_id) priority mtch actions)).

Definition mask_all : Z :=
  Z.lor (Z.lor (Z.lor OFPPC_PORT_DOWN OFPPC_NO_RECV) OFPPC_NO_FWD) OFPPC_NO_PACKET_IN.

(** [get_switch(...)[0]] raises [IndexError] on an empty answer; a port
    the switch does not list makes the method return without sending. *)
Definition send_port_mod (api : TopologyAPI) (datapath : Datapath) (pno opt : Z)
  : App unit :=
  match get_switch api (dp_id datapath) with
  | [] => raise IndexError
  | sw :: _ =>
      match List.find (λ p, bool_decide (port_no p = pno)) (ports sw) with
      | None => ret tt
      | Some p =>
          emit (send_msg (dp_id datapath) (OFPPortMod pno (hw_addr p) opt mask_all))
      end
  end.

(** One iteration of the loop of [block_links]. *)
Definition block_link (api : TopologyAPI) (excepts : list (Z * Z)) (e : Edge)
  : App unit :=
  if bool_decide ((e.1.1, e.1.2) ∈ excepts ∨ (e.1.2, e.1.1) ∈ excepts) then ret tt
  else
    '(c, _) ← get_state;
    match find_datapath_by_id c e.1.1, find_datapath_by_id c e.1.2 with
    | Some src_dp, Some dst_dp =>
        send_port_mod api src_dp (src_port e.2) OFPPC_PORT_DOWN;;
        send_port_mod api dst_dp (dst_port e.2) OFPPC_PORT_DOWN
    | _, _ => ret tt
    end.

Fixpoint for_each {S A} (body : A → M S unit) (l : list A) : M S unit :=
  match l with
  | [] => ret tt
  | a :: l' => body a;; for_each body l'
  end.

Definition block_links (api : TopologyAPI) (excepts : list (Z * Z)) : App unit :=
  '(c, _) ← get_state;
  for_each (block_link api excepts) (edges (topo c)).

(** [switch_features_handler]: the table-miss entry. *)
Definition switch_features_handler (datapath : Datapath) : App unit :=
  add_flow datapath 0
    {| m_in_port := None; m_eth_dst := None; m_eth_src := None |}
    [OFPActionOutput OFPP_CONTROLLER OFPCML_NO_BUFFER] None.

(** A packet-in message in whose data the packet library finds an
    Ethernet header: the fields of the message and those of the header. *)
Record PacketIn : Type := mkPacketIn {
  pi_datapath : Datapath;
  pi_in_port : Z;
  pi_buffer_id : Z;
  pi_data : list Z;
  ethertype : Z;
  eth_dst : string;
  eth_src : string
}.

(** [self.mac_to_port.setdefault(dpid, {})[src_mac] = in_port]. *)
Definition learn (d : Z) (mac : string) (prt : Z) (m : gmap Z (gmap string Z))
  : gmap Z (gmap string Z) :=
  <[d := <[mac := prt]> (default ∅ (m !! d))]> m.

(** [self.mac_to_port[dpid].get(dst_mac, ofproto.OFPP_FLOOD)]. *)
Definition lookup_out_port (d : Z) (mac : string) (m : gmap Z (gmap string Z))
  : App Z :=
  match m !! d with
  | Some tbl => ret (default OFPP_FLOOD (tbl !! mac))
  | None => raise KeyError
  end.

(** A packet-in event as the handler meets it:
    [packet.Packet(msg.data).get_protocol(ethernet.ethernet)] gives the
    Ethernet header of the message, or [None] when the data holds none. *)
Inductive PacketInEvent : Type :=
  | with_ethernet (ev : PacketIn)
  | without_ethernet (datapath : Datapath) (in_port buffer_id : Z) (data : list Z).

(** [eth.ethertype] on [None] raises [AttributeError], before anything
    is learned. *)
Definition packet_in_handler (fuel : nat) (api : TopologyAPI)
    (event : PacketInEvent) : App unit :=
  match event with
  | without_ethernet _ _ _ _ => raise AttributeError
  | with_ethernet ev =>
      let datapath := pi_datapath ev in
      let in_port := pi_in_port ev in
      let d := dp_id datapath in
      if bool_decide (ethertype ev = ETH_TYPE_LLDP ∨ ethertype ev = ETH_TYPE_IPV6)
      then ret tt
      else
        '(c, log) ← get_state;
        put_state (with_mac_to_port (learn d (eth_src ev) in_port (mac_to_port c)) c,
                   log);;
        '(c, _) ← get_state;
        out_port ← lookup_out_port d (eth_dst ev) (mac_to_port c);
        (if bool_decide (out_port = OFPP_FLOOD) && negb (MST_exist (topo c))
         then
           tree_edges ← on_topo (Kruskal fuel);
           block_links api tree_edges;;
           '(c, log) ← get_state;
           put_state (with_topo (with_MST_exist true (topo c)) c, log)
         else ret tt);;
        let actions := [OFPActionOutput out_port OFPCML_MAX] in
        let mtch := {| m_in_port := Some in_port; m_eth_dst := Some (eth_dst ev);
                       m_eth_src := Some (eth_src ev) |} in
        add_flow datapath 1 mtch actions
          (Some (buffer_or_none (Some (pi_buffer_id ev))));;
        let data := if bool_decide (pi_buffer_id ev = OFP_NO_BUFFER)
                    then Some (pi_data ev) else None in
        emit (send_msg d (OFPPacketOut (pi_buffer_id ev) in_port actions data))
  end.

(** The loop over [all_links] in [switch_enter_handler].  [randint] is the
    weight provider: [rand k] is the value of its [k]-th call during this
    event, and the counter of calls is threaded through the loop. *)
Definition add_link (rand : nat → Z) (link : Link) (st : Topo * nat) : Topo * nat :=
  let '(t, k) := st in
  let u := dpid (src link) in
  let v := dpid (dst link) in
  let '(w, k') :=
    if has_edge v u t
    then (default 0 (weight <$> edge_data v u t), k)
    else (rand k, S k) in
  (add_edge u v {| src_port := port_no (src link);
                   dst_port := port_no (dst link); weight := w |} t, k').

Definition add_links (rand : nat → Z) (links : list Link) (st : Topo * nat)
  : Topo * nat :=
  foldl (λ st' link, add_link rand link st') st links.

(** The handler ends with [nx.draw] of the new graph, on the layout of
    the new [Topo()]. *)
Definition switch_enter_handler (api : TopologyAPI) (rand : nat → Z) : App unit :=
  '(c, log) ← get_state;
  let t0 := clear Topo_init in
  let t1 := add_nodes_from
              ((λ s, (dp_id (dp s), port_no <$> ports s)) <$> all_switches api) t0 in
  let t2 := initialize_ufset (Z.of_nat (length (all_switches api))) t1 in
  let t3 := (add_links rand (all_links api) (t2, O)).1 in
  put_state ({| datapaths := dp <$> all_switches api;
                mac_to_port := mac_to_port c;
                topo := t3 |}, log);;
  on_topo nx_draw;;
  emit plt_draw_topo.

(** ** Histories of a disjoint-set

    A client of [UnionFindSet] calls [find] and [union] in some order. *)

Inductive uf_op : Type :=
  | op_find (x : Z)
  | op_union (x y : Z).

Definition run_op (fuel : nat) (o : uf_op) : M UnionFindSet unit :=
  match o with
  | op_find x => find fuel x;; ret tt
  | op_union x y => union fuel x y
  end.

(** The pairs a history has unioned. *)
Definition unioned (ops : list uf_op) : list (Z * Z) :=
  omap (λ o, match o with op_union x y => Some (x, y) | op_find _ => None end) ops.

Definition op_ids_in (n : Z) (ops : list uf_op) : Prop :=
  ∀ o, o ∈ ops → match o with
                 | op_find x => 1 ≤ x ≤ n
                 | op_union x y => 1 ≤ x ≤ n ∧ 1 ≤ y ≤ n
                 end.

(** ** Runs of packet-in events

    Ryu handles one event to completion before the next, and an
    exception in a handler is logged, not propagated: the next event
    meets the state the failed handler left behind. *)

Definition run_events (fuel : nat) (evs : list (TopologyAPI * PacketInEvent))
    (st : KruskalController * list Effect) : KruskalController * list Effect :=
  foldl (λ st' '(api, event), (packet_in_handler fuel api event st').2) st evs.

(** The control-plane frames that the handler drops at once. *)
Definition filtered (ev : PacketIn) : bool :=
  bool_decide (ethertype ev = ETH_TYPE_LLDP ∨ ethertype ev = ETH_TYPE_IPV6).

(** The MAC table once the source of [ev] is learned, and the output
    port then found for its destination. *)
Definition learned (ev : PacketIn) (c : KruskalController) : gmap Z (gmap string Z) :=
  learn (dp_id (pi_datapath ev)) (eth_src ev) (pi_in_port ev) (mac_to_port c).

Definition out_port_of (ev : PacketIn) (c : KruskalController) : Z :=
  default OFPP_FLOOD
    (learned ev c !! dp_id (pi_datapath ev) ≫= λ tbl, tbl !! eth_dst ev).

(** The forwarding decision for [ev] is to flood. *)
Definition floods (ev : PacketIn) (c : KruskalController) : bool :=
  negb (filtered ev) && bool_decide (out_port_of ev c = OFPP_FLOOD).

(** An event without Ethernet header takes no forwarding decision. *)
Definition floods_event (event : PacketInEvent) (c : KruskalController) : bool :=
  match event with
  | with_ethernet ev => floods ev c
  | without_ethernet _ _ _ _ => false
  end.


(** The flow entry and the packet-out that end the handling of [ev]. *)
Definition forwarding (ev : PacketIn) (c : KruskalController) : list Effect :=
  let actions := [OFPActionOutput (out_port_of ev c) OFPCML_MAX] in
  [ send_msg (dp_id (pi_datapath ev))
      (OFPFlowMod (buffer_or_none (Some (buffer_or_none (Some (pi_buffer_id ev))))) 1
         {| m_in_port := Some (pi_in_port ev); m_eth_dst := Some (eth_dst ev);
            m_eth_src := Some (eth_src ev) |} actions);
    send_msg (dp_id (pi_datapath ev))
      (OFPPacketOut (pi_buffer_id ev) (pi_in_port ev) actions
         (if bool_decide (pi_buffer_id ev = OFP_NO_BUFFER)
          then Some (pi_data ev) else None)) ].

(** ** What the link enforcer is expected to send *)

(** An edge counts as a tree edge when the tree holds its pair in either
    direction. *)
Definition in_tree (excepts : list (Z * Z)) (e : Edge) : Prop :=
  (e.1.1, e.1.2) ∈ excepts ∨ (e.1.2, e.1.1) ∈ excepts.

(** The port-down request for port [pno] of switch [i], when the topology
    API knows the switch and the switch lists the port. *)
Definition port_down_msg (api : TopologyAPI) (i pno : Z) : option Effect :=
  sw ← head (get_switch api i);
  p ← List.find (λ p, bool_decide (port_no p = pno)) (ports sw);
  Some (send_msg i (OFPPortMod pno (hw_addr p) OFPPC_PORT_DOWN mask_all)).

(** The requests for the two ends of a link, source side first. *)
Definition port_downs_for (api : TopologyAPI) (e : Edge) : list Effect :=
  option_list (port_down_msg api e.1.1 (src_port e.2))
  ++ option_list (port_down_msg api e.1.2 (dst_port e.2)).

(** The graph that [switch_enter_handler] builds from what discovery
    answers. *)
Definition rebuilt (api : TopologyAPI) (rand : nat → Z) : Topo :=
  (add_links rand (all_links api)
     (initialize_ufset (Z.of_nat (length (all_switches api)))
        (add_nodes_from
           ((λ s, (dp_id (dp s), port_no <$> ports s)) <$> all_switches api)
           (clear Topo_init)), O)).1.

(** ** Kinds of effects *)

Definition is_port_mod (e : Effect) : Prop :=
  match e with send_msg _ (OFPPortMod _ _ _ _) => True | _ => False end.

(** An effect of [draw_tree]. *)
Definition is_draw_tree (e : Effect) : Prop :=
  match e with plt_clf | plt_title _ | plt_draw_tree _ => True | _ => False end.

(** Neither an effect of [draw_tree] nor a port modification. *)
Definition is_quiet (e : Effect) : Prop := ¬ is_draw_tree e ∧ ¬ is_port_mod e.

(** What a call of [draw_tree] that returns adds to the log, and what a
    call that [nx.draw] ends in [NetworkXError] adds. *)
Definition tree_drawn (tree : list (Z * Z)) : list Effect :=
  [plt_clf; plt_title tree_title; plt_draw_tree tree].

Definition tree_not_drawn : list Effect := [plt_clf; plt_title tree_title].

(** How [Kruskal] ends once its loop has built [tree] and left the
    topology [t']: it hands [tree] to [draw_tree], and returns it when
    [draw_tree] returns. *)
Definition Kruskal_ends (tree : list (Z * Z)) (t' : Topo) (log : list Effect)
  : outcome (list (Z * Z)) * (Topo * list Effect) :=
  if bool_decide (has_positions t')
  then (Ret tree, (t', log ++ tree_drawn tree))
  else (Raise NetworkXError, (t', log ++ tree_not_drawn)).

#[global] Instance is_port_mod_dec e : Decision (is_port_mod e).
Proof. destruct e as [? []| | | |]; simpl; apply _. Defined.

#[global] Instance is_draw_tree_dec e : Decision (is_draw_tree e).
Proof. destruct e; simpl; apply _. Defined.


(** ** Scenarios

    Scenario A: four switches in a full mesh.  Discovery reports both
    directions of each link, and the weight provider hands out 3, 1, 4, 2,
    5, 6, so that the pairs get the weights
    (1,2):3, (1,3):1, (1,4):4, (2,3):2, (2,4):5, (3,4):6. *)

Definition scenario_switch (i : Z) : Switch :=
  {| dp := {| dp_id := i |};
     ports := [ {| dpid := i; port_no := 1; hw_addr := "00:00:00:00:00:01" |};
                {| dpid := i; port_no := 2; hw_addr := "00:00:00:00:00:02" |};
                {| dpid := i; port_no := 3; hw_addr := "00:00:00:00:00:03" |} ] |}.

Definition scenario_link (u pu v pv : Z) : Link :=
  {| src := {| dpid := u; port_no := pu; hw_addr := "00:00:00:00:00:0a" |};
     dst := {| dpid := v; port_no := pv; hw_addr := "00:00:00:00:00:0b" |} |}.

Definition scenario_A_api : TopologyAPI :=
  {| all_switches := scenario_switch <$> [1; 2; 3; 4];
     all_links :=
       [ scenario_link 1 1 2 1; scenario_link 2 1 1 1;
         scenario_link 1 2 3 1; scenario_link 3 1 1 2;
         scenario_link 1 3 4 1; scenario_link 4 1 1 3;
         scenario_link 2 2 3 2; scenario_link 3 2 2 2;
         scenario_link 2 3 4 2; scenario_link 4 2 2 3;
         scenario_link 3 3 4 3; scenario_link 4 3 3 3 ] |}.

Definition scenario_A_rand (k : nat) : Z := nth k [3; 1; 4; 2; 5; 6] 1.

Definition scenario_A : KruskalController * list Effect :=
  (switch_enter_handler scenario_A_api scenario_A_rand
     (KruskalController_init, [])).2.

Definition scenario_A_topo : Topo := topo scenario_A.1.

(** A frame that comes in at port [in_port] of switch [sw], unbuffered. *)
Definition scenario_packet (sw in_port ety : Z) (dst_mac src_mac : string) : PacketIn :=
  {| pi_datapath := {| dp_id := sw |}; pi_in_port := in_port;
     pi_buffer_id := OFP_NO_BUFFER; pi_data := [1; 2; 3];
     ethertype := ety; eth_dst := dst_mac; eth_src := src_mac |}.

(** A frame to a host nobody has heard of, seen by switch 1. *)
Definition scenario_A_flood : PacketIn := scenario_packet 1 7 0x0800 "bb" "aa".

(** Switches 1 and 5 and the link between them: two switches, but an id
    above the count. *)
Definition scenario_E_api : TopologyAPI :=
  {| all_switches := scenario_switch <$> [1; 5];
     all_links := [ scenario_link 1 1 5 1; scenario_link 5 1 1 1 ] |}.

Definition scenario_E : KruskalController * list Effect :=
  (switch_enter_handler scenario_E_api (λ _, 5) (KruskalController_init, [])).2.


(** Two parallel links from switch 1 to switch 2, and one link back. *)
Definition scenario_P_api : TopologyAPI :=
  {| all_switches := scenario_switch <$> [1; 2];
     all_links := [ scenario_link 1 1 2 1; scenario_link 2 1 1 1;
                    scenario_link 1 2 2 2 ] |}.

(** Scenario B: two switches and the link between them, both ways. *)
Definition scenario_B_api : TopologyAPI :=
  {| all_switches := scenario_switch <$> [1; 2];
     all_links := [ scenario_link 1 1 2 1; scenario_link 2 1 1 1 ] |}.

Definition scenario_B : KruskalController * list Effect :=
  (switch_enter_handler scenario_B_api (λ _, 5) (KruskalController_init, [])).2.



(** The topology API once every switch but switch 1 has left it. *)
Definition scenario_F_api : TopologyAPI :=
  {| all_switches := [scenario_switch 1]; all_links := [] |}.

(** A second frame with unknown destination, seen by switch 2. *)
Definition scenario_A_flood2 : PacketIn := scenario_packet 2 7 0x0800 "dd" "cc".

(** Scenario D: as scenario B, when switch 2 has not registered: the
    topology holds the link, the datapath list only switch 1. *)
Definition scenario_D : KruskalController :=
  {| datapaths := [ {| dp_id := 1 |} ];
     mac_to_port := ∅;
     topo := topo scenario_B.1 |}.

(** * Specification vocabulary *)

(** [root_of l x r d]: following the parent pointers of [l] from slot [x]
    reaches the self-pointing slot [r] after [d] steps. *)
Inductive root_of (l : list Z) : Z → Z → nat → Prop :=
  | root_here x :
      0 ≤ x → l !! Z.to_nat x = Some x → root_of l x x O
  | root_up x p r d :
      0 ≤ x → l !! Z.to_nat x = Some p → p ≠ x →
      root_of l p r d → root_of l x r (S d).

Definition same_root (l : list Z) (x y : Z) : Prop :=
  ∃ r dx dy, root_of l x r dx ∧ root_of l y r dy.

(** The number of self-pointing slots (slot 0 included). *)
Definition nroots (l : list Z) : nat :=
  length (filter (λ i, l !! i = Some (Z.of_nat i)) (seq 0 (length l))).

(** Connectivity in the undirected graph of a list of endpoint pairs. *)
Definition conn (E : list (Z * Z)) : relation Z := rtsc (λ x y, (x, y) ∈ E).

(** The invariant of a disjoint-set over ids [0..n] that has had the
    pairs of [E] unioned. *)
Record uf_inv (n : Z) (l : list Z) (E : list (Z * Z)) : Prop := mk_uf_inv {
  inv_n : 0 ≤ n;
  inv_len : length l = Z.to_nat (n + 1);
  inv_root : ∀ x, 0 ≤ x ≤ n →
             ∃ r d, root_of l x r d ∧ (d + nroots l ≤ length l)%nat;
  inv_conn : ∀ x y, 0 ≤ x ≤ n → 0 ≤ y ≤ n → same_root l x y ↔ conn E x y
}.

(** [l'] is [l] after some path compression. *)
Definition compressed (l l' : list Z) : Prop :=
  length l' = length l
  ∧ (∀ i : nat, l' !! i = Some (Z.of_nat i) ↔ l !! i = Some (Z.of_nat i))
  ∧ (∀ y r d, root_of l y r d → ∃ d', (d' ≤ d)%nat ∧ root_of l' y r d').

Definition ids_in (n : Z) (E : list (Z * Z)) : Prop :=
  ∀ u v, (u, v) ∈ E → 1 ≤ u ≤ n ∧ 1 ≤ v ≤ n.

(** The choice Kruskal's loop makes on the edge list [es], when the pairs
    of [P] are already joined: an edge is kept exactly when its endpoints
    are not yet connected. *)
Inductive greedy : list (Z * Z) → list Edge → list Edge → Prop :=
  | greedy_nil P : greedy P [] []
  | greedy_skip P e es K :
      conn P e.1.1 e.1.2 → greedy P es K → greedy P (e :: es) K
  | greedy_pick P e es K :
      ¬ conn P e.1.1 e.1.2 → greedy (e.1 :: P) es K → greedy P (e :: es) (e :: K).

Definition weight_le (a b : Edge) : Prop := e_weight a ≤ e_weight b.

Definition total_weight (T : list Edge) : Z := foldr (λ e acc, e_weight e + acc) 0 T.

(** No edge joins two vertices that the other edges already connect. *)
Definition acyclic (E : list (Z * Z)) : Prop :=
  ∀ E1 a b E2, E = E1 ++ (a, b) :: E2 → ¬ conn (E1 ++ E2) a b.

(** [T] is a spanning forest of the edge list [G]: edges of [G], without
    a cycle, that connect whatever [G] connects. *)
Definition spanning_forest (G T : list Edge) : Prop :=
  T ⊆ G ∧ (∀ x y, conn G.*1 x y → conn T.*1 x y) ∧ acyclic T.*1.

(** The weight of a list of endpoint pairs, as the graph records it. *)
Definition tree_weight (t : Topo) (tree : list (Z * Z)) : Z :=
  foldr (λ '(u, v) acc, default 0 (weight <$> edge_data u v t) + acc) 0 tree.

(** [reps] holds one switch of [1..n] per connected component. *)
Definition components (n : Z) (E : list (Z * Z)) (reps : list Z) : Prop :=
  NoDup reps
  ∧ (∀ c, c ∈ reps → 1 ≤ c ≤ n)
  ∧ (∀ c1 c2, c1 ∈ reps → c2 ∈ reps → conn E c1 c2 → c1 = c2)
  ∧ (∀ x, 1 ≤ x ≤ n → ∃ c, c ∈ reps ∧ conn E x c).

(** The two directions of a link carry one weight. *)
Definition sym_weights (t : Topo) : Prop :=
  ∀ a b da db, edge_data a b t = Some da → edge_data b a t = Some db →
               weight da = weight db.

(** Python dictionaries hold a key once. *)
Definition topo_wf (t : Topo) : Prop :=
  NoDup (_adj t).*1 ∧ ∀ n nbrs, (n, nbrs) ∈ _adj t → NoDup nbrs.*1.

(** [tree] is a minimum spanning forest of the graph of [t]: it lists the
    endpoints of a spanning forest, and no spanning forest is lighter. *)
Definition minimum_spanning_forest (t : Topo) (tree : list (Z * Z)) : Prop :=
  (∃ K, tree = K.*1 ∧ spanning_forest (edges t) K
        ∧ total_weight K = tree_weight t tree)
  ∧ ∀ T, spanning_forest (edges t) T → tree_weight t tree ≤ total_weight T.

(** The same edge with its weight raised by [c], and a raise that leaves
    no weight of [es] negative. *)
Definition shift (c : Z) (e : Edge) : Edge :=
  (e.1, {| src_port := src_port e.2; dst_port := dst_port e.2;
           weight := weight e.2 + c |}).

Definition slack (es : list Edge) : Z :=
  foldr (λ e acc, Z.max acc (- e_weight e)) 0 es.

(** * Lemmas *)

(** ** Parent pointers *)

Section root_of.
Implicit Types (l : list Z) (x y r p : Z) (d : nat).

Lemma root_of_det l x r1 d1 r2 d2 :
  root_of l x r1 d1 → root_of l x r2 d2 → r1 = r2 ∧ d1 = d2.
Proof.
  intros H1. revert r2 d2.
  induction H1 as [x Hx Hl | x p r d Hx Hl Hp H1 IH]; intros r2 d2 H2.
  - inversion H2; subst; [done | congruence].
  - inversion H2 as [| ? p' ? d' ? Hl' ? H2']; subst; [congruence |].
    assert (p' = p) by congruence. subst p'.
    destruct (IH _ _ H2') as [-> ->]. done.
Qed.

Lemma root_of_root l x r d : root_of l x r d → 0 ≤ r ∧ l !! Z.to_nat r = Some r.
Proof. induction 1; auto. Qed.

Lemma root_of_nonneg l x r d : root_of l x r d → 0 ≤ x.
Proof. by destruct 1. Qed.

(** Path compression: re-pointing [x] at its own root moves no slot to
    another root and makes no path longer. *)
Lemma root_of_compress l x r d :
  root_of l x r d → x ≠ r →
  ∀ y r' d', root_of l y r' d' →
    ∃ d'', (d'' ≤ d')%nat ∧ root_of (<[Z.to_nat x := r]> l) y r' d''.
Proof.
  intros Hx Hne y r' d' Hy.
  destruct (root_of_root _ _ _ _ Hx) as [Hr0 Hr].
  pose proof (root_of_nonneg _ _ _ _ Hx) as Hx0.
  induction Hy as [y Hy0 Hl | y p r' d' Hy0 Hl Hp Hy IH].
  - exists O. split; [done |]. constructor; [done |].
    destruct (decide (y = x)) as [-> |].
    + destruct (root_of_det _ _ _ _ _ _ Hx (root_here _ _ Hy0 Hl)); congruence.
    + rewrite list_lookup_insert_ne; [done | lia].
  - destruct IH as (d'' & Hd & IH).
    destruct (decide (y = x)) as [-> |].
    + destruct (root_of_det _ _ _ _ _ _ Hx (root_up _ _ _ _ _ Hy0 Hl Hp Hy)) as [-> _].
      exists 1%nat. split; [lia |].
      eapply (root_up _ _ r'); [done | | | ].
      * apply list_lookup_insert_eq. by eapply lookup_lt_Some.
      * congruence.
      * constructor; [done |]. rewrite list_lookup_insert_ne; [done | lia].
    + exists (S d''). split; [lia |].
      eapply root_up; [done | | done | done].
      rewrite list_lookup_insert_ne; [done | lia].
Qed.

(** Linking the root [ry] under the root [rx]. *)
Lemma root_of_link l rx ry :
  0 ≤ rx → l !! Z.to_nat rx = Some rx → 0 ≤ ry → l !! Z.to_nat ry = Some ry →
  rx ≠ ry →
  ∀ z rz d, root_of l z rz d →
    root_of (<[Z.to_nat ry := rx]> l) z
      (if decide (rz = ry) then rx else rz)
      (if decide (rz = ry) then S d else d).
Proof.
  intros Hx0 Hx Hy0 Hy Hne z rz d Hz.
  induction Hz as [z Hz0 Hl | z p rz d Hz0 Hl Hp Hz IH].
  - destruct (decide (z = ry)) as [-> |].
    + eapply (root_up _ _ rx); [done | | congruence | ].
      * apply list_lookup_insert_eq. by eapply lookup_lt_Some.
      * constructor; [done |]. rewrite list_lookup_insert_ne; [done | lia].
    + constructor; [done |]. rewrite list_lookup_insert_ne; [done | lia].
  - assert (z ≠ ry) by congruence.
    destruct (decide (rz = ry)); (eapply root_up; [done | | done | done]);
      (rewrite list_lookup_insert_ne; [done | lia]).
Qed.

End root_of.

(** ** [find] and [union] on well-formed parent arrays *)

Section find_union.
Implicit Types (l : list Z) (x y r p : Z) (d fuel : nat).

Lemma py_index_nonneg (len : nat) x :
  0 ≤ x → (Z.to_nat x < len)%nat → py_index len x = Some (Z.to_nat x).
Proof.
  intros ??. unfold py_index. rewrite bool_decide_eq_true_2; [done | lia].
Qed.

Lemma py_index_out (len : nat) x :
  Z.of_nat len ≤ x ∨ x < - Z.of_nat len → py_index len x = None.
Proof.
  intros ?. unfold py_index.
  rewrite !bool_decide_eq_false_2; [done | lia | lia].
Qed.

Lemma fa_getitem_Some l sz x v :
  0 ≤ x → l !! Z.to_nat x = Some v →
  fa_getitem x (mkUnionFindSet l sz) = (Ret v, mkUnionFindSet l sz).
Proof.
  intros Hx Hl. unfold fa_getitem. simpl.
  rewrite py_index_nonneg; [by rewrite Hl | done | by eapply lookup_lt_Some].
Qed.

Lemma fa_setitem_Some l sz x v :
  0 ≤ x → (Z.to_nat x < length l)%nat →
  fa_setitem x v (mkUnionFindSet l sz)
  = (Ret tt, mkUnionFindSet (<[Z.to_nat x := v]> l) sz).
Proof.
  intros Hx Hl. unfold fa_setitem. simpl. by rewrite py_index_nonneg.
Qed.

Lemma find_S fuel x s :
  find (S fuel) x s =
  (p ← fa_getitem x;
   (if bool_decide (p ≠ x)
    then p' ← fa_getitem x; r ← find fuel p'; fa_setitem x r
    else ret tt);;
   fa_getitem x) s.
Proof. done. Qed.

(** [find] returns the root, within any fuel above the depth, and
    leaves behind an array of the same shape: same length, same roots,
    every slot under the same root and no deeper than before. *)
Lemma find_root l sz x r d fuel :
  root_of l x r d → (d < fuel)%nat →
  ∃ l', find fuel x (mkUnionFindSet l sz) = (Ret r, mkUnionFindSet l' sz)
      ∧ length l' = length l
      ∧ (∀ i : nat, l' !! i = Some (Z.of_nat i) ↔ l !! i = Some (Z.of_nat i))
      ∧ (∀ y r' d', root_of l y r' d' →
           ∃ d'', (d'' ≤ d')%nat ∧ root_of l' y r' d'').
Proof.
  intros Hx. revert fuel.
  induction Hx as [x Hx0 Hl | x p r d Hx0 Hl Hp Hx IH]; intros fuel Hfuel.
  - destruct fuel as [| fuel]; [lia |]. exists l.
    split; [| split; [done | split; [done | eauto]]].
    rewrite find_S. unfold mbind, M_bind, bind.
    rewrite (fa_getitem_Some _ _ _ x) by done.
    rewrite bool_decide_eq_false_2 by (intros ?; done).
    unfold ret. by rewrite (fa_getitem_Some _ _ _ x).
  - destruct fuel as [| fuel]; [lia |].
    destruct (IH fuel ltac:(lia)) as (l1 & Hf & Hlen & Hroots & Hpres).
    pose proof (root_up _ _ _ _ _ Hx0 Hl Hp Hx) as Hx'.
    destruct (Hpres _ _ _ Hx') as (dx & _ & Hx1).
    destruct (root_of_root _ _ _ _ Hx) as [Hr0 Hr].
    assert (x ≠ r) as Hxr by congruence.
    exists (<[Z.to_nat x := r]> l1).
    assert (Z.to_nat x < length l1)%nat as Hlt
      by (rewrite Hlen; by eapply lookup_lt_Some).
    split; [| split; [| split]].
    + rewrite find_S. unfold mbind, M_bind, bind.
      rewrite (fa_getitem_Some _ _ _ p) by done.
      rewrite bool_decide_eq_true_2 by done.
      rewrite (fa_getitem_Some _ _ _ p) by done.
      rewrite Hf. rewrite fa_setitem_Some by done.
      rewrite (fa_getitem_Some _ _ _ r); [done | done |].
      by apply list_lookup_insert_eq.
    + by rewrite length_insert.
    + intros i. destruct (decide (i = Z.to_nat x)) as [-> |].
      * rewrite list_lookup_insert_eq by done. rewrite Hl.
        rewrite Z2Nat.id by done. split; congruence.
      * rewrite list_lookup_insert_ne by done. apply Hroots.
    + intros y r' d' Hy.
      destruct (Hpres _ _ _ Hy) as (d1 & Hd1 & Hy1).
      destruct (root_of_compress _ _ _ _ Hx1 Hxr _ _ _ Hy1) as (d2 & Hd2 & Hy2).
      exists d2. split; [lia | done].
Qed.
End find_union.

(** ** Counting roots *)

Section counting.
Context {A : Type} `{!EqDecision A}.
Implicit Types (P Q : A → Prop) (L : list A).

Lemma filter_length_ext P Q `{!∀ x, Decision (P x)} `{!∀ x, Decision (Q x)} L :
  (∀ x, x ∈ L → P x ↔ Q x) → length (filter P L) = length (filter Q L).
Proof.
  induction L as [| a L IH]; intros HPQ; [done |].
  rewrite !filter_cons.
  assert (P a ↔ Q a) as Ha by (apply HPQ; left).
  assert (length (filter P L) = length (filter Q L)) as IH'
    by (apply IH; intros; apply HPQ; by right).
  repeat case_decide; simpl; tauto || lia.
Qed.

Lemma filter_length_all P `{!∀ x, Decision (P x)} L :
  (∀ x, x ∈ L → P x) → length (filter P L) = length L.
Proof.
  induction L as [| a L IH]; intros HP; [done |].
  rewrite filter_cons_True by (apply HP; left).
  simpl. f_equal. apply IH. intros; apply HP; by right.
Qed.

Lemma filter_length_drop_one P Q `{!∀ x, Decision (P x)} `{!∀ x, Decision (Q x)} L a :
  NoDup L → a ∈ L → P a → ¬ Q a → (∀ x, x ≠ a → P x ↔ Q x) →
  length (filter P L) = S (length (filter Q L)).
Proof.
  intros Hnd Ha HPa HQa HPQ.
  induction Hnd as [| b L Hb Hnd IH]; [by apply elem_of_nil in Ha |].
  rewrite !filter_cons.
  destruct (decide (b = a)) as [-> | Hne].
  - rewrite decide_True by done. rewrite (decide_False (P := Q a)) by done.
    simpl. f_equal. apply filter_length_ext. intros x Hx. apply HPQ. by intros ->.
  - assert (a ∈ L) as Ha' by (apply elem_of_cons in Ha as [-> | Ha]; done).
    specialize (IH Ha').
    specialize (HPQ b Hne).
    repeat case_decide; simpl; tauto || lia.
Qed.
End counting.

Lemma nroots_pos l r : 0 ≤ r → l !! Z.to_nat r = Some r → (1 ≤ nroots l)%nat.
Proof.
  intros Hr Hl. unfold nroots.
  assert (Z.to_nat r ∈ filter (λ i : nat, l !! i = Some (Z.of_nat i)) (seq 0 (length l)))
    as Hin.
  { apply list_elem_of_filter. split; [by rewrite Z2Nat.id |].
    apply elem_of_seq. apply lookup_lt_Some in Hl. lia. }
  destruct (filter _ _); [by apply elem_of_nil in Hin | simpl; lia].
Qed.

Lemma nroots_ext l l' :
  length l' = length l →
  (∀ i : nat, l' !! i = Some (Z.of_nat i) ↔ l !! i = Some (Z.of_nat i)) →
  nroots l' = nroots l.
Proof.
  intros Hlen Hroots. unfold nroots. rewrite Hlen.
  apply filter_length_ext. intros; apply Hroots.
Qed.

Lemma nroots_link l rx ry :
  0 ≤ ry → l !! Z.to_nat ry = Some ry → rx ≠ ry →
  nroots l = S (nroots (<[Z.to_nat ry := rx]> l)).
Proof.
  intros Hy0 Hy Hne. unfold nroots. rewrite length_insert.
  apply (filter_length_drop_one _ _ _ (Z.to_nat ry)).
  - apply NoDup_seq.
  - apply elem_of_seq. apply lookup_lt_Some in Hy. lia.
  - by rewrite Z2Nat.id.
  - rewrite list_lookup_insert_eq by (by eapply lookup_lt_Some).
    rewrite Z2Nat.id by done. congruence.
  - intros i Hi. by rewrite list_lookup_insert_ne.
Qed.

(** Membership in lists built from [::], [++] and [fmap]. *)
Ltac elems :=
  repeat (rewrite fmap_cons || rewrite fmap_app
          || rewrite elem_of_app || rewrite elem_of_cons);
  tauto.

(** ** Connectivity *)

Section conn.
Implicit Types (E : list (Z * Z)) (x y u v : Z).

#[global] Instance conn_equivalence E : Equivalence (conn E).
Proof. unfold conn. apply _. Qed.

Lemma conn_edge E u v : (u, v) ∈ E → conn E u v.
Proof. intros. by apply rtsc_lr. Qed.

Lemma conn_mono E E' x y : E ⊆ E' → conn E x y → conn E' x y.
Proof.
  intros Hsub. unfold conn, rtsc. apply rtc_subrel.
  intros a b [?|?]; [left | right]; by apply Hsub.
Qed.

Lemma conn_nil x y : conn [] x y ↔ x = y.
Proof.
  split; [| by intros ->].
  unfold conn, rtsc. induction 1 as [| a b c [H|H]]; [done | | ];
    by apply elem_of_nil in H.
Qed.

(** What one more edge connects. *)
Lemma conn_cons E u v x y :
  conn ((u, v) :: E) x y ↔
  conn E x y ∨ (conn E x u ∧ conn E v y) ∨ (conn E x v ∧ conn E u y).
Proof.
  split.
  - unfold conn at 1, rtsc. intros H.
    induction H as [x | x z y Hxz _ IH]; [by left |].
    assert (conn E x z ∨ (x = u ∧ z = v) ∨ (x = v ∧ z = u)) as Hstep.
    { destruct Hxz as [Hxz | Hxz]; apply elem_of_cons in Hxz as [Heq | Hin].
      - right; left. by inversion Heq.
      - left. by apply conn_edge.
      - right; right. by inversion Heq.
      - left. symmetry. by apply conn_edge. }
    destruct Hstep as [Hc | [[-> ->] | [-> ->]]].
    + destruct IH as [? | [[??] | [??]]].
      * left. by etrans.
      * right; left. split; [by etrans | done].
      * right; right. split; [by etrans | done].
    + destruct IH as [? | [[??] | [??]]].
      * right; left. done.
      * left. etrans; [symmetry |]; done.
      * left. done.
    + destruct IH as [? | [[??] | [??]]].
      * right; right. done.
      * left. done.
      * left. etrans; [symmetry |]; done.
  - assert (E ⊆ (u, v) :: E) as Hsub by (intros ??; by right).
    assert (conn ((u, v) :: E) u v) as Huv by (apply conn_edge; left).
    intros [H | [[H1 H2] | [H1 H2]]].
    + by eapply conn_mono.
    + etrans; [by eapply conn_mono |]. etrans; [done |]. by eapply conn_mono.
    + etrans; [by eapply conn_mono |]. etrans; [by symmetry |]. by eapply conn_mono.
Qed.

(** Outside the ids an edge list mentions, nothing is connected. *)
Lemma conn_ids_in n E x y :
  ids_in n E → conn E x y → x = y ∨ (1 ≤ x ≤ n ∧ 1 ≤ y ≤ n).
Proof.
  intros Hids. unfold conn, rtsc.
  induction 1 as [| x z y Hxz _ IH]; [by left |]. right.
  assert (1 ≤ x ≤ n ∧ 1 ≤ z ≤ n) as [??].
  { destruct Hxz as [H | H]; apply Hids in H; tauto. }
  destruct IH as [<- | [??]]; done.
Qed.

End conn.

(** ** The disjoint-set invariant *)

Section uf_inv.
Implicit Types (l : list Z) (E : list (Z * Z)) (x y u v r n : Z) (fuel : nat).

Lemma compressed_trans l1 l2 l3 :
  compressed l1 l2 → compressed l2 l3 → compressed l1 l3.
Proof.
  intros (Hl1 & Hr1 & Hp1) (Hl2 & Hr2 & Hp2). split; [congruence | split].
  - intros i. by rewrite Hr2.
  - intros y r d Hy. destruct (Hp1 _ _ _ Hy) as (d1 & ? & Hy1).
    destruct (Hp2 _ _ _ Hy1) as (d2 & ? & Hy2). exists d2. split; [lia | done].
Qed.

Lemma compressed_nroots l l' : compressed l l' → nroots l' = nroots l.
Proof. intros (? & ? & _). by apply nroots_ext. Qed.

Lemma same_root_iff l x y rx ry dx dy :
  root_of l x rx dx → root_of l y ry dy → same_root l x y ↔ rx = ry.
Proof.
  intros Hx Hy. split.
  - intros (r & dx' & dy' & Hx' & Hy').
    destruct (root_of_det _ _ _ _ _ _ Hx Hx') as [-> _].
    by destruct (root_of_det _ _ _ _ _ _ Hy Hy') as [-> _].
  - intros ->. by exists ry, dx, dy.
Qed.

Lemma uf_inv_compressed n l l' E :
  uf_inv n l E → compressed l l' → uf_inv n l' E.
Proof.
  intros [Hn Hlen Hroot Hconn] Hc.
  pose proof (compressed_nroots _ _ Hc) as Hnr.
  destruct Hc as (Hlen' & Hr & Hp).
  split; [done | congruence | |].
  - intros x Hx. destruct (Hroot x Hx) as (r & d & Hx' & Hd).
    destruct (Hp _ _ _ Hx') as (d' & ? & ?). exists r, d'. split; [done | lia].
  - intros x y Hx Hy. rewrite <- Hconn by done.
    destruct (Hroot x Hx) as (rx & dx & Hx' & _).
    destruct (Hroot y Hy) as (ry & dy & Hy' & _).
    destruct (Hp _ _ _ Hx') as (dx' & _ & Hx'').
    destruct (Hp _ _ _ Hy') as (dy' & _ & Hy'').
    by rewrite (same_root_iff _ _ _ _ _ _ _ Hx' Hy'),
               (same_root_iff _ _ _ _ _ _ _ Hx'' Hy'').
Qed.

Lemma uf_inv_ext n l E E' :
  uf_inv n l E → (∀ x y, conn E x y ↔ conn E' x y) → uf_inv n l E'.
Proof.
  intros [Hn Hlen Hroot Hconn] HE. split; [done | done | done |].
  intros x y Hx Hy. by rewrite <- HE, Hconn.
Qed.

Lemma uf_inv_redundant n l E u v :
  uf_inv n l E → conn E u v → uf_inv n l ((u, v) :: E).
Proof.
  intros Hinv Huv. eapply uf_inv_ext; [done |].
  intros x y. rewrite conn_cons. split; [tauto |].
  intros [? | [[??] | [??]]]; [done | |].
  - trans u; [done |]. by trans v.
  - trans v; [done |]. trans u; [by symmetry | done].
Qed.

Lemma init_lookup n (i : nat) :
  (i < Z.to_nat (n + 1))%nat → fa (UnionFindSet_init n) !! i = Some (Z.of_nat i).
Proof.
  intros Hi. unfold UnionFindSet_init. simpl.
  rewrite list_lookup_fmap, lookup_seq_lt by done. done.
Qed.

Lemma init_length n : length (fa (UnionFindSet_init n)) = Z.to_nat (n + 1).
Proof. unfold UnionFindSet_init. simpl. by rewrite length_fmap, length_seq. Qed.

Lemma init_root n x : 0 ≤ x ≤ n → root_of (fa (UnionFindSet_init n)) x x O.
Proof.
  intros Hx. constructor; [lia |].
  rewrite init_lookup by lia. f_equal. lia.
Qed.

Lemma init_nroots n : nroots (fa (UnionFindSet_init n)) = Z.to_nat (n + 1).
Proof.
  unfold nroots. rewrite init_length.
  rewrite filter_length_all; [apply length_seq |].
  intros i Hi. apply elem_of_seq in Hi. apply init_lookup. lia.
Qed.

Lemma uf_inv_init n : 0 ≤ n → uf_inv n (fa (UnionFindSet_init n)) [].
Proof.
  intros Hn. split; [done | apply init_length | |].
  - intros x Hx. exists x, O. split; [by apply init_root |].
    rewrite init_nroots, init_length. lia.
  - intros x y Hx Hy. rewrite conn_nil.
    apply (same_root_iff _ _ _ _ _ O O); by apply init_root.
Qed.

Lemma uf_inv_link n l E u v ru rv du dv :
  uf_inv n l E → 0 ≤ u ≤ n → 0 ≤ v ≤ n →
  root_of l u ru du → root_of l v rv dv → ru ≠ rv →
  uf_inv n (<[Z.to_nat rv := ru]> l) ((u, v) :: E)
  ∧ nroots l = S (nroots (<[Z.to_nat rv := ru]> l)).
Proof.
  intros [Hn Hlen Hroot Hconn] Hu Hv Hru Hrv Hne.
  destruct (root_of_root _ _ _ _ Hru) as [Hru0 Hrul].
  destruct (root_of_root _ _ _ _ Hrv) as [Hrv0 Hrvl].
  pose proof (nroots_link l ru rv Hrv0 Hrvl Hne) as Hnr.
  pose proof (root_of_link l ru rv Hru0 Hrul Hrv0 Hrvl Hne) as Hlink.
  split; [| done]. split; [done | by rewrite length_insert | |].
  - intros x Hx. destruct (Hroot x Hx) as (r & d & Hx' & Hd).
    eexists _, _. split; [by apply Hlink |].
    rewrite length_insert. case_decide; lia.
  - intros x y Hx Hy. rewrite conn_cons.
    rewrite <- !Hconn by done.
    destruct (Hroot x Hx) as (rx & dx & Hx' & _).
    destruct (Hroot y Hy) as (ry & dy & Hy' & _).
    rewrite (same_root_iff _ _ _ _ _ _ _ (Hlink _ _ _ Hx') (Hlink _ _ _ Hy')).
    rewrite (same_root_iff _ _ _ _ _ _ _ Hx' Hy'),
            (same_root_iff _ _ _ _ _ _ _ Hx' Hru),
            (same_root_iff _ _ _ _ _ _ _ Hrv Hy'),
            (same_root_iff _ _ _ _ _ _ _ Hx' Hrv),
            (same_root_iff _ _ _ _ _ _ _ Hru Hy').
    repeat case_decide; split; intros; subst; try tauto; try congruence;
      try (destruct_or?; destruct_and?; congruence).
Qed.

Lemma uf_inv_fuel n l E x r d fuel :
  uf_inv n l E → 0 ≤ x ≤ n → root_of l x r d → (length l ≤ fuel)%nat →
  (d < fuel)%nat.
Proof.
  intros [Hn Hlen Hroot Hconn] Hx Hr Hfuel.
  destruct (Hroot x Hx) as (r' & d' & Hr' & Hd).
  destruct (root_of_det _ _ _ _ _ _ Hr Hr') as [-> ->].
  destruct (root_of_root _ _ _ _ Hr) as [Hr0 Hrl].
  pose proof (nroots_pos _ _ Hr0 Hrl). lia.
Qed.

(** [find] on a disjoint-set that satisfies the invariant. *)
Lemma find_inv n l sz E x fuel :
  uf_inv n l E → 0 ≤ x ≤ n → (length l ≤ fuel)%nat →
  ∃ r d l', root_of l x r d
          ∧ find fuel x (mkUnionFindSet l sz) = (Ret r, mkUnionFindSet l' sz)
          ∧ compressed l l'.
Proof.
  intros Hinv Hx Hfuel.
  destruct (inv_root _ _ _ Hinv x Hx) as (r & d & Hr & _).
  pose proof (uf_inv_fuel _ _ _ _ _ _ _ Hinv Hx Hr Hfuel) as Hd.
  destruct (find_root l sz x r d fuel Hr Hd) as (l' & Hf & Hc).
  by exists r, d, l'.
Qed.

(** [union] on a disjoint-set that satisfies the invariant. *)
Lemma union_inv n l sz E u v fuel :
  uf_inv n l E → 0 ≤ u ≤ n → 0 ≤ v ≤ n → (length l ≤ fuel)%nat →
  ∃ l', union fuel u v (mkUnionFindSet l sz) = (Ret tt, mkUnionFindSet l' sz)
      ∧ uf_inv n l' ((u, v) :: E)
      ∧ (conn E u v → nroots l' = nroots l)
      ∧ (¬ conn E u v → nroots l = S (nroots l')).
Proof.
  intros Hinv Hu Hv Hfuel.
  destruct (find_inv n l sz E u fuel Hinv Hu Hfuel) as (ru & du & l1 & Hru & Hf1 & Hc1).
  pose proof (uf_inv_compressed _ _ _ _ Hinv Hc1) as Hinv1.
  assert (length l1 ≤ fuel)%nat as Hfuel1 by (destruct Hc1 as [-> _]; done).
  destruct (find_inv n l1 sz E v fuel Hinv1 Hv Hfuel1)
    as (rv & dv & l2 & Hrv & Hf2 & Hc2).
  pose proof (uf_inv_compressed _ _ _ _ Hinv1 Hc2) as Hinv2.
  pose proof (compressed_trans _ _ _ Hc1 Hc2) as Hc.
  destruct Hc1 as (_ & _ & Hp1). destruct Hc2 as (_ & _ & Hp2).
  destruct (Hp1 _ _ _ Hru) as (du1 & _ & Hru1).
  destruct (Hp2 _ _ _ Hru1) as (du2 & _ & Hru2).
  destruct (Hp2 _ _ _ Hrv) as (dv2 & _ & Hrv2).
  assert (conn E u v ↔ ru = rv) as Hiff.
  { rewrite <- (inv_conn _ _ _ Hinv2) by done. by eapply same_root_iff. }
  unfold union, mbind, M_bind, bind. rewrite Hf1, Hf2.
  destruct (decide (ru = rv)) as [Heq | Hne].
  - rewrite bool_decide_eq_false_2 by (intros ?; done).
    exists l2. split; [done |]. split; [| split].
    + apply uf_inv_redundant; [done | by apply Hiff].
    + intros _. by apply compressed_nroots.
    + intros Hn. by apply Hiff in Heq.
  - rewrite bool_decide_eq_true_2 by done.
    destruct (root_of_root _ _ _ _ Hrv2) as [Hrv0 Hrvl].
    rewrite fa_setitem_Some by (done || by eapply lookup_lt_Some).
    destruct (uf_inv_link _ _ _ _ _ _ _ _ _ Hinv2 Hu Hv Hru2 Hrv2 Hne) as [Hinv3 Hnr].
    exists (<[Z.to_nat rv := ru]> l2). split; [done |]. split; [done |]. split.
    + intros Hn. by apply Hiff in Hn.
    + intros _. by rewrite <- Hnr, (compressed_nroots _ _ Hc).
Qed.
End uf_inv.

(** ** The loop of [Kruskal] makes the greedy choice *)

Section Kruskal_loop.
Implicit Types (l : list Z) (P : list (Z * Z)) (es K : list Edge) (t : Topo).

Lemma on_set_run {A} (m : M UnionFindSet A) t s o s' :
  set t = Some s → m s = (o, s') → on_set m t = (o, with_set (Some s') t).
Proof. intros Hs Hm. unfold on_set. by rewrite Hs, Hm. Qed.

Lemma on_set_with_set {A} (m : M UnionFindSet A) t s o s' :
  m s = (o, s') → on_set m (with_set (Some s) t) = (o, with_set (Some s') t).
Proof. intros Hm. unfold on_set. simpl. by rewrite Hm. Qed.

Lemma with_set_with_set s s' t : with_set s' (with_set s t) = with_set s' t.
Proof. done. Qed.

Lemma conn_same_elements E E' x y :
  (∀ e, e ∈ E ↔ e ∈ E') → conn E x y ↔ conn E' x y.
Proof. intros H. split; apply conn_mono; intros e; apply H. Qed.

Lemma Kruskal_loop_greedy n fuel es :
  ∀ l sz P acc t,
    set t = Some (mkUnionFindSet l sz) → uf_inv n l P →
    (∀ e, e ∈ es → 0 ≤ e.1.1 ≤ n ∧ 0 ≤ e.1.2 ≤ n) →
    (length l ≤ fuel)%nat →
    ∃ K l',
      Kruskal_loop fuel es acc t
      = (Ret (acc ++ K.*1), with_set (Some (mkUnionFindSet l' sz)) t)
      ∧ greedy P es K
      ∧ uf_inv n l' (K.*1 ++ P)
      ∧ nroots l = (nroots l' + length K)%nat.
Proof.
  induction es as [| e es IH]; intros l sz P acc t Hset Hinv Hids Hfuel.
  - exists [], l. simpl. rewrite app_nil_r.
    split; [| split; [constructor | split; [done | lia]]].
    unfold ret. f_equal. destruct t; simpl in *; by subst.
  - assert (0 ≤ e.1.1 ≤ n ∧ 0 ≤ e.1.2 ≤ n) as [Hu Hv] by (apply Hids; left).
    assert (∀ e', e' ∈ es → 0 ≤ e'.1.1 ≤ n ∧ 0 ≤ e'.1.2 ≤ n) as Hids'
      by (intros; apply Hids; by right).
    destruct (find_inv n l sz P e.1.1 fuel Hinv Hu Hfuel)
      as (ru & du & l1 & Hru & Hf1 & Hc1).
    pose proof (uf_inv_compressed _ _ _ _ Hinv Hc1) as Hinv1.
    assert (length l1 ≤ fuel)%nat as Hfuel1 by (destruct Hc1 as [-> _]; done).
    destruct (find_inv n l1 sz P e.1.2 fuel Hinv1 Hv Hfuel1)
      as (rv & dv & l2 & Hrv & Hf2 & Hc2).
    pose proof (uf_inv_compressed _ _ _ _ Hinv1 Hc2) as Hinv2.
    assert (length l2 ≤ fuel)%nat as Hfuel2 by (destruct Hc2 as [-> _]; done).
    pose proof (compressed_nroots _ _ Hc1) as Hn1.
    pose proof (compressed_nroots _ _ Hc2) as Hn2.
    destruct Hc1 as (_ & _ & Hp1).
    destruct (Hp1 _ _ _ Hru) as (du1 & _ & Hru1).
    assert (conn P e.1.1 e.1.2 ↔ ru = rv) as Hiff.
    { rewrite <- (inv_conn _ _ _ Hinv1) by done. by eapply same_root_iff. }
    cbn [Kruskal_loop]. unfold mbind, M_bind, bind.
    rewrite (on_set_run _ _ _ _ _ Hset Hf1).
    rewrite (on_set_with_set _ _ _ _ _ Hf2).
    destruct (decide (ru = rv)) as [Heq | Hne].
    + rewrite bool_decide_eq_false_2 by (intros ?; done).
      destruct (IH l2 sz P acc (with_set (Some (mkUnionFindSet l2 sz)) t)
                  eq_refl Hinv2 Hids' Hfuel2)
        as (K & l' & HK & Hg & Hinv' & Hnr).
      exists K, l'. rewrite HK, with_set_with_set.
      split; [done |]. split; [| split; [done | lia]].
      apply greedy_skip; [by apply Hiff | done].
    + rewrite bool_decide_eq_true_2 by done.
      destruct (union_inv n l2 sz P e.1.1 e.1.2 fuel Hinv2 Hu Hv Hfuel2)
        as (l3 & Hun & Hinv3 & _ & Hnr3).
      assert (¬ conn P e.1.1 e.1.2) as Hnc by (by rewrite Hiff).
      specialize (Hnr3 Hnc).
      rewrite (on_set_with_set _ _ _ _ _ Hun).
      assert (length l3 ≤ fuel)%nat as Hfuel3
        by (rewrite (inv_len _ _ _ Hinv3), <- (inv_len _ _ _ Hinv2); done).
      destruct (IH l3 sz ((e.1.1, e.1.2) :: P) (acc ++ [(e.1.1, e.1.2)])
                  (with_set (Some (mkUnionFindSet l3 sz)) t)
                  eq_refl Hinv3 Hids' Hfuel3)
        as (K & l' & HK & Hg & Hinv' & Hnr).
      exists (e :: K), l'. rewrite HK, with_set_with_set.
      split; [| split; [| split]].
      * rewrite <- app_assoc. simpl. by destruct e as [[??]?].
      * apply greedy_pick; [done |]. by destruct e as [[??]?].
      * eapply uf_inv_ext; [done |]. intros x y. apply conn_same_elements.
        intros p. simpl. destruct e as [[??]?]; simpl.
        rewrite !elem_of_app, !elem_of_cons, !elem_of_app. tauto.
      * simpl. lia.
Qed.
End Kruskal_loop.

(** ** The greedy choice is a minimum spanning forest *)

Section greedy.
Implicit Types (P E : list (Z * Z)) (es K T : list Edge) (e f : Edge).

Lemma conn_sub E E' x y :
  (∀ a b, (a, b) ∈ E → conn E' a b) → conn E x y → conn E' x y.
Proof.
  intros Hsub. unfold conn at 1, rtsc.
  induction 1 as [| x z y Hxz _ IH]; [done |].
  trans z; [| done]. destruct Hxz as [H | H]; [| symmetry]; by apply Hsub.
Qed.

Lemma greedy_sublist P es K : greedy P es K → K `sublist_of` es.
Proof. induction 1; by constructor. Qed.

(** The kept edges connect whatever the whole list connects. *)
Lemma greedy_span P es K :
  greedy P es K → ∀ x y, conn (es.*1 ++ P) x y ↔ conn (K.*1 ++ P) x y.
Proof.
  induction 1 as [P | P e es K Hc _ IH | P e es K Hc _ IH]; intros x y; [done | |].
  - rewrite <- IH. split.
    + apply conn_sub. intros a b Hab. simpl in Hab.
      apply elem_of_cons in Hab as [Heq | Hab]; [| by apply conn_edge].
      destruct e as [[??]?]; simpl in *. simplify_eq.
      eapply conn_mono; [| done]. intros p Hp. apply elem_of_app. by right.
    + apply conn_mono. intros p Hp. by right.
  - trans (conn (es.*1 ++ e.1 :: P) x y).
    { apply conn_same_elements. intros p. elems. }
    rewrite IH. apply conn_same_elements. intros p. elems.
Qed.

Lemma total_weight_app T1 T2 :
  total_weight (T1 ++ T2) = total_weight T1 + total_weight T2.
Proof. induction T1 as [| a T1 IH]; simpl; lia. Qed.

Lemma total_weight_filter (Q : Edge → Prop) `{!∀ x, Decision (Q x)} T :
  (∀ e, e ∈ T → 0 ≤ e_weight e) →
  total_weight (filter Q T) ≤ total_weight T.
Proof.
  induction T as [| a T IH]; intros Hpos; [done |].
  assert (0 ≤ e_weight a) by (apply Hpos; left).
  assert (total_weight (filter Q T) ≤ total_weight T)
    by (apply IH; intros; apply Hpos; by right).
  rewrite filter_cons. case_decide; simpl; lia.
Qed.

(** If [T] connects [u] and [v] beyond what [P] does, some edge of [T]
    can be traded for the edge [(u, v)]. *)
Lemma bridge_exchange P T u v :
  conn (T.*1 ++ P) u v →
  conn P u v
  ∨ ∃ T1 f T2, T = T1 ++ f :: T2
             ∧ conn ((u, v) :: (T1 ++ T2).*1 ++ P) f.1.1 f.1.2.
Proof.
  induction T as [| g T IH]; intros Hc; [by left |].
  assert (T.*1 ++ P ⊆ (u, v) :: T.*1 ++ P) as Hsub by (intros ??; by right).
  assert (conn ((u, v) :: T.*1 ++ P) u v) as Huv by (apply conn_edge; left).
  destruct g as [[a b] d]. simpl in Hc.
  apply conn_cons in Hc as [Hc | Hc].
  - destruct (IH Hc) as [? | (T1 & f & T2 & -> & Hf)]; [by left | right].
    exists ((a, b, d) :: T1), f, T2. split; [done |].
    eapply conn_mono; [| done]. intros p. elems.
  - right. exists [], (a, b, d), T. split; [done |]. simpl.
    destruct Hc as [[H1 H2] | [H1 H2]].
    + trans u; [symmetry; by eapply conn_mono |].
      trans v; [done | symmetry; by eapply conn_mono].
    + trans v; [by eapply conn_mono |].
      trans u; [by symmetry | by eapply conn_mono].
Qed.

Lemma conn_drop_edge P T e x y :
  conn (e.1 :: T.*1 ++ P) x y →
  conn ((filter (λ g, g ≠ e) T).*1 ++ e.1 :: P) x y.
Proof.
  apply conn_mono. intros p Hp.
  apply elem_of_cons in Hp as [-> | Hp]; [elems |].
  apply elem_of_app in Hp as [Hp | Hp]; [| elems].
  apply list_elem_of_fmap in Hp as (g & -> & Hg).
  destruct (decide (g = e)) as [-> | Hne]; [elems |].
  apply elem_of_app. left. apply list_elem_of_fmap. exists g.
  split; [done |]. by apply list_elem_of_filter.
Qed.

(** Among the edge sets that connect what [es] connects, none is
    lighter than the greedy choice, when [es] is sorted by weight and
    no weight is negative. *)
Lemma greedy_minimal P es K :
  greedy P es K →
  StronglySorted weight_le es →
  (∀ e, e ∈ es → 0 ≤ e_weight e) →
  ∀ T, T ⊆ es →
       (∀ e, e ∈ es → conn (T.*1 ++ P) e.1.1 e.1.2) →
       total_weight K ≤ total_weight T.
Proof.
  induction 1 as [P | P e es K Hc _ IH | P e es K Hc _ IH];
    intros Hsorted Hpos T Hsub Hspan.
  - destruct T as [| g T]; [done |].
    exfalso. eapply not_elem_of_nil. apply Hsub. left.
  - apply StronglySorted_inv in Hsorted as [Hsorted _].
    assert (∀ g, g ∈ T → 0 ≤ e_weight g) as HposT by (intros; by apply Hpos, Hsub).
    trans (total_weight (filter (λ g, g ≠ e) T));
      [| by apply total_weight_filter].
    apply IH; [done | intros; apply Hpos; by right | |].
    + intros g Hg. apply list_elem_of_filter in Hg as [Hne Hg].
      apply Hsub in Hg. apply elem_of_cons in Hg as [-> | Hg]; done.
    + intros g Hg. assert (g ∈ e :: es) as Hg' by (by right).
      specialize (Hspan g Hg'). revert Hspan. apply conn_sub.
      intros a b Hab. apply elem_of_app in Hab as [Hab | Hab].
      * apply list_elem_of_fmap in Hab as (h & Hh & Hin).
        destruct (decide (h = e)) as [-> | Hne].
        -- destruct e as [[??]?]; simpl in *. simplify_eq.
           eapply conn_mono; [| done]. intros p Hp. elems.
        -- apply conn_edge. apply elem_of_app. left.
           apply list_elem_of_fmap. exists h. split; [done |].
           by apply list_elem_of_filter.
      * apply conn_edge. elems.
  - apply StronglySorted_inv in Hsorted as [Hsorted Hmin].
    assert (∀ g, g ∈ T → 0 ≤ e_weight g) as HposT by (intros; by apply Hpos, Hsub).
    assert (conn (T.*1 ++ P) e.1.1 e.1.2) as He by (apply Hspan; left).
    destruct (bridge_exchange _ _ _ _ He) as [? | (T1 & f & T2 & -> & Hf)]; [done |].
    assert (e_weight e ≤ e_weight f) as Hw.
    { assert (f ∈ e :: es) as Hin by (apply Hsub; elems).
      apply elem_of_cons in Hin as [-> | Hin]; [done |].
      rewrite Forall_forall in Hmin. by apply Hmin. }
    assert (total_weight K ≤ total_weight (filter (λ g, g ≠ e) (T1 ++ T2))) as HK.
    { apply IH; [done | intros; apply Hpos; by right | |].
      - intros g Hg. apply list_elem_of_filter in Hg as [Hne Hg].
        assert (g ∈ e :: es) as Hg' by (apply Hsub; revert Hg; elems).
        apply elem_of_cons in Hg' as [-> | Hg']; done.
      - intros g Hg. assert (g ∈ e :: es) as Hg' by (by right).
        specialize (Hspan g Hg'). apply conn_drop_edge.
        revert Hspan. apply conn_sub. intros a b Hab.
        destruct (decide ((a, b) = f.1)) as [Heq | Hne].
        + destruct f as [[??]?]; simpl in *. simplify_eq.
          by destruct e as [[??]?].
        + apply conn_edge. revert Hab. destruct f as [[??]?]; simpl in *.
          elems. }
    assert (total_weight (filter (λ g, g ≠ e) (T1 ++ T2)) ≤ total_weight (T1 ++ T2)).
    { apply total_weight_filter. intros g Hg. apply HposT. revert Hg. elems. }
    rewrite total_weight_app in *. simpl. lia.
Qed.
End greedy.

(** ** [sorted] by weight: a stable sort *)

Section sorting.
Implicit Types (e : Edge) (l : list Edge).

Lemma insert_by_weight_perm e l : insert_by_weight e l ≡ₚ e :: l.
Proof.
  induction l as [| e' l IH]; simpl; [done |].
  case_bool_decide; [done |]. rewrite IH. apply Permutation_swap.
Qed.

Lemma sorted_by_weight_perm l : sorted_by_weight l ≡ₚ l.
Proof.
  induction l as [| e l IH]; simpl; [done |].
  by rewrite insert_by_weight_perm, IH.
Qed.

Lemma insert_by_weight_sorted e l :
  StronglySorted weight_le l → StronglySorted weight_le (insert_by_weight e l).
Proof.
  induction 1 as [| e' l Hs IH Hall]; simpl.
  - repeat constructor.
  - case_bool_decide as Hle.
    + constructor; [by constructor |]. constructor; [done |].
      eapply Forall_impl; [done |]. unfold weight_le. intros; lia.
    + constructor; [done |]. rewrite insert_by_weight_perm.
      constructor; [unfold weight_le; lia | done].
Qed.

Lemma sorted_by_weight_sorted l : StronglySorted weight_le (sorted_by_weight l).
Proof.
  induction l as [| e l IH]; simpl; [constructor |].
  by apply insert_by_weight_sorted.
Qed.

(** Stability: edges of equal weight keep their relative order. *)
Lemma insert_by_weight_stable (w : Z) e l :
  filter (λ x, e_weight x = w) (insert_by_weight e l)
  = filter (λ x, e_weight x = w) (e :: l).
Proof.
  induction l as [| e' l IH]; simpl; [done |].
  case_bool_decide as Hle; [done |].
  rewrite filter_cons, IH, !filter_cons.
  repeat case_decide; try done; lia.
Qed.

Lemma sorted_by_weight_stable (w : Z) l :
  filter (λ x, e_weight x = w) (sorted_by_weight l)
  = filter (λ x, e_weight x = w) l.
Proof.
  induction l as [| e l IH]; simpl; [done |].
  by rewrite insert_by_weight_stable, !filter_cons, IH.
Qed.
End sorting.

(** ** Comparing numbers of components *)

Lemma rel_inj_length {A B} (R : A → B → Prop) (la : list A) (lb : list B) :
  NoDup la →
  (∀ a, a ∈ la → ∃ b, b ∈ lb ∧ R a b) →
  (∀ a1 a2 b, a1 ∈ la → a2 ∈ la → R a1 b → R a2 b → a1 = a2) →
  (length la ≤ length lb)%nat.
Proof.
  intros Hnd. revert lb.
  induction Hnd as [| a la Ha Hnd IH]; intros lb Htot Hinj; [simpl; lia |].
  destruct (Htot a) as (b & Hb & Hab); [by left |].
  apply elem_of_Permutation in Hb as [lb' Hlb].
  rewrite Hlb. simpl. apply le_n_S. apply IH.
  - intros a' Ha'. destruct (Htot a') as (b' & Hb' & Hab'); [by right |].
    exists b'. split; [| done]. rewrite Hlb in Hb'.
    apply elem_of_cons in Hb' as [-> | Hb']; [| done].
    assert (a' = a) as -> by (eapply Hinj; [by right | by left | done | done]).
    done.
  - intros a1 a2 b' H1 H2. apply Hinj; by right.
Qed.

Section nroots.
Implicit Types (l : list Z) (E : list (Z * Z)) (n : Z).

Lemma elem_of_roots l (i : nat) :
  i ∈ filter (λ i : nat, l !! i = Some (Z.of_nat i)) (seq 0 (length l))
  ↔ l !! i = Some (Z.of_nat i).
Proof.
  rewrite list_elem_of_filter, elem_of_seq. split; [tauto |].
  intros H. split; [done |]. apply lookup_lt_Some in H. lia.
Qed.

(** A coarser partition has no more classes. *)
Lemma nroots_mono n l l' E E' :
  uf_inv n l E → uf_inv n l' E' →
  (∀ x y, conn E' x y → conn E x y) →
  (nroots l ≤ nroots l')%nat.
Proof.
  intros Hinv Hinv' Hsub. unfold nroots.
  apply (rel_inj_length
           (λ i j : nat, ∃ d, root_of l' (Z.of_nat i) (Z.of_nat j) d)).
  - apply NoDup_filter, NoDup_seq.
  - intros i Hi. apply elem_of_roots in Hi.
    assert (0 ≤ Z.of_nat i ≤ n) as Hr.
    { apply lookup_lt_Some in Hi. rewrite (inv_len _ _ _ Hinv) in Hi.
      pose proof (inv_n _ _ _ Hinv). lia. }
    destruct (inv_root _ _ _ Hinv' _ Hr) as (r & d & Hrt & _).
    destruct (root_of_root _ _ _ _ Hrt) as [Hr0 Hrl].
    exists (Z.to_nat r). rewrite elem_of_roots, Z2Nat.id by done. eauto.
  - intros i1 i2 j Hi1 Hi2 [d1 H1] [d2 H2].
    apply elem_of_roots in Hi1, Hi2.
    assert (∀ i : nat, l !! i = Some (Z.of_nat i) → 0 ≤ Z.of_nat i ≤ n) as Hrange.
    { intros i Hi. apply lookup_lt_Some in Hi. rewrite (inv_len _ _ _ Hinv) in Hi.
      pose proof (inv_n _ _ _ Hinv). lia. }
    assert (same_root l (Z.of_nat i1) (Z.of_nat i2)) as Hs.
    { apply (inv_conn _ _ _ Hinv); [by apply Hrange | by apply Hrange |].
      apply Hsub. apply (inv_conn _ _ _ Hinv'); [by apply Hrange | by apply Hrange |].
      by exists (Z.of_nat j), d1, d2. }
    assert (root_of l (Z.of_nat i1) (Z.of_nat i1) O) as Hr1
      by (constructor; [lia | by rewrite Nat2Z.id]).
    assert (root_of l (Z.of_nat i2) (Z.of_nat i2) O) as Hr2
      by (constructor; [lia | by rewrite Nat2Z.id]).
    apply (same_root_iff _ _ _ _ _ _ _ Hr1 Hr2) in Hs. lia.
Qed.

Lemma nroots_conn_ext n l l' E E' :
  uf_inv n l E → uf_inv n l' E' →
  (∀ x y, conn E x y ↔ conn E' x y) →
  nroots l = nroots l'.
Proof.
  intros Hinv Hinv' Heq. apply Nat.le_antisymm.
  - eapply nroots_mono; [done | done |]. intros; by apply Heq.
  - eapply nroots_mono; [done | done |]. intros; by apply Heq.
Qed.
End nroots.

(** ** Edge lists as disjoint-sets: counting edges against components *)

Section forests.
Implicit Types (l : list Z) (E : list (Z * Z)) (n : Z).

Lemma acyclic_tail p E : acyclic (p :: E) → acyclic E.
Proof.
  intros Hac E1 a b E2 -> Hc. apply (Hac (p :: E1) a b E2); [done |].
  eapply conn_mono; [| done]. intros q Hq. by right.
Qed.

Lemma acyclic_head a b E : acyclic ((a, b) :: E) → ¬ conn E a b.
Proof. intros Hac. by apply (Hac [] a b E). Qed.

(** Any edge list over [0..n] is the history of some disjoint-set; it
    has at least [n + 1 - |E|] roots, and exactly so many when [E] has
    no cycle. *)
Lemma uf_build n E :
  0 ≤ n → (∀ a b, (a, b) ∈ E → 0 ≤ a ≤ n ∧ 0 ≤ b ≤ n) →
  ∃ l, uf_inv n l E
     ∧ (Z.to_nat (n + 1) ≤ nroots l + length E)%nat
     ∧ (acyclic E → Z.to_nat (n + 1) = (nroots l + length E)%nat).
Proof.
  intros Hn. induction E as [| [a b] E IH]; intros Hids.
  - exists (fa (UnionFindSet_init n)). rewrite init_nroots. simpl.
    split; [by apply uf_inv_init | split; [lia | intros; lia]].
  - destruct IH as (l & Hinv & Hle & Heq); [intros; apply Hids; by right |].
    assert (0 ≤ a ≤ n ∧ 0 ≤ b ≤ n) as [Ha Hb] by (apply Hids; left).
    destruct (inv_root _ _ _ Hinv a Ha) as (ra & da & Hra & _).
    destruct (inv_root _ _ _ Hinv b Hb) as (rb & db & Hrb & _).
    destruct (decide (ra = rb)) as [-> | Hne].
    + assert (conn E a b) as Hc.
      { apply (inv_conn _ _ _ Hinv); [done | done |]. by exists rb, da, db. }
      exists l. split; [by apply uf_inv_redundant |]. simpl. split; [lia |].
      intros Hac. by apply acyclic_head in Hac.
    + destruct (uf_inv_link _ _ _ _ _ _ _ _ _ Hinv Ha Hb Hra Hrb Hne) as [Hinv' Hnr].
      exists (<[Z.to_nat rb := ra]> l). split; [done |]. simpl. split; [lia |].
      intros Hac. apply acyclic_tail in Hac. specialize (Heq Hac). lia.
Qed.

(** Connecting the same vertices with fewer edges is impossible for an
    edge list of maximal effect, so such a list has no cycle. *)
Lemma tight_acyclic n l E :
  uf_inv n l E → (∀ a b, (a, b) ∈ E → 0 ≤ a ≤ n ∧ 0 ≤ b ≤ n) →
  Z.to_nat (n + 1) = (nroots l + length E)%nat → acyclic E.
Proof.
  intros Hinv Hids Htight E1 a b E2 -> Hc.
  destruct (uf_build n (E1 ++ E2) (inv_n _ _ _ Hinv)) as (l' & Hinv' & Hle & _).
  { intros x y Hxy. apply Hids. revert Hxy. elems. }
  assert (nroots l = nroots l') as Hnr.
  { eapply nroots_conn_ext; [done | done |]. intros x y. split.
    - apply conn_sub. intros x' y' Hxy.
      apply elem_of_app in Hxy as [Hxy | Hxy];
        [apply conn_edge; elems |].
      apply elem_of_cons in Hxy as [Heq | Hxy]; [by simplify_eq |].
      apply conn_edge; elems.
    - apply conn_mono. intros p. elems. }
  rewrite !length_app in *. simpl in *. lia.
Qed.
End forests.

(** ** One run of [Kruskal] *)

Section Kruskal_run.
Implicit Types (l : list Z) (P : list (Z * Z)) (K : list Edge) (t : Topo) (n : Z).

Lemma ids_in_sorted n t :
  ids_in n (edges t).*1 →
  ∀ e, e ∈ sorted_by_weight (edges t) → 0 ≤ e.1.1 ≤ n ∧ 0 ≤ e.1.2 ≤ n.
Proof.
  intros Hids e He. rewrite sorted_by_weight_perm in He.
  destruct e as [[u v] d]. simpl.
  destruct (Hids u v) as [??]; [| lia].
  apply list_elem_of_fmap. by exists (u, v, d).
Qed.

Lemma with_set_eta t : with_set (set t) t = t.
Proof. by destruct t. Qed.

Lemma on_set_state {A} (m : M UnionFindSet A) t :
  ∃ s', (on_set m t).2 = with_set s' t.
Proof.
  unfold on_set. destruct (set t) as [s |] eqn:Hs.
  - destruct (m s) as [o s']. by exists (Some s').
  - exists None. simpl. by rewrite <- Hs, with_set_eta.
Qed.

(** The loop touches the disjoint-set and nothing else of the topology. *)
Lemma Kruskal_loop_state fuel es :
  ∀ acc t, ∃ s', (Kruskal_loop fuel es acc t).2 = with_set s' t.
Proof.
  induction es as [| e es IH]; intros acc t.
  - exists (set t). simpl. by rewrite with_set_eta.
  - cbn [Kruskal_loop]. unfold mbind, M_bind, bind.
    destruct (on_set_state (find fuel e.1.1) t) as [s1 H1].
    destruct (on_set (find fuel e.1.1) t) as [[a | ex] t1]; simpl in H1; subst t1;
      [| by exists s1].
    destruct (on_set_state (find fuel e.1.2) (with_set s1 t)) as [s2 H2].
    destruct (on_set (find fuel e.1.2) (with_set s1 t)) as [[b | ex] t2];
      simpl in H2; subst t2; [| by exists s2].
    case_bool_decide.
    + destruct (on_set_state (union fuel e.1.1 e.1.2) (with_set s2 (with_set s1 t)))
        as [s3 H3].
      destruct (on_set (union fuel e.1.1 e.1.2) (with_set s2 (with_set s1 t)))
        as [[[] | ex] t3]; simpl in H3; subst t3; [| by exists s3].
      destruct (IH (acc ++ [(e.1.1, e.1.2)])
                  (with_set s3 (with_set s2 (with_set s1 t)))) as [s' H'].
      exists s'. by rewrite H'.
    + destruct (IH acc (with_set s2 (with_set s1 t))) as [s' H'].
      exists s'. by rewrite H'.
Qed.

(** [Kruskal] is its loop over the sorted edges, then [draw_tree] with
    the list the loop has built, then the return of that list.  An
    exception in the loop leaves the figure alone; [NetworkXError] in
    [draw_tree] comes after the figure is cleared and titled. *)
Lemma Kruskal_unfold fuel t log :
  Kruskal fuel (t, log)
  = match Kruskal_loop fuel (sorted_by_weight (edges t)) [] t with
    | (Ret tree, t') => Kruskal_ends tree t' log
    | (Raise ex, t') => (Raise ex, (t', log))
    end.
Proof.
  unfold Kruskal, Kruskal_ends, mbind, M_bind, bind, get_state, quiet, focus.
  simpl.
  destruct (Kruskal_loop fuel (sorted_by_weight (edges t)) [] t)
    as [[tree | ex] t']; [| done].
  unfold draw_tree, nx_draw, mbind, M_bind, bind, get_state, emit, ret, raise.
  simpl. unfold tree_drawn, tree_not_drawn.
  case_bool_decide; simpl; by rewrite <- !app_assoc.
Qed.

Lemma Kruskal_ends_with_set tree s t log :
  Kruskal_ends tree (with_set s t) log
  = if bool_decide (has_positions t)
    then (Ret tree, (with_set s t, log ++ tree_drawn tree))
    else (Raise NetworkXError, (with_set s t, log ++ tree_not_drawn)).
Proof. done. Qed.

(** From a disjoint-set that satisfies the invariant, the loop of
    [Kruskal] builds the greedy choice over the sorted edges and leaves a
    disjoint-set in which the chosen edges are joined; [Kruskal] ends
    with that list. *)
Lemma Kruskal_run_from n fuel t log l sz P :
  set t = Some (mkUnionFindSet l sz) → uf_inv n l P →
  ids_in n (edges t).*1 → (length l ≤ fuel)%nat →
  ∃ K l',
    Kruskal_loop fuel (sorted_by_weight (edges t)) [] t
    = (Ret K.*1, with_set (Some (mkUnionFindSet l' sz)) t)
    ∧ Kruskal fuel (t, log)
      = Kruskal_ends K.*1 (with_set (Some (mkUnionFindSet l' sz)) t) log
    ∧ greedy P (sorted_by_weight (edges t)) K
    ∧ uf_inv n l' (K.*1 ++ P)
    ∧ nroots l = (nroots l' + length K)%nat.
Proof.
  intros Hset Hinv Hids Hfuel.
  destruct (Kruskal_loop_greedy n fuel (sorted_by_weight (edges t)) l sz P [] t
              Hset Hinv (ids_in_sorted _ _ Hids) Hfuel)
    as (K & l' & Hloop & Hg & Hinv' & Hnr).
  exists K, l'. split; [done |]. split; [| done].
  by rewrite Kruskal_unfold, Hloop.
Qed.

Lemma Kruskal_run n fuel t log :
  0 ≤ n → set t = Some (UnionFindSet_init n) →
  ids_in n (edges t).*1 → (Z.to_nat (n + 1) ≤ fuel)%nat →
  ∃ K l',
    Kruskal_loop fuel (sorted_by_weight (edges t)) [] t
    = (Ret K.*1, with_set (Some (mkUnionFindSet l' n)) t)
    ∧ Kruskal fuel (t, log)
      = Kruskal_ends K.*1 (with_set (Some (mkUnionFindSet l' n)) t) log
    ∧ greedy [] (sorted_by_weight (edges t)) K
    ∧ uf_inv n l' K.*1
    ∧ Z.to_nat (n + 1) = (nroots l' + length K)%nat.
Proof.
  intros Hn Hset Hids Hfuel.
  destruct (Kruskal_run_from n fuel t log (fa (UnionFindSet_init n)) n [])
    as (K & l' & Hloop & HK & Hg & Hinv & Hnr);
    [done | by apply uf_inv_init | done | by rewrite init_length |].
  rewrite app_nil_r in Hinv. rewrite init_nroots in Hnr. by exists K, l'.
Qed.

Lemma greedy_conn_edges t K x y :
  greedy [] (sorted_by_weight (edges t)) K →
  conn (edges t).*1 x y ↔ conn K.*1 x y.
Proof.
  intros Hg. pose proof (greedy_span _ _ _ Hg x y) as Hspan.
  rewrite !app_nil_r in Hspan. rewrite <- Hspan.
  apply conn_same_elements. intros p.
  by rewrite (sorted_by_weight_perm (edges t)).
Qed.

Lemma greedy_subseteq t K :
  greedy [] (sorted_by_weight (edges t)) K → K ⊆ edges t.
Proof.
  intros Hg e He. apply greedy_sublist in Hg.
  rewrite <- (sorted_by_weight_perm (edges t)).
  by eapply sublist_subseteq.
Qed.
End Kruskal_run.

(** ** Roots and connected components *)

Section components.
Implicit Types (l : list Z) (E : list (Z * Z)) (n : Z) (reps : list Z).

Lemma root_range n l E (i : nat) :
  uf_inv n l E → l !! i = Some (Z.of_nat i) → 0 ≤ Z.of_nat i ≤ n.
Proof.
  intros Hinv Hi. apply lookup_lt_Some in Hi.
  rewrite (inv_len _ _ _ Hinv) in Hi. pose proof (inv_n _ _ _ Hinv). lia.
Qed.

Lemma roots_conn_eq n l E (i j : nat) :
  uf_inv n l E → l !! i = Some (Z.of_nat i) → l !! j = Some (Z.of_nat j) →
  conn E (Z.of_nat i) (Z.of_nat j) → i = j.
Proof.
  intros Hinv Hi Hj Hc.
  apply (inv_conn _ _ _ Hinv) in Hc; [| by eapply root_range ..].
  assert (root_of l (Z.of_nat i) (Z.of_nat i) O) as Hri
    by (constructor; [lia | by rewrite Nat2Z.id]).
  assert (root_of l (Z.of_nat j) (Z.of_nat j) O) as Hrj
    by (constructor; [lia | by rewrite Nat2Z.id]).
  apply (same_root_iff _ _ _ _ _ _ _ Hri Hrj) in Hc. lia.
Qed.

Lemma conn_root n l E x r d :
  uf_inv n l E → 0 ≤ x ≤ n → root_of l x r d → conn E x r.
Proof.
  intros Hinv Hx Hr. destruct (root_of_root _ _ _ _ Hr) as [Hr0 Hrl].
  apply (inv_conn _ _ _ Hinv); [done | |].
  - rewrite <- (Z2Nat.id r) by done. eapply root_range; [done |].
    by rewrite Z2Nat.id.
  - exists r, d, O. split; [done | by constructor].
Qed.

(** A disjoint-set over [0..n] whose history touches only [1..n] has
    one root per component, and slot 0. *)
Lemma nroots_components n l E reps :
  uf_inv n l E → ids_in n E → components n E reps →
  nroots l = S (length reps).
Proof.
  intros Hinv Hids (Hnd & Hrange & Hsep & Hcover).
  pose proof (inv_n _ _ _ Hinv) as Hn.
  assert (∀ c, conn E 0 c → c = 0) as Hzero.
  { intros c Hc. destruct (conn_ids_in _ _ _ _ Hids Hc) as [? | [??]]; lia. }
  change (S (length reps)) with (length (0 :: reps)).
  apply Nat.le_antisymm; unfold nroots.
  - apply (rel_inj_length (λ (i : nat) c, conn E (Z.of_nat i) c)).
    + apply NoDup_filter, NoDup_seq.
    + intros i Hi. apply elem_of_roots in Hi.
      pose proof (root_range _ _ _ _ Hinv Hi) as Hr.
      destruct (decide (i = O)) as [-> | Hne].
      * exists 0. split; [left | done].
      * destruct (Hcover (Z.of_nat i)) as (c & Hc & Hic); [lia |].
        exists c. split; [by right | done].
    + intros i1 i2 c Hi1 Hi2 H1 H2. apply elem_of_roots in Hi1, Hi2.
      eapply roots_conn_eq; [done | done | done |].
      trans c; [done | by symmetry].
  - apply (rel_inj_length (λ c (j : nat), ∃ d, root_of l c (Z.of_nat j) d)).
    + constructor; [| done]. intros H0. apply Hrange in H0. lia.
    + intros c Hc.
      assert (0 ≤ c ≤ n) as Hcr.
      { apply elem_of_cons in Hc as [-> | Hc]; [lia |]. apply Hrange in Hc. lia. }
      destruct (inv_root _ _ _ Hinv c Hcr) as (r & d & Hr & _).
      destruct (root_of_root _ _ _ _ Hr) as [Hr0 Hrl].
      exists (Z.to_nat r). rewrite elem_of_roots, Z2Nat.id by done. eauto.
    + intros c1 c2 j Hc1 Hc2 [d1 H1] [d2 H2].
      assert (∀ c, c ∈ 0 :: reps → 0 ≤ c ≤ n) as Hcr.
      { intros c Hc. apply elem_of_cons in Hc as [-> | Hc]; [lia |].
        apply Hrange in Hc. lia. }
      assert (conn E c1 c2) as Hc.
      { trans (Z.of_nat j); [| symmetry]; eapply conn_root; eauto. }
      apply elem_of_cons in Hc1 as [-> | Hc1].
      * symmetry. by apply Hzero.
      * apply elem_of_cons in Hc2 as [-> | Hc2].
        -- apply Hzero. by symmetry.
        -- by apply Hsep.
Qed.
End components.

(** ** Weights of any sign

    Spanning forests of one graph have the same number of edges, so
    raising every weight by a constant reduces the general case to
    weights that are not negative. *)

Section shift.
Implicit Types (P : list (Z * Z)) (es K T : list Edge) (c : Z).

Lemma shift_fst c T : (shift c <$> T).*1 = T.*1.
Proof. rewrite <- list_fmap_compose. by apply list_fmap_ext. Qed.

Lemma greedy_shift c P es K :
  greedy P es K → greedy P (shift c <$> es) (shift c <$> K).
Proof. induction 1; rewrite ?fmap_cons; by constructor. Qed.

Lemma sorted_shift c es :
  StronglySorted weight_le es → StronglySorted weight_le (shift c <$> es).
Proof.
  induction 1 as [| e es Hs IH Hall]; rewrite ?fmap_cons; constructor; [done |].
  apply Forall_fmap. eapply Forall_impl; [done |].
  unfold weight_le, e_weight. simpl. intros; lia.
Qed.

Lemma total_weight_shift c T :
  total_weight (shift c <$> T) = total_weight T + c * Z.of_nat (length T).
Proof.
  induction T as [| e T IH]; [simpl; lia |].
  rewrite fmap_cons. simpl. unfold e_weight in *. simpl. lia.
Qed.

Lemma slack_spec es :
  0 ≤ slack es ∧ ∀ e, e ∈ es → 0 ≤ e_weight e + slack es.
Proof.
  induction es as [| a es [IH0 IH]]; simpl.
  - split; [done |]. intros e He. by apply elem_of_nil in He.
  - split; [lia |]. intros e He.
    apply elem_of_cons in He as [-> | He]; [lia |]. specialize (IH e He). lia.
Qed.

(** Among the spanning edge sets with as many edges as the greedy choice,
    none is lighter, whatever the sign of the weights. *)
Lemma greedy_minimal_any_sign P es K T :
  greedy P es K →
  StronglySorted weight_le es →
  T ⊆ es →
  (∀ e, e ∈ es → conn (T.*1 ++ P) e.1.1 e.1.2) →
  length T = length K →
  total_weight K ≤ total_weight T.
Proof.
  intros Hg Hsorted Hsub Hspan Hlen.
  destruct (slack_spec es) as [Hc0 Hc].
  pose proof (greedy_minimal P (shift (slack es) <$> es) (shift (slack es) <$> K)
                (greedy_shift _ _ _ _ Hg) (sorted_shift _ _ Hsorted)) as Hmin.
  specialize (Hmin ltac:(intros e He; apply list_elem_of_fmap in He as (e' & -> & He');
                         apply Hc in He'; unfold e_weight in *; simpl; lia)).
  specialize (Hmin (shift (slack es) <$> T)).
  rewrite !total_weight_shift, shift_fst, Hlen in Hmin.
  cut (total_weight K + slack es * Z.of_nat (length K)
       ≤ total_weight T + slack es * Z.of_nat (length K)); [lia |].
  apply Hmin.
  - intros e He. apply list_elem_of_fmap in He as (e' & -> & He').
    apply list_elem_of_fmap. exists e'. split; [done | by apply Hsub].
  - intros e He. apply list_elem_of_fmap in He as (e' & -> & He').
    by apply (Hspan e').
Qed.
End shift.

(** ** Looking up edges of a well-formed graph *)

Section lookup.
Implicit Types (t : Topo) (K : list Edge).

Lemma od_get_elem {V} (d : list (Z * V)) k v :
  NoDup d.*1 → (k, v) ∈ d → od_get k d = Some v.
Proof.
  induction d as [| [k' v'] d IH]; intros Hnd Hin; [by apply elem_of_nil in Hin |].
  rewrite fmap_cons in Hnd. apply NoDup_cons in Hnd as [Hk' Hnd]. simpl.
  apply elem_of_cons in Hin as [Heq | Hin].
  - simplify_eq. by rewrite bool_decide_eq_true_2.
  - rewrite bool_decide_eq_false_2; [by apply IH |].
    intros ->. apply Hk'. apply list_elem_of_fmap. by exists (k, v).
Qed.

Lemma elem_of_edges t u v d :
  (u, v, d) ∈ edges t ↔ ∃ nbrs, (u, nbrs) ∈ _adj t ∧ (v, d) ∈ nbrs.
Proof.
  unfold edges. rewrite list_elem_of_bind. split.
  - intros ([n nbrs] & Hin & Hadj). apply list_elem_of_bind in Hin as ([nbr d'] & Hin & Hnbr).
    apply list_elem_of_singleton in Hin. simplify_eq. eauto.
  - intros (nbrs & Hadj & Hin). exists (u, nbrs). split; [| done].
    apply list_elem_of_bind. exists (v, d). split; [| done]. by apply list_elem_of_singleton.
Qed.

Lemma edge_data_edges t u v d :
  topo_wf t → (u, v, d) ∈ edges t → edge_data u v t = Some d.
Proof.
  intros [Hnd Hnbrs] Hin. apply elem_of_edges in Hin as (nbrs & Hadj & Hin).
  unfold edge_data. rewrite (od_get_elem _ _ _ Hnd Hadj). simpl.
  apply od_get_elem; [by eapply Hnbrs | done].
Qed.

Lemma tree_weight_total t K :
  topo_wf t → K ⊆ edges t → tree_weight t K.*1 = total_weight K.
Proof.
  intros Hwf. induction K as [| [[u v] d] K IH]; intros Hsub; [done |].
  rewrite fmap_cons. simpl. rewrite IH by (intros e He; apply Hsub; by right).
  rewrite (edge_data_edges t u v d Hwf) by (apply Hsub; left). done.
Qed.
End lookup.

(** ** Deciding the hypotheses on a concrete topology *)

Lemma ids_in_Forall n (E : list (Z * Z)) :
  Forall (λ p, (1 ≤ p.1 ≤ n) ∧ (1 ≤ p.2 ≤ n)) E → ids_in n E.
Proof. intros H u v Huv. rewrite Forall_forall in H. by apply (H (u, v)). Qed.

Lemma topo_wf_Forall t :
  NoDup (_adj t).*1 → Forall (λ p, NoDup p.2.*1) (_adj t) → topo_wf t.
Proof.
  intros Hnd H. split; [done |]. intros n nbrs Hin.
  rewrite Forall_forall in H. by apply (H (n, nbrs)).
Qed.

(** * The MST engine *)

Section Kruskal_correct.
Implicit Types (t : Topo) (n : Z) (fuel : nat) (log : list Effect).

(** C3 (as amended: the weight of scenario A is 7, see the witness).
    For every well-formed topology whose edges join switches of [1..n],
    with a freshly initialised disjoint-set of count [n], the loop of
    [Kruskal] ends, and the tree edge list it has built is a minimum
    spanning forest: its edges are edges of the graph, connect whatever
    the graph connects and hold no cycle, and its total weight is not
    above the total weight of any spanning forest of the graph.
    [Kruskal] hands this list to [draw_tree] and returns it when
    [draw_tree] returns, that is when every node has a position in the
    layout; otherwise the call ends in [NetworkXError]. *)
Theorem Kruskal_minimum_spanning_forest n fuel t log :
  0 ≤ n → topo_wf t → set t = Some (UnionFindSet_init n) →
  ids_in n (edges t).*1 → (Z.to_nat (n + 1) ≤ fuel)%nat →
  ∃ tree t',
    Kruskal_loop fuel (sorted_by_weight (edges t)) [] t = (Ret tree, t')
    ∧ Kruskal fuel (t, log)
      = (if bool_decide (has_positions t)
         then (Ret tree, (t', log ++ tree_drawn tree))
         else (Raise NetworkXError, (t', log ++ tree_not_drawn)))
    ∧ minimum_spanning_forest t tree.
Proof.
  intros Hn Hwf Hset Hids Hfuel.
  destruct (Kruskal_run n fuel t log Hn Hset Hids Hfuel)
    as (K & l' & Hloop & HK & Hg & Hinv & Hnr).
  pose proof (greedy_subseteq _ _ Hg) as Hsub.
  pose proof (tree_weight_total _ _ Hwf Hsub) as Hw.
  assert (∀ a b, (a, b) ∈ K.*1 → 0 ≤ a ≤ n ∧ 0 ≤ b ≤ n) as HidsK.
  { intros a b Hab. apply list_elem_of_fmap in Hab as (e & He & Hin).
    destruct (Hids a b) as [??]; [| lia].
    apply list_elem_of_fmap. exists e. split; [done | by apply Hsub]. }
  eexists _, _. split; [done |]. split; [done |]. split.
  - exists K. split; [done |]. split; [| done]. split; [done |]. split.
    + intros x y. by apply greedy_conn_edges.
    + eapply tight_acyclic; [done | done |]. by rewrite length_fmap.
  - intros T (HT & Hspan & Hac). rewrite Hw.
    assert (∀ x y, conn T.*1 x y ↔ conn K.*1 x y) as Hsame.
    { intros x y. rewrite <- (greedy_conn_edges t K x y Hg). split; [| apply Hspan].
      apply conn_mono. intros p Hp. apply list_elem_of_fmap in Hp as (e & -> & He).
      apply list_elem_of_fmap. exists e. split; [done | by apply HT]. }
    destruct (uf_build n T.*1 Hn) as (lT & HinvT & _ & HeqT).
    { intros a b Hab. apply list_elem_of_fmap in Hab as (e & He & Hin).
      destruct (Hids a b) as [??]; [| lia].
      apply list_elem_of_fmap. exists e. split; [done | by apply HT]. }
    specialize (HeqT Hac). rewrite length_fmap in HeqT.
    pose proof (nroots_conn_ext _ _ _ _ _ HinvT Hinv Hsame) as Hroots.
    apply (greedy_minimal_any_sign [] (sorted_by_weight (edges t)));
      [done | apply sorted_by_weight_sorted | | | unfold Edge in *; lia].
    + intros e He. rewrite sorted_by_weight_perm. by apply HT.
    + intros e He. rewrite app_nil_r. apply Hspan. apply conn_edge.
      rewrite sorted_by_weight_perm in He.
      apply list_elem_of_fmap. exists e. by destruct e as [[??]?].
Qed.

(** C4.  For every topology whose edges join switches of [1..n], with a
    freshly initialised disjoint-set of count [n], the loop of [Kruskal]
    ends after all edges, and when the graph on [1..n] has the components
    represented by [reps], the list it has built has exactly
    [n - length reps] edges; that is never more than [n - 1].  What the
    caller gets is another matter: [Kruskal] returns the list only when
    every node has a position in the layout, and ends in [NetworkXError],
    raised by [nx.draw] within [draw_tree], otherwise. *)
Theorem Kruskal_tree_size n fuel t log reps :
  0 ≤ n → set t = Some (UnionFindSet_init n) →
  ids_in n (edges t).*1 → (Z.to_nat (n + 1) ≤ fuel)%nat →
  components n (edges t).*1 reps →
  ∃ tree t',
    Kruskal_loop fuel (sorted_by_weight (edges t)) [] t = (Ret tree, t')
    ∧ Kruskal fuel (t, log)
      = (if bool_decide (has_positions t)
         then (Ret tree, (t', log ++ tree_drawn tree))
         else (Raise NetworkXError, (t', log ++ tree_not_drawn)))
    ∧ Z.of_nat (length tree) = n - Z.of_nat (length reps)
    ∧ (1 ≤ n → Z.of_nat (length tree) ≤ n - 1).
Proof.
  intros Hn Hset Hids Hfuel Hcomp.
  destruct (Kruskal_run n fuel t log Hn Hset Hids Hfuel)
    as (K & l' & Hloop & HK & Hg & Hinv & Hnr).
  assert (components n K.*1 reps) as HcompK.
  { destruct Hcomp as (Hnd & Hrange & Hsep & Hcover).
    split; [done |]. split; [done |]. split.
    - intros c1 c2 H1 H2 Hc. apply Hsep; [done | done |].
      by apply (greedy_conn_edges t K).
    - intros x Hx. destruct (Hcover x Hx) as (c & Hc & Hxc).
      exists c. split; [done |]. by apply (greedy_conn_edges t K). }
  assert (ids_in n K.*1) as HidsK.
  { intros a b Hab. apply Hids.
    apply list_elem_of_fmap in Hab as (e & He & Hin).
    apply list_elem_of_fmap. exists e. split; [done |].
    by apply (greedy_subseteq t K). }
  pose proof (nroots_components _ _ _ _ Hinv HidsK HcompK) as Hroots.
  eexists _, _. split; [done |]. split; [done |].
  rewrite length_fmap. unfold Edge in *.
  split; [lia |].
  intros Hn1. destruct Hcomp as (_ & _ & _ & Hcover).
  destruct (Hcover 1) as (c & Hc & _); [lia |].
  destruct reps; [by apply elem_of_nil in Hc |]. simpl in *. lia.
Qed.
End Kruskal_correct.

(** *** Scenario A *)

Lemma scenario_A_wf : topo_wf scenario_A_topo.
Proof. apply topo_wf_Forall; apply (bool_decide_unpack _); by vm_compute. Qed.

Lemma scenario_A_ids : ids_in 4 (edges scenario_A_topo).*1.
Proof. apply ids_in_Forall. apply (bool_decide_unpack _). by vm_compute. Qed.

(** On scenario A the loop builds [(1,3), (2,3), (1,4)].  The rebuilt
    topology has the empty layout of [Topo()], so that [Kruskal] ends in
    [NetworkXError]; with a layout for the four switches it returns the
    list. *)
Lemma scenario_A_loop :
  Kruskal_loop 5 (sorted_by_weight (edges scenario_A_topo)) [] scenario_A_topo
  = (Ret [(1, 3); (2, 3); (1, 4)],
     with_set (Some {| fa := [0; 2; 2; 2; 2]; size := 4 |}) scenario_A_topo).
Proof. by vm_compute. Qed.

Lemma scenario_A_run :
  Kruskal 5 (scenario_A_topo, [])
  = (Raise NetworkXError,
     (with_set (Some {| fa := [0; 2; 2; 2; 2]; size := 4 |}) scenario_A_topo,
      tree_not_drawn)).
Proof. by vm_compute. Qed.

Lemma scenario_A_run_with_layout :
  Kruskal 5 (with_pos [1; 2; 3; 4] scenario_A_topo, [])
  = (Ret [(1, 3); (2, 3); (1, 4)],
     (with_set (Some {| fa := [0; 2; 2; 2; 2]; size := 4 |})
        (with_pos [1; 2; 3; 4] scenario_A_topo),
      tree_drawn [(1, 3); (2, 3); (1, 4)])).
Proof. by vm_compute. Qed.

Lemma scenario_A_connected : components 4 (edges scenario_A_topo).*1 [1].
Proof.
  split; [repeat constructor; by intros ?%elem_of_nil |].
  split; [intros c ->%list_elem_of_singleton; lia |].
  split; [intros c1 c2 ->%list_elem_of_singleton ->%list_elem_of_singleton; done |].
  intros x Hx. exists 1. split; [by left |].
  assert (x = 1 ∨ x = 2 ∨ x = 3 ∨ x = 4) as Hcases by lia.
  destruct Hcases as [-> | [-> | [-> | ->]]]; [done | | |];
    apply conn_edge; apply (bool_decide_unpack _); by vm_compute.
Qed.

(** The tree of scenario A is [(1,3), (2,3), (1,4)], of total weight 7,
    and it is a minimum spanning forest of the mesh. *)
Lemma Kruskal_minimum_spanning_forest_witness :
  (Kruskal_loop 5 (sorted_by_weight (edges scenario_A_topo)) [] scenario_A_topo).1
  = Ret [(1, 3); (2, 3); (1, 4)]
  ∧ (Kruskal 5 (scenario_A_topo, [])).1 = Raise NetworkXError
  ∧ tree_weight scenario_A_topo [(1, 3); (2, 3); (1, 4)] = 7
  ∧ minimum_spanning_forest scenario_A_topo [(1, 3); (2, 3); (1, 4)].
Proof.
  destruct (Kruskal_minimum_spanning_forest 4 5 scenario_A_topo [])
    as (tree & t' & Hloop & Hrun & Hmsf).
  - lia.
  - exact scenario_A_wf.
  - reflexivity.
  - exact scenario_A_ids.
  - simpl. lia.
  - rewrite scenario_A_loop in Hloop. injection Hloop as <- _.
    split; [by rewrite scenario_A_loop |].
    split; [by rewrite scenario_A_run |].
    split; [reflexivity | exact Hmsf].
Defined.

(** C3, the claim as stated fails on its own scenario: the tree that
    [Kruskal] builds for the 4-switch mesh, and returns when the layout
    lets it, weighs 7, not 6. *)
Lemma scenario_A_weight_is_not_6 :
  (Kruskal_loop 5 (sorted_by_weight (edges scenario_A_topo)) [] scenario_A_topo).1
  = Ret [(1, 3); (2, 3); (1, 4)]
  ∧ (Kruskal 5 (with_pos [1; 2; 3; 4] scenario_A_topo, [])).1
    = Ret [(1, 3); (2, 3); (1, 4)]
  ∧ tree_weight scenario_A_topo [(1, 3); (2, 3); (1, 4)] = 7
  ∧ tree_weight scenario_A_topo [(1, 3); (2, 3); (1, 4)] ≠ 6.
Proof.
  rewrite scenario_A_loop, scenario_A_run_with_layout.
  split; [done |]. split; [done |]. split; [reflexivity | by vm_compute].
Qed.

(** Scenario B, the topology after the rebuild: switches 1 and 2 joined
    by one link. *)
Lemma scenario_B_ids : ids_in 2 (edges (topo scenario_B.1)).*1.
Proof. apply ids_in_Forall. apply (bool_decide_unpack _). by vm_compute. Qed.

Lemma scenario_B_connected : components 2 (edges (topo scenario_B.1)).*1 [1].
Proof.
  split; [repeat constructor; by intros ?%elem_of_nil |].
  split; [intros c ->%list_elem_of_singleton; lia |].
  split; [intros c1 c2 ->%list_elem_of_singleton ->%list_elem_of_singleton; done |].
  intros x Hx. exists 1. split; [by left |].
  assert (x = 1 ∨ x = 2) as Hcases by lia.
  destruct Hcases as [-> | ->]; [done |].
  apply conn_edge; apply (bool_decide_unpack _); by vm_compute.
Qed.

(** On scenario B the loop builds the one edge of the tree; the caller
    of [Kruskal] gets [NetworkXError]. *)
Lemma scenario_B_loop :
  Kruskal_loop 3 (sorted_by_weight (edges (topo scenario_B.1))) [] (topo scenario_B.1)
  = (Ret [(1, 2)],
     with_set (Some {| fa := [0; 1; 1]; size := 2 |}) (topo scenario_B.1)).
Proof. by vm_compute. Qed.

Lemma scenario_B_Kruskal_raises :
  Kruskal 3 (topo scenario_B.1, [])
  = (Raise NetworkXError,
     (with_set (Some {| fa := [0; 1; 1]; size := 2 |}) (topo scenario_B.1),
      tree_not_drawn)).
Proof. by vm_compute. Qed.

(** C4 on scenario B, two switches in one component: the loop builds a
    list of 2 - 1 edges, and the caller gets [NetworkXError]. *)
Lemma Kruskal_tree_size_witness :
  (Kruskal_loop 3 (sorted_by_weight (edges (topo scenario_B.1))) []
     (topo scenario_B.1)).1 = Ret [(1, 2)]
  ∧ (Kruskal 3 (topo scenario_B.1, [])).1 = Raise NetworkXError
  ∧ Z.of_nat (length [(1, 2)]) = 2 - Z.of_nat (length [1]).
Proof.
  destruct (Kruskal_tree_size 2 3 (topo scenario_B.1) [] [1])
    as (tree & t' & Hloop & Hrun & Hlen & _).
  - lia.
  - reflexivity.
  - exact scenario_B_ids.
  - simpl. lia.
  - exact scenario_B_connected.
  - rewrite scenario_B_loop in Hloop. injection Hloop as <- _.
    split; [by rewrite scenario_B_loop |].
    split; [by rewrite scenario_B_Kruskal_raises |]. exact Hlen.
Defined.

(** * The disjoint-set *)

Section UnionFindSet_correct.
Implicit Types (l : list Z) (s : UnionFindSet) (n x y r : Z) (fuel : nat).

Lemma fa_getitem_inv x s o s' :
  fa_getitem x s = (o, s') → s' = s.
Proof.
  unfold fa_getitem. repeat case_match; by intros [= _ <-].
Qed.

(** What [find] returns is what slot [x] holds afterwards. *)
Lemma find_result_lookup fuel x s r s' :
  find fuel x s = (Ret r, s') → fa_getitem x s' = (Ret r, s').
Proof.
  destruct fuel as [| fuel]; [done |].
  rewrite find_S. unfold mbind, M_bind, bind at 1.
  destruct (fa_getitem x s) as [[p | e] s0]; [| done].
  unfold bind at 1.
  destruct (_ s0) as [[[] | e] s1]; [| done].
  intros H. by pose proof (fa_getitem_inv _ _ _ _ H) as ->.
Qed.

Lemma find_on_root l sz r fuel :
  0 ≤ r → l !! Z.to_nat r = Some r → (0 < fuel)%nat →
  find fuel r (mkUnionFindSet l sz) = (Ret r, mkUnionFindSet l sz).
Proof.
  intros Hr Hl Hfuel. destruct fuel as [| fuel]; [lia |].
  rewrite find_S. unfold mbind, M_bind, bind.
  rewrite (fa_getitem_Some _ _ _ r) by done.
  rewrite bool_decide_eq_false_2 by (intros ?; done).
  unfold ret. by rewrite (fa_getitem_Some _ _ _ r).
Qed.

(** Once [x] points at its root, [find x] changes nothing. *)
Lemma find_on_child l sz x r fuel :
  0 ≤ x → l !! Z.to_nat x = Some r → 0 ≤ r → l !! Z.to_nat r = Some r →
  (1 < fuel)%nat →
  find fuel x (mkUnionFindSet l sz) = (Ret r, mkUnionFindSet l sz).
Proof.
  intros Hx Hlx Hr Hlr Hfuel.
  destruct (decide (r = x)) as [-> | Hne]; [apply find_on_root; [done | done | lia] |].
  destruct fuel as [| fuel]; [lia |].
  rewrite find_S. unfold mbind, M_bind, bind.
  rewrite (fa_getitem_Some _ _ _ r) by done.
  rewrite bool_decide_eq_true_2 by done.
  rewrite (fa_getitem_Some _ _ _ r) by done.
  rewrite find_on_root by (done || lia).
  rewrite fa_setitem_Some by (done || by eapply lookup_lt_Some).
  rewrite list_insert_id by done.
  by rewrite (fa_getitem_Some _ _ _ r).
Qed.

Lemma fa_getitem_lookup l sz x r :
  0 ≤ x → (Z.to_nat x < length l)%nat →
  fa_getitem x (mkUnionFindSet l sz) = (Ret r, mkUnionFindSet l sz) →
  l !! Z.to_nat x = Some r.
Proof.
  intros Hx Hlt. unfold fa_getitem. simpl. rewrite py_index_nonneg by done.
  destruct (l !! Z.to_nat x); [by intros [= ->] | done].
Qed.

Lemma unioned_cons_find x ops : unioned (op_find x :: ops) = unioned ops.
Proof. done. Qed.

Lemma unioned_cons_union x y ops :
  unioned (op_union x y :: ops) = (x, y) :: unioned ops.
Proof. done. Qed.

(** A history keeps the invariant, for the pairs it has unioned. *)
Lemma run_ops_inv n fuel ops :
  ∀ l sz E,
    uf_inv n l E → op_ids_in n ops → (length l ≤ fuel)%nat →
    ∃ l', for_each (run_op fuel) ops (mkUnionFindSet l sz)
          = (Ret tt, mkUnionFindSet l' sz)
        ∧ uf_inv n l' (unioned ops ++ E).
Proof.
  induction ops as [| o ops IH]; intros l sz E Hinv Hids Hfuel.
  - by exists l.
  - assert (op_ids_in n ops) as Hids' by (intros o' Ho'; apply Hids; by right).
    pose proof (Hids o ltac:(left)) as Ho.
    destruct o as [x | x y]; cbn [for_each run_op]; unfold mbind, M_bind, bind.
    + destruct (find_inv n l sz E x fuel Hinv ltac:(lia) Hfuel)
        as (r & d & l1 & Hr & Hf & Hc).
      rewrite Hf. unfold ret.
      pose proof (uf_inv_compressed _ _ _ _ Hinv Hc) as Hinv1.
      destruct (IH l1 sz E Hinv1 Hids') as (l' & Hrun & Hinv');
        [destruct Hc as [-> _]; done |].
      exists l'. by rewrite unioned_cons_find.
    + destruct (union_inv n l sz E x y fuel Hinv ltac:(lia) ltac:(lia) Hfuel)
        as (l1 & Hun & Hinv1 & _).
      rewrite Hun.
      destruct (IH l1 sz ((x, y) :: E) Hinv1 Hids') as (l' & Hrun & Hinv').
      { rewrite (inv_len _ _ _ Hinv1), <- (inv_len _ _ _ Hinv). done. }
      exists l'. split; [done |]. rewrite unioned_cons_union.
      eapply uf_inv_ext; [done |]. intros a b. apply conn_same_elements.
      intros p. elems.
Qed.

(** C7.  Start from a disjoint-set of count [n] and run any history of
    [find]s and [union]s on ids of [1..n].  Every call returns, and in the
    state reached, for ids [x] and [y] of [1..n]: [find x] and [find y]
    return the same representative exactly when [x] and [y] are
    connected by the pairs unioned so far (whatever [find]s, and so
    whatever path compressions, the history holds); in particular they
    agree for a pair that has been unioned; [find] of the representative
    is the representative, and a repeated [find x] returns it again and
    changes nothing. *)
Theorem find_eq_iff_connected n fuel ops :
  0 ≤ n → op_ids_in n ops → (Z.to_nat (n + 1) ≤ fuel)%nat →
  ∃ s, for_each (run_op fuel) ops (UnionFindSet_init n) = (Ret tt, s)
     ∧ ∀ x y, 1 ≤ x ≤ n → 1 ≤ y ≤ n →
         ∃ rx ry s1 s2,
           find fuel x s = (Ret rx, s1)
           ∧ find fuel y s1 = (Ret ry, s2)
           ∧ (rx = ry ↔ conn (unioned ops) x y)
           ∧ ((x, y) ∈ unioned ops → rx = ry)
           ∧ find fuel rx s1 = (Ret rx, s1)
           ∧ find fuel x s1 = (Ret rx, s1).
Proof.
  intros Hn Hids Hfuel.
  destruct (run_ops_inv n fuel ops (fa (UnionFindSet_init n)) n [])
    as (l & Hrun & Hinv); [by apply uf_inv_init | done | by rewrite init_length |].
  rewrite app_nil_r in Hinv.
  exists (mkUnionFindSet l n). split; [done |].
  intros x y Hx Hy.
  assert (length l ≤ fuel)%nat as Hfuel' by (by rewrite (inv_len _ _ _ Hinv)).
  destruct (find_inv n l n _ x fuel Hinv ltac:(lia) Hfuel')
    as (rx & dx & l1 & Hrx & Hf1 & Hc1).
  pose proof (uf_inv_compressed _ _ _ _ Hinv Hc1) as Hinv1.
  assert (length l1 ≤ fuel)%nat as Hfuel1 by (destruct Hc1 as [-> _]; done).
  destruct (find_inv n l1 n _ y fuel Hinv1 ltac:(lia) Hfuel1)
    as (ry & dy & l2 & Hry & Hf2 & Hc2).
  destruct Hc1 as (Hlen1 & Hroots1 & Hp1).
  destruct (Hp1 _ _ _ Hrx) as (dx1 & _ & Hrx1).
  destruct (root_of_root _ _ _ _ Hrx1) as [Hrx0 Hrxl].
  assert (rx = ry ↔ conn (unioned ops) x y) as Hiff.
  { rewrite <- (inv_conn _ _ _ Hinv1) by lia. symmetry. by eapply same_root_iff. }
  exists rx, ry, (mkUnionFindSet l1 n), (mkUnionFindSet l2 n).
  split; [done |]. split; [done |]. split; [done |]. split; [| split].
  - intros Hin. apply Hiff. by apply conn_edge.
  - apply find_on_root; [done | done | lia].
  - apply find_on_child; [lia | | done | done | lia].
    apply (fa_getitem_lookup _ n); [lia | |].
    + rewrite Hlen1, (inv_len _ _ _ Hinv). lia.
    + by eapply find_result_lookup.
Qed.

Lemma py_index_from_end (len : nat) x :
  - Z.of_nat len ≤ x < 0 → py_index len x = Some (Z.to_nat (Z.of_nat len + x)).
Proof.
  intros Hx. unfold py_index.
  rewrite bool_decide_eq_false_2 by lia. by rewrite bool_decide_eq_true_2.
Qed.

(** A negative id that counts a slot from the end is accepted: [find]
    compresses that slot and returns its root. *)
Lemma find_from_end n l sz E fuel x :
  uf_inv n l E → (Z.to_nat (n + 2) ≤ fuel)%nat → - (n + 1) ≤ x < 0 →
  ∃ r l', find fuel x (mkUnionFindSet l sz) = (Ret r, mkUnionFindSet l' sz).
Proof.
  intros Hinv Hfuel Hx.
  pose proof (inv_n _ _ _ Hinv) as Hn. pose proof (inv_len _ _ _ Hinv) as Hlen.
  assert (0 ≤ n + 1 + x ≤ n) as Hslot by lia.
  destruct (inv_root _ _ _ Hinv _ Hslot) as (r & d & Hr & Hd).
  destruct (root_of_root _ _ _ _ Hr) as [Hr0 Hrl].
  pose proof (nroots_pos _ _ Hr0 Hrl) as Hpos.
  assert (∃ p dp, l !! Z.to_nat (n + 1 + x) = Some p ∧ root_of l p r dp ∧ (dp ≤ d)%nat)
    as (p & dp & Hl & Hp & Hdp).
  { inversion Hr as [? ? Hl | ? p ? d' ? Hl ? Hp]; subst.
    - exists (n + 1 + x), O. by repeat split.
    - exists p, d'. split; [done |]. split; [done | lia]. }
  assert (∀ l', length l' = length l →
                py_index (length l') x = Some (Z.to_nat (n + 1 + x))) as Hidx.
  { intros l' ->. rewrite py_index_from_end by lia. do 2 f_equal. lia. }
  destruct fuel as [| fuel]; [lia |].
  destruct (find_root l sz p r dp fuel Hp) as (l1 & Hf & Hlen1 & _); [lia |].
  exists r, (<[Z.to_nat (n + 1 + x) := r]> l1).
  rewrite find_S. unfold mbind, M_bind, bind.
  assert (fa_getitem x (mkUnionFindSet l sz) = (Ret p, mkUnionFindSet l sz)) as Hget
    by (unfold fa_getitem; simpl; by rewrite Hidx, Hl).
  rewrite Hget.
  rewrite bool_decide_eq_true_2
    by (pose proof (root_of_nonneg _ _ _ _ Hp); lia).
  rewrite Hget, Hf. unfold fa_setitem, fa_getitem. simpl.
  rewrite Hidx by done. simpl. rewrite Hidx by (by rewrite length_insert).
  rewrite list_lookup_insert_eq; [done |]. rewrite Hlen1, Hlen. lia.
Qed.

(** C8 (as amended).  On a disjoint-set of count [n] the slots are
    [0..n], and Python also counts slots from the end.  An id above [n]
    or below [-(n+1)] makes [find] raise [IndexError] at once, and makes
    [union] raise it whichever argument it is; every other id, 0 and the
    negative ids down to [-(n+1)] included, is accepted by [find]. *)
Theorem find_union_out_of_range n l sz E fuel x :
  uf_inv n l E → (Z.to_nat (n + 2) ≤ fuel)%nat →
  (n < x ∨ x < - (n + 1) →
   find fuel x (mkUnionFindSet l sz) = (Raise IndexError, mkUnionFindSet l sz)
   ∧ (∀ y, (union fuel x y (mkUnionFindSet l sz)).1 = Raise IndexError)
   ∧ (∀ y, 0 ≤ y ≤ n → (union fuel y x (mkUnionFindSet l sz)).1 = Raise IndexError))
  ∧ (- (n + 1) ≤ x ≤ n →
     ∃ r l', find fuel x (mkUnionFindSet l sz) = (Ret r, mkUnionFindSet l' sz)).
Proof.
  intros Hinv Hfuel.
  pose proof (inv_n _ _ _ Hinv) as Hn. pose proof (inv_len _ _ _ Hinv) as Hlen.
  split.
  - intros Hx.
    assert (∀ l', length l' = length l →
                  find fuel x (mkUnionFindSet l' sz)
                  = (Raise IndexError, mkUnionFindSet l' sz)) as Hfind.
    { intros l' Hl'. destruct fuel as [| fuel]; [lia |].
      rewrite find_S. unfold mbind, M_bind, bind, fa_getitem. simpl.
      rewrite py_index_out; [done |]. rewrite Hl', Hlen. lia. }
    split; [by apply Hfind |]. split.
    + intros y. unfold union, mbind, M_bind, bind. by rewrite Hfind.
    + intros y Hy. unfold union, mbind, M_bind, bind.
      destruct (find_inv n l sz E y fuel Hinv Hy) as (r & d & l1 & _ & Hf & Hc);
        [rewrite Hlen; lia |].
      rewrite Hf, Hfind; [done |]. by destruct Hc as [-> _].
  - intros Hx. destruct (decide (0 ≤ x)) as [Hx0 | Hx0].
    + destruct (find_inv n l sz E x fuel Hinv) as (r & d & l1 & _ & Hf & _);
        [lia | rewrite Hlen; lia |]. by exists r, l1.
    + eapply find_from_end; [done | done | lia].
Qed.
End UnionFindSet_correct.

Lemma find_eq_iff_connected_witness :
  ∃ s, for_each (run_op 4) [op_union 1 2; op_find 2; op_union 3 2]
         (UnionFindSet_init 3) = (Ret tt, s)
     ∧ ∀ x y, 1 ≤ x ≤ 3 → 1 ≤ y ≤ 3 →
         ∃ rx ry s1 s2,
           find 4 x s = (Ret rx, s1)
           ∧ find 4 y s1 = (Ret ry, s2)
           ∧ (rx = ry ↔ conn (unioned [op_union 1 2; op_find 2; op_union 3 2]) x y)
           ∧ ((x, y) ∈ unioned [op_union 1 2; op_find 2; op_union 3 2] → rx = ry)
           ∧ find 4 rx s1 = (Ret rx, s1)
           ∧ find 4 x s1 = (Ret rx, s1).
Proof.
  apply (find_eq_iff_connected 3 4 [op_union 1 2; op_find 2; op_union 3 2]).
  - lia.
  - intros o Ho. repeat (apply elem_of_cons in Ho as [-> | Ho]; [lia |]).
    by apply elem_of_nil in Ho.
  - simpl. lia.
Defined.

Lemma find_union_out_of_range_witness :
  (find 5 4 (UnionFindSet_init 3) = (Raise IndexError, UnionFindSet_init 3)
   ∧ (∀ y, (union 5 4 y (UnionFindSet_init 3)).1 = Raise IndexError)
   ∧ (∀ y, 0 ≤ y ≤ 3 → (union 5 y 4 (UnionFindSet_init 3)).1 = Raise IndexError))
  ∧ (∃ r l', find 5 (-4) (UnionFindSet_init 3) = (Ret r, mkUnionFindSet l' 3)).
Proof.
  split.
  - apply (find_union_out_of_range 3 (fa (UnionFindSet_init 3)) 3 [] 5 4).
    + apply uf_inv_init. lia.
    + simpl. lia.
    + lia.
  - apply (find_union_out_of_range 3 (fa (UnionFindSet_init 3)) 3 [] 5 (-4)).
    + apply uf_inv_init. lia.
    + simpl. lia.
    + lia.
Defined.

(** C8, the claim as stated fails: ids 0 and -1 lie outside [1..3], and
    [find] returns for both; [union] of the two returns as well. *)
Lemma find_accepts_ids_outside_1_n :
  (find 4 0 (UnionFindSet_init 3)).1 ≠ Raise IndexError
  ∧ find 4 0 (UnionFindSet_init 3) = (Ret 0, UnionFindSet_init 3)
  ∧ find 4 (-1) (UnionFindSet_init 3) = (Ret 3, UnionFindSet_init 3)
  ∧ (union 4 0 (-1) (UnionFindSet_init 3)).1 = Ret tt.
Proof. by vm_compute. Qed.

(** * The link enforcer *)

Section block_links.
Implicit Types (c : KruskalController) (log pm : list Effect) (e : Edge)
               (api : TopologyAPI) (excepts : list (Z * Z)).

(** [send_port_mod] reads nothing of the controller; it appends at most
    one port modification. *)
Lemma send_port_mod_frame api datapath pno opt :
  ∃ o pm, Forall is_port_mod pm
        ∧ ∀ c log, send_port_mod api datapath pno opt (c, log) = (o, (c, log ++ pm)).
Proof.
  unfold send_port_mod. destruct (get_switch _ _) as [| sw ?].
  - exists (Raise IndexError), []. split; [done |]. intros. by rewrite app_nil_r.
  - destruct (List.find _ _) as [p |].
    + eexists (Ret tt), [_]. split; [| done]. by repeat constructor.
    + exists (Ret tt), []. split; [done |]. intros. by rewrite app_nil_r.
Qed.

(** One link: the outcome and the port modifications depend on the
    controller only through its datapath list. *)
Lemma block_link_frame api excepts e dps :
  ∃ o pm, Forall is_port_mod pm
        ∧ ∀ c log, datapaths c = dps →
            block_link api excepts e (c, log) = (o, (c, log ++ pm)).
Proof.
  unfold block_link. case_bool_decide.
  { exists (Ret tt), []. split; [done |]. intros. by rewrite app_nil_r. }
  destruct (List.find (λ datapath, bool_decide (dp_id datapath = e.1.1)) dps)
    as [src_dp |] eqn:Hsrc;
    [destruct (List.find (λ datapath, bool_decide (dp_id datapath = e.1.2)) dps)
       as [dst_dp |] eqn:Hdst |].
  - destruct (send_port_mod_frame api src_dp (src_port e.2) OFPPC_PORT_DOWN)
      as (o1 & pm1 & Hpm1 & H1).
    destruct (send_port_mod_frame api dst_dp (dst_port e.2) OFPPC_PORT_DOWN)
      as (o2 & pm2 & Hpm2 & H2).
    destruct o1 as [[] | ex].
    + exists o2, (pm1 ++ pm2). split; [by apply Forall_app |].
      intros c log Hc. subst dps.
      unfold mbind, M_bind, bind, get_state, find_datapath_by_id. simpl.
      rewrite Hsrc, Hdst. unfold bind. by rewrite H1, H2, app_assoc.
    + exists (Raise ex), pm1. split; [done |].
      intros c log Hc. subst dps.
      unfold mbind, M_bind, bind, get_state, find_datapath_by_id. simpl.
      rewrite Hsrc, Hdst. unfold bind. by rewrite H1.
  - exists (Ret tt), []. split; [done |].
    intros c log Hc. subst dps.
    unfold mbind, M_bind, bind, get_state, find_datapath_by_id. simpl.
    by rewrite Hsrc, Hdst, app_nil_r.
  - exists (Ret tt), []. split; [done |].
    intros c log Hc. subst dps.
    unfold mbind, M_bind, bind, get_state, find_datapath_by_id. simpl.
    by rewrite Hsrc, app_nil_r.
Qed.

Lemma block_each_frame api excepts es dps :
  ∃ o pm, Forall is_port_mod pm
        ∧ ∀ c log, datapaths c = dps →
            for_each (block_link api excepts) es (c, log) = (o, (c, log ++ pm)).
Proof.
  induction es as [| e es (o & pm & Hpm & IH)].
  - exists (Ret tt), []. split; [done |]. intros. by rewrite app_nil_r.
  - destruct (block_link_frame api excepts e dps) as (o1 & pm1 & Hpm1 & H1).
    destruct o1 as [[] | ex].
    + exists o, (pm1 ++ pm). split; [by apply Forall_app |].
      intros c log Hc. simpl. unfold mbind, M_bind, bind.
      by rewrite H1, IH, app_assoc.
    + exists (Raise ex), pm1. split; [done |].
      intros c log Hc. simpl. unfold mbind, M_bind, bind. by rewrite H1.
Qed.

(** [block_links] leaves the controller as it is and appends port
    modifications only; what it appends depends on the edges, the
    datapath list, the tree and the topology API, on nothing else. *)
Lemma block_links_frame api excepts es dps :
  ∃ o pm, Forall is_port_mod pm
        ∧ ∀ c log, datapaths c = dps → edges (topo c) = es →
            block_links api excepts (c, log) = (o, (c, log ++ pm)).
Proof.
  destruct (block_each_frame api excepts es dps) as (o & pm & Hpm & H).
  exists o, pm. split; [done |]. intros c log Hdps <-.
  unfold block_links, mbind, M_bind, bind, get_state. simpl. by apply H.
Qed.
Lemma find_datapath_by_id_id c i datapath :
  find_datapath_by_id c i = Some datapath → dp_id datapath = i.
Proof.
  unfold find_datapath_by_id. intros Hfind.
  apply find_some in Hfind as [_ Hid]. by apply bool_decide_eq_true in Hid.
Qed.

(** [send_port_mod] for a switch the API knows: the request of
    [port_down_msg], or nothing for a port the switch does not list. *)
Lemma send_port_mod_known api datapath pno c log sw :
  head (get_switch api (dp_id datapath)) = Some sw →
  send_port_mod api datapath pno OFPPC_PORT_DOWN (c, log)
  = (Ret tt, (c, log ++ option_list (port_down_msg api (dp_id datapath) pno))).
Proof.
  intros Hsw. unfold send_port_mod, port_down_msg. rewrite Hsw.
  destruct (get_switch api (dp_id datapath)) as [| sw' ?]; simplify_eq/=.
  destruct (List.find _ (ports sw)); simpl; [done |].
  unfold ret. by rewrite app_nil_r.
Qed.

Lemma send_port_mod_unknown api datapath pno opt c log :
  get_switch api (dp_id datapath) = [] →
  send_port_mod api datapath pno opt (c, log) = (Raise IndexError, (c, log)).
Proof. intros Hsw. unfold send_port_mod. by rewrite Hsw. Qed.

(** One link whose ends are registered and known to the API. *)
Lemma block_link_known api excepts e c log :
  ¬ in_tree excepts e →
  is_Some (find_datapath_by_id c e.1.1) → is_Some (find_datapath_by_id c e.1.2) →
  is_Some (head (get_switch api e.1.1)) → is_Some (head (get_switch api e.1.2)) →
  block_link api excepts e (c, log) = (Ret tt, (c, log ++ port_downs_for api e)).
Proof.
  intros Hnt [sdp Hs] [ddp Hd] [ssw Hssw] [dsw Hdsw].
  unfold block_link. rewrite bool_decide_eq_false_2 by done.
  unfold mbind, M_bind, bind, get_state. simpl. rewrite Hs, Hd. unfold bind.
  pose proof (find_datapath_by_id_id _ _ _ Hs) as Hsid.
  pose proof (find_datapath_by_id_id _ _ _ Hd) as Hdid.
  rewrite (send_port_mod_known _ _ _ _ _ ssw) by (by rewrite Hsid).
  rewrite (send_port_mod_known _ _ _ _ _ dsw) by (by rewrite Hdid).
  unfold port_downs_for. by rewrite Hsid, Hdid, app_assoc.
Qed.

Lemma block_link_in_tree api excepts e c log :
  in_tree excepts e → block_link api excepts e (c, log) = (Ret tt, (c, log)).
Proof. intros Hin. unfold block_link. by rewrite bool_decide_eq_true_2. Qed.

Lemma block_each_known api excepts es :
  ∀ c log,
    (∀ e, e ∈ es → ¬ in_tree excepts e →
       is_Some (find_datapath_by_id c e.1.1) ∧ is_Some (find_datapath_by_id c e.1.2)
       ∧ is_Some (head (get_switch api e.1.1))
       ∧ is_Some (head (get_switch api e.1.2))) →
    for_each (block_link api excepts) es (c, log)
    = (Ret tt,
       (c, log ++ (filter (λ e, ¬ in_tree excepts e) es ≫= port_downs_for api))).
Proof.
  induction es as [| e es IH]; intros c log Hknown.
  - simpl. unfold ret. by rewrite app_nil_r.
  - cbn [for_each]. unfold mbind, M_bind, bind. rewrite filter_cons.
    destruct (decide (in_tree excepts e)) as [Hin | Hnt].
    + rewrite block_link_in_tree by done. rewrite decide_False by tauto.
      apply IH. intros; apply Hknown; [by right | done].
    + destruct (Hknown e ltac:(left) Hnt) as (? & ? & ? & ?).
      rewrite block_link_known by done. rewrite decide_True by done.
      rewrite IH by (intros; apply Hknown; [by right | done]).
      cbn [mbind list_bind]. by rewrite app_assoc.
Qed.

Lemma filter_all {A} (P : A → Prop) `{!∀ x, Decision (P x)} (l : list A) :
  (∀ x, x ∈ l → P x) → filter P l = l.
Proof.
  induction l as [| a l IH]; intros HP; [done |].
  rewrite filter_cons_True by (apply HP; left).
  f_equal. apply IH. intros; apply HP; by right.
Qed.
End block_links.

Lemma for_each_app {S A} (body : A → M S unit) (l1 l2 : list A) (s : S) :
  for_each body (l1 ++ l2) s = (for_each body l1;; for_each body l2) s.
Proof.
  revert s. induction l1 as [| a l1 IH]; intros s; simpl.
  - done.
  - unfold mbind, M_bind, bind in *. destruct (body a s) as [[[] | ex] s1]; [| done].
    apply IH.
Qed.

(** C2 (as amended).  A link with an endpoint whose datapath is not
    registered is passed over as a whole: [block_links] issues no action
    for either of its ports, raises nothing for it, and goes on with the
    remaining links exactly as if the link were not there. *)
Theorem block_links_skips_unregistered api excepts c log pre e post :
  edges (topo c) = pre ++ e :: post →
  find_datapath_by_id c e.1.1 = None ∨ find_datapath_by_id c e.1.2 = None →
  block_link api excepts e (c, log) = (Ret tt, (c, log))
  ∧ block_links api excepts (c, log)
    = for_each (block_link api excepts) (pre ++ post) (c, log).
Proof.
  intros Hedges Hnone.
  assert (∀ log', block_link api excepts e (c, log') = (Ret tt, (c, log'))) as Hskip.
  { intros log'. unfold block_link. case_bool_decide; [done |].
    unfold mbind, M_bind, bind, get_state. simpl.
    destruct Hnone as [-> | ->]; [done |]. by destruct (find_datapath_by_id c e.1.1). }
  split; [apply Hskip |].
  unfold block_links, mbind, M_bind, bind, get_state. simpl. rewrite Hedges.
  rewrite !for_each_app. unfold mbind, M_bind, bind.
  destruct (block_each_frame api excepts pre (datapaths c)) as (o & pm & _ & Hpre).
  rewrite Hpre by done. destruct o as [[] | ex]; [| done].
  simpl. unfold mbind, M_bind, bind. by rewrite Hskip.
Qed.

Lemma block_links_skips_unregistered_witness :
  block_link scenario_B_api []
    (1, 2, {| src_port := 1; dst_port := 1; weight := 5 |}) (scenario_D, [])
  = (Ret tt, (scenario_D, []))
  ∧ block_links scenario_B_api [] (scenario_D, [])
    = for_each (block_link scenario_B_api [])
        ([] ++ [(2, 1, {| src_port := 1; dst_port := 1; weight := 5 |})])
        (scenario_D, []).
Proof.
  apply (block_links_skips_unregistered scenario_B_api [] scenario_D [] []
           (1, 2, {| src_port := 1; dst_port := 1; weight := 5 |})
           [(2, 1, {| src_port := 1; dst_port := 1; weight := 5 |})]).
  - reflexivity.
  - right. reflexivity.
Defined.

(** C2, the claim as stated fails in scenario D: switch 1 is registered
    and lists port 1, so the action for the source side could be sent;
    yet for the non-tree link 1 -> 2, whose destination is not registered,
    [block_links] sends nothing at all. *)
Lemma scenario_D_no_action_for_registered_side :
  find_datapath_by_id scenario_D 1 = Some {| dp_id := 1 |}
  ∧ find_datapath_by_id scenario_D 2 = None
  ∧ (1, 2, {| src_port := 1; dst_port := 1; weight := 5 |}) ∈ edges (topo scenario_D)
  ∧ send_port_mod scenario_B_api {| dp_id := 1 |} 1 OFPPC_PORT_DOWN (scenario_D, [])
    = (Ret tt, (scenario_D,
                [send_msg 1 (OFPPortMod 1 "00:00:00:00:00:01" OFPPC_PORT_DOWN mask_all)]))
  ∧ block_links scenario_B_api [] (scenario_D, []) = (Ret tt, (scenario_D, []))
  ∧ send_msg 1 (OFPPortMod 1 "00:00:00:00:00:01" OFPPC_PORT_DOWN mask_all)
    ∉ (block_links scenario_B_api [] (scenario_D, [])).2.2.
Proof.
  split; [reflexivity |]. split; [reflexivity |].
  split; [apply (bool_decide_unpack _); by vm_compute |].
  split; [reflexivity |]. split; [reflexivity |].
  apply not_elem_of_nil.
Qed.

(** * Running [Kruskal] again *)

Section Kruskal_again.
Implicit Types (t : Topo) (n : Z) (fuel : nat) (log : list Effect)
               (es K : list Edge) (P : list (Z * Z)).

Lemma greedy_all_connected P es K :
  (∀ e, e ∈ es → conn P e.1.1 e.1.2) → greedy P es K → K = [].
Proof.
  intros Hall Hg. induction Hg as [P | P e es K Hc _ IH | P e es K Hc _ IH].
  - done.
  - apply IH. intros; apply Hall; by right.
  - destruct Hc. apply Hall. left.
Qed.

Lemma edges_with_set s t : edges (with_set s t) = edges t.
Proof. done. Qed.

Lemma initialize_with_set n s t :
  set t = Some (UnionFindSet_init n) → initialize_ufset n (with_set s t) = t.
Proof. intros Hset. destruct t. simpl in *. by subst. Qed.

(** On the disjoint-set that a first run has left behind, the loop of
    [Kruskal] finds every edge joined already. *)
Lemma Kruskal_rerun n fuel t log K l' :
  set t = Some (mkUnionFindSet l' n) → ids_in n (edges t).*1 →
  greedy [] (sorted_by_weight (edges t)) K → uf_inv n l' K.*1 →
  (Z.to_nat (n + 1) ≤ fuel)%nat →
  ∃ l2, Kruskal_loop fuel (sorted_by_weight (edges t)) [] t
        = (Ret [], with_set (Some (mkUnionFindSet l2 n)) t)
      ∧ Kruskal fuel (t, log)
        = Kruskal_ends [] (with_set (Some (mkUnionFindSet l2 n)) t) log.
Proof.
  intros Hset Hids Hg Hinv Hfuel.
  destruct (Kruskal_run_from n fuel t log l' n K.*1)
    as (K2 & l2 & Hloop2 & HK2 & Hg2 & _); [done | done | done | |].
  { by rewrite (inv_len _ _ _ Hinv). }
  assert (K2 = []) as ->.
  { eapply greedy_all_connected; [| done]. intros e He.
    apply (greedy_conn_edges t K); [done |]. apply conn_edge.
    rewrite sorted_by_weight_perm in He.
    apply list_elem_of_fmap. exists e. by destruct e as [[??]?]. }
  by exists l2.
Qed.

(** C1 (as amended).  After a first [Kruskal] on a freshly initialised
    disjoint-set, a second call on the topology as the first call left it
    does not compute the same tree: its loop finds every edge already
    joined and builds the empty list.  Each of the two calls returns its
    list when [draw_tree] returns, and ends in [NetworkXError] otherwise.
    The calls change nothing but the disjoint-set, and initialising that
    again gives back the topology as it was before the first call.
    Enforcement differs with the trees: with every link end registered
    and known to the topology API, [block_links] with the first tree
    takes down the ports of the links outside the tree, and
    [block_links] with the empty tree of the second call the ports of
    all links, so that every request of the first enforcement is issued
    again. *)
Theorem Kruskal_second_run n fuel t log :
  0 ≤ n → set t = Some (UnionFindSet_init n) →
  ids_in n (edges t).*1 → (Z.to_nat (n + 1) ≤ fuel)%nat →
  ∃ tree t1 t2,
    Kruskal_loop fuel (sorted_by_weight (edges t)) [] t = (Ret tree, t1)
    ∧ Kruskal fuel (t, log)
      = (if bool_decide (has_positions t)
         then (Ret tree, (t1, log ++ tree_drawn tree))
         else (Raise NetworkXError, (t1, log ++ tree_not_drawn)))
    ∧ Kruskal_loop fuel (sorted_by_weight (edges t1)) [] t1 = (Ret [], t2)
    ∧ (∀ log1,
         Kruskal fuel (t1, log1)
         = (if bool_decide (has_positions t)
            then (Ret [], (t2, log1 ++ tree_drawn []))
            else (Raise NetworkXError, (t2, log1 ++ tree_not_drawn))))
    ∧ initialize_ufset n t1 = t ∧ initialize_ufset n t2 = t
    ∧ ∀ api c lg,
        (∀ e, e ∈ edges t →
           is_Some (find_datapath_by_id c e.1.1)
           ∧ is_Some (find_datapath_by_id c e.1.2)
           ∧ is_Some (head (get_switch api e.1.1))
           ∧ is_Some (head (get_switch api e.1.2))) →
        block_links api tree (with_topo t1 c, lg)
        = (Ret tt, (with_topo t1 c,
                    lg ++ (filter (λ e, ¬ in_tree tree e) (edges t)
                           ≫= port_downs_for api)))
        ∧ block_links api [] (with_topo t2 c, lg)
          = (Ret tt, (with_topo t2 c, lg ++ (edges t ≫= port_downs_for api))).
Proof.
  intros Hn Hset Hids Hfuel.
  destruct (Kruskal_run n fuel t log Hn Hset Hids Hfuel)
    as (K & l' & Hloop & HK & Hg & Hinv & Hnr).
  destruct (Kruskal_rerun n fuel (with_set (Some (mkUnionFindSet l' n)) t) log K l')
    as (l2 & Hloop2 & _); [done | done | done | done | done |].
  exists K.*1, (with_set (Some (mkUnionFindSet l' n)) t),
    (with_set (Some (mkUnionFindSet l2 n)) t).
  split; [done |]. split; [done |]. split; [done |]. split.
  { intros log1. by rewrite Kruskal_unfold, Hloop2. }
  split; [by apply initialize_with_set |].
  split; [by apply initialize_with_set |].
  intros api c lg Hknown.
  unfold block_links, mbind, M_bind, bind, get_state. simpl.
  rewrite !block_each_known by (intros e He _; by apply Hknown).
  split; [done |]. rewrite filter_all; [done |].
  intros e _ [H | H]; by apply elem_of_nil in H.
Qed.





End Kruskal_again.

Lemma scenario_B_known :
  ∀ e, e ∈ edges (topo scenario_B.1) →
    is_Some (find_datapath_by_id scenario_B.1 e.1.1)
    ∧ is_Some (find_datapath_by_id scenario_B.1 e.1.2)
    ∧ is_Some (head (get_switch scenario_B_api e.1.1))
    ∧ is_Some (head (get_switch scenario_B_api e.1.2)).
Proof.
  apply (Forall_forall
           (λ e : Edge,
              is_Some (find_datapath_by_id scenario_B.1 e.1.1)
              ∧ is_Some (find_datapath_by_id scenario_B.1 e.1.2)
              ∧ is_Some (head (get_switch scenario_B_api e.1.1))
              ∧ is_Some (head (get_switch scenario_B_api e.1.2)))).
  apply (bool_decide_unpack _). by vm_compute.
Qed.

Lemma Kruskal_second_run_witness :
  ∃ tree t1 t2,
    Kruskal_loop 3 (sorted_by_weight (edges (topo scenario_B.1))) []
      (topo scenario_B.1) = (Ret tree, t1)
    ∧ Kruskal 3 (topo scenario_B.1, [])
      = (if bool_decide (has_positions (topo scenario_B.1))
         then (Ret tree, (t1, [] ++ tree_drawn tree))
         else (Raise NetworkXError, (t1, [] ++ tree_not_drawn)))
    ∧ Kruskal_loop 3 (sorted_by_weight (edges t1)) [] t1 = (Ret [], t2)
    ∧ (∀ log1,
         Kruskal 3 (t1, log1)
         = (if bool_decide (has_positions (topo scenario_B.1))
            then (Ret [], (t2, log1 ++ tree_drawn []))
            else (Raise NetworkXError, (t2, log1 ++ tree_not_drawn))))
    ∧ initialize_ufset 2 t1 = topo scenario_B.1
    ∧ initialize_ufset 2 t2 = topo scenario_B.1
    ∧ ∀ api c lg,
        (∀ e, e ∈ edges (topo scenario_B.1) →
           is_Some (find_datapath_by_id c e.1.1)
           ∧ is_Some (find_datapath_by_id c e.1.2)
           ∧ is_Some (head (get_switch api e.1.1))
           ∧ is_Some (head (get_switch api e.1.2))) →
        block_links api tree (with_topo t1 c, lg)
        = (Ret tt, (with_topo t1 c,
                    lg ++ (filter (λ e, ¬ in_tree tree e)
                             (edges (topo scenario_B.1))
                           ≫= port_downs_for api)))
        ∧ block_links api [] (with_topo t2 c, lg)
          = (Ret tt, (with_topo t2 c,
                      lg ++ (edges (topo scenario_B.1) ≫= port_downs_for api))).
Proof.
  apply (Kruskal_second_run 2 3 (topo scenario_B.1) []).
  - lia.
  - reflexivity.
  - exact scenario_B_ids.
  - simpl. lia.
Defined.

(** C1, the claim as stated fails in scenario B.  On the topology as
    rebuilt, the loop of the first call builds the tree [(1,2)] and the
    loop of a second call, with no rebuild in between, the empty tree
    (both calls end in [NetworkXError], the layout being empty).  With a
    layout for the two switches, the first call returns [(1,2)] and the
    second the empty tree.  And where enforcement with the first tree
    sends nothing, enforcement with the second takes down all four
    ports. *)
Lemma scenario_B_second_run_differs :
  (Kruskal_loop 3 (sorted_by_weight (edges (topo scenario_B.1))) []
     (topo scenario_B.1)).1 = Ret [(1, 2)]
  ∧ (Kruskal_loop 3 (sorted_by_weight (edges (topo scenario_B.1))) []
       (Kruskal 3 (topo scenario_B.1, [])).2.1).1 = Ret []
  ∧ (Kruskal 3 (with_pos [1; 2] (topo scenario_B.1), [])).1 = Ret [(1, 2)]
  ∧ (Kruskal 3 (Kruskal 3 (with_pos [1; 2] (topo scenario_B.1), [])).2).1 = Ret []
  ∧ (block_links scenario_B_api [(1, 2)] (scenario_B.1, [])).2.2 = []
  ∧ (block_links scenario_B_api [] (scenario_B.1, [])).2.2
    = [ send_msg 1 (OFPPortMod 1 "00:00:00:00:00:01" OFPPC_PORT_DOWN mask_all);
        send_msg 2 (OFPPortMod 1 "00:00:00:00:00:01" OFPPC_PORT_DOWN mask_all);
        send_msg 2 (OFPPortMod 1 "00:00:00:00:00:01" OFPPC_PORT_DOWN mask_all);
        send_msg 1 (OFPPortMod 1 "00:00:00:00:00:01" OFPPC_PORT_DOWN mask_all) ].
Proof. repeat split; by vm_compute. Qed.


(** * The topology rebuild *)

Section rebuild.
Implicit Types (t : Topo) (u v a b : Z) (d : EdgeData).

Lemma od_get_set_eq {V} k (x : V) (m : list (Z * V)) :
  od_get k (od_set k x m) = Some x.
Proof.
  induction m as [| [k' x'] m IH]; simpl.
  - by rewrite bool_decide_eq_true_2.
  - case_bool_decide as Hk; simpl.
    + by rewrite bool_decide_eq_true_2.
    + by rewrite bool_decide_eq_false_2.
Qed.

Lemma od_get_set_ne {V} k k' (x : V) (m : list (Z * V)) :
  k ≠ k' → od_get k' (od_set k x m) = od_get k' m.
Proof.
  intros Hne. induction m as [| [k0 x0] m IH]; simpl.
  - by rewrite bool_decide_eq_false_2.
  - case_bool_decide as Hk; simpl.
    + subst k0. by rewrite !bool_decide_eq_false_2.
    + by rewrite IH.
Qed.

Lemma edge_data_touch_node n t a b :
  edge_data a b (touch_node n t) = edge_data a b t.
Proof.
  unfold touch_node, edge_data. destruct (od_get n (_adj t)) eqn:Hn; [done |].
  simpl. destruct (decide (n = a)) as [-> | Hne].
  - by rewrite od_get_set_eq, Hn.
  - by rewrite od_get_set_ne.
Qed.

Lemma touch_node_present n t : is_Some (od_get n (_adj (touch_node n t))).
Proof.
  unfold touch_node. destruct (od_get n (_adj t)) eqn:Hn; simpl.
  - by rewrite Hn.
  - by rewrite od_get_set_eq.
Qed.

Lemma touch_node_keeps n n' t :
  is_Some (od_get n (_adj t)) → is_Some (od_get n (_adj (touch_node n' t))).
Proof.
  intros Hn. unfold touch_node. destruct (od_get n' (_adj t)) eqn:Hn'; [done |].
  simpl. destruct (decide (n' = n)) as [-> | Hne].
  - by rewrite od_get_set_eq.
  - by rewrite od_get_set_ne.
Qed.

(** [add_edge u v] sets the data of the edge [(u, v)] and of no other. *)
Lemma edge_data_add_edge u v d t a b :
  edge_data a b (add_edge u v d t)
  = if decide (a = u ∧ b = v) then Some d else edge_data a b t.
Proof.
  unfold add_edge. set (t1 := touch_node v (touch_node u t)).
  assert (edge_data a b t1 = edge_data a b t) as Ht1
    by (unfold t1; by rewrite !edge_data_touch_node).
  assert (is_Some (od_get u (_adj t1))) as [nbrs Hu]
    by (apply touch_node_keeps, touch_node_present).
  rewrite <- Ht1. unfold edge_data. simpl. rewrite Hu. simpl.
  destruct (decide (a = u)) as [-> | Hau].
  - rewrite od_get_set_eq, Hu. simpl.
    destruct (decide (b = v)) as [-> | Hbv].
    + rewrite decide_True by done. apply od_get_set_eq.
    + rewrite decide_False by tauto. by apply od_get_set_ne.
  - rewrite decide_False by tauto. by rewrite od_get_set_ne.
Qed.

Lemma has_edge_edge_data u v t :
  has_edge u v t = true ↔ is_Some (edge_data u v t).
Proof.
  unfold has_edge, edge_data. destruct (od_get u (_adj t)) as [nbrs |]; simpl.
  - by rewrite bool_decide_eq_true.
  - split; [done | by intros [? ?]].
Qed.

(** The weight rule of the link loop: the weight of the reverse edge when
    there is one, and then no sample is drawn; the next sample otherwise. *)
Lemma add_link_copy rand link t k d :
  edge_data (dpid (dst link)) (dpid (src link)) t = Some d →
  add_link rand link (t, k)
  = (add_edge (dpid (src link)) (dpid (dst link))
       {| src_port := port_no (src link); dst_port := port_no (dst link);
          weight := weight d |} t, k).
Proof.
  intros Hd. unfold add_link.
  assert (has_edge (dpid (dst link)) (dpid (src link)) t = true) as ->
    by (apply has_edge_edge_data; by rewrite Hd).
  by rewrite Hd.
Qed.

Lemma add_link_sample rand link t k :
  edge_data (dpid (dst link)) (dpid (src link)) t = None →
  add_link rand link (t, k)
  = (add_edge (dpid (src link)) (dpid (dst link))
       {| src_port := port_no (src link); dst_port := port_no (dst link);
          weight := rand k |} t, S k).
Proof.
  intros Hd. unfold add_link.
  destruct (has_edge _ _ t) eqn:Hhas; [| done].
  apply has_edge_edge_data in Hhas as [? Hhas]. congruence.
Qed.

Lemma add_link_sym rand link t k :
  sym_weights t → sym_weights (add_link rand link (t, k)).1.
Proof.
  intros Hsym.
  set (u := dpid (src link)). set (v := dpid (dst link)).
  assert (∃ w k', add_link rand link (t, k)
                  = (add_edge u v {| src_port := port_no (src link);
                                     dst_port := port_no (dst link);
                                     weight := w |} t, k')
                ∧ ∀ d, edge_data v u t = Some d → w = weight d) as (w & k' & -> & Hw).
  { destruct (edge_data v u t) as [d |] eqn:Hd.
    - eexists _, _. split; [by apply add_link_copy |]. by intros ? [= ->].
    - eexists _, _. split; [by apply add_link_sample |]. done. }
  simpl. intros a b da db. rewrite !edge_data_add_edge.
  repeat case_decide; intros Ha Hb; simplify_eq; simpl.
  - done.
  - destruct_and?. subst. by apply Hw.
  - destruct_and?. subst. symmetry. by apply Hw.
  - by eapply Hsym.
Qed.

Lemma add_links_sym rand links :
  ∀ st, sym_weights st.1 → sym_weights (add_links rand links st).1.
Proof.
  unfold add_links. induction links as [| link links IH]; intros [t k] Hsym; [done |].
  cbn [foldl]. apply IH. by apply add_link_sym.
Qed.

(** A rebuild replaces the datapath list and the topology, and ends
    with [nx.draw]: [NetworkXError] when the new graph has a node
    without position, after everything else is done. *)
Lemma switch_enter_handler_run api rand c log :
  switch_enter_handler api rand (c, log)
  = ((if bool_decide (has_positions (rebuilt api rand))
      then Ret tt else Raise NetworkXError),
     ({| datapaths := dp <$> all_switches api;
         mac_to_port := mac_to_port c;
         topo := (add_links rand (all_links api)
                    (initialize_ufset (Z.of_nat (length (all_switches api)))
                       (add_nodes_from
                          ((λ s, (dp_id (dp s), port_no <$> ports s))
                             <$> all_switches api)
                          (clear Topo_init)), O)).1 |},
      log ++ (if bool_decide (has_positions (rebuilt api rand))
              then [plt_draw_topo] else []))).
Proof.
  unfold switch_enter_handler, on_topo, focus, nx_draw, mbind, M_bind, bind,
    get_state, put_state, emit, ret, raise. simpl.
  fold (rebuilt api rand). case_bool_decide; [done |]. by rewrite app_nil_r.
Qed.

Lemma edge_data_add_nodes_from ns t a b :
  edge_data a b t = None → edge_data a b (add_nodes_from ns t) = None.
Proof.
  unfold add_nodes_from. revert t.
  induction ns as [| [n prts] ns IH]; intros t Ht; [done |].
  simpl. apply IH. unfold edge_data, add_node in *. simpl.
  destruct (od_get n (_adj t)) eqn:Hn; [done |].
  destruct (decide (n = a)) as [-> | Hne].
  - by rewrite od_get_set_eq.
  - by rewrite od_get_set_ne.
Qed.

(** C6.  After a rebuild, whenever the graph holds both directed edges
    between two switches, their weights are equal.  The loop that adds
    the links copies the weight of the reverse edge when that edge is
    already there, without drawing from the weight provider, and draws
    the next weight otherwise. *)
Theorem rebuild_weights_symmetric api rand c log a b da db :
  let t := topo (switch_enter_handler api rand (c, log)).2.1 in
  edge_data a b t = Some da → edge_data b a t = Some db →
  weight da = weight db
  ∧ (∀ link t0 k d,
       edge_data (dpid (dst link)) (dpid (src link)) t0 = Some d →
       add_link rand link (t0, k)
       = (add_edge (dpid (src link)) (dpid (dst link))
            {| src_port := port_no (src link); dst_port := port_no (dst link);
               weight := weight d |} t0, k))
  ∧ (∀ link t0 k,
       edge_data (dpid (dst link)) (dpid (src link)) t0 = None →
       add_link rand link (t0, k)
       = (add_edge (dpid (src link)) (dpid (dst link))
            {| src_port := port_no (src link); dst_port := port_no (dst link);
               weight := rand k |} t0, S k)).
Proof.
  intros t Ha Hb. split; [| split; [apply add_link_copy | apply add_link_sample]].
  assert (sym_weights t) as Hsym; [| by eapply Hsym].
  unfold t. rewrite switch_enter_handler_run. simpl.
  apply add_links_sym. intros a' b' da' db' Ha' _.
  unfold initialize_ufset in Ha'.
  change (edge_data a' b' (add_nodes_from
            ((λ s, (dp_id (dp s), port_no <$> ports s)) <$> all_switches api)
            (clear Topo_init)) = Some da') in Ha'.
  by rewrite edge_data_add_nodes_from in Ha'.
Qed.
End rebuild.

Lemma rebuild_weights_symmetric_witness :
  weight {| src_port := 3; dst_port := 2; weight := 5 |}
  = weight {| src_port := 2; dst_port := 3; weight := 5 |}
  ∧ (∀ link t0 k d,
       edge_data (dpid (dst link)) (dpid (src link)) t0 = Some d →
       add_link scenario_A_rand link (t0, k)
       = (add_edge (dpid (src link)) (dpid (dst link))
            {| src_port := port_no (src link); dst_port := port_no (dst link);
               weight := weight d |} t0, k))
  ∧ (∀ link t0 k,
       edge_data (dpid (dst link)) (dpid (src link)) t0 = None →
       add_link scenario_A_rand link (t0, k)
       = (add_edge (dpid (src link)) (dpid (dst link))
            {| src_port := port_no (src link); dst_port := port_no (dst link);
               weight := scenario_A_rand k |} t0, S k)).
Proof.
  apply (rebuild_weights_symmetric scenario_A_api scenario_A_rand
           KruskalController_init [] 2 4).
  - reflexivity.
  - reflexivity.
Defined.

(** * The packet-in handler *)

Section packet_in.
Implicit Types (c : KruskalController) (log : list Effect) (ev : PacketIn)
               (api : TopologyAPI) (fuel : nat) (t : Topo).

Lemma learned_lookup ev c :
  learned ev c !! dp_id (pi_datapath ev)
  = Some (<[eth_src ev := pi_in_port ev]>
            (default ∅ (mac_to_port c !! dp_id (pi_datapath ev)))).
Proof. unfold learned, learn. apply lookup_insert_eq. Qed.

Lemma lookup_out_port_learned ev c st :
  lookup_out_port (dp_id (pi_datapath ev)) (eth_dst ev) (learned ev c) st
  = (Ret (out_port_of ev c), st).
Proof.
  unfold lookup_out_port, out_port_of. by rewrite learned_lookup.
Qed.

(** A filtered frame changes nothing. *)
Lemma packet_in_filtered fuel api ev c log :
  filtered ev = true →
  packet_in_handler fuel api (with_ethernet ev) (c, log) = (Ret tt, (c, log)).
Proof.
  intros Hf. unfold packet_in_handler. unfold filtered in Hf. by rewrite Hf.
Qed.

(** Without the trigger, the handler learns and forwards. *)
Lemma packet_in_forward fuel api ev c log :
  filtered ev = false →
  bool_decide (out_port_of ev c = OFPP_FLOOD) && negb (MST_exist (topo c)) = false →
  packet_in_handler fuel api (with_ethernet ev) (c, log)
  = (Ret tt, (with_mac_to_port (learned ev c) c, log ++ forwarding ev c)).
Proof.
  intros Hf Hcond. unfold packet_in_handler. unfold filtered in Hf. rewrite Hf.
  unfold mbind, M_bind, bind, get_state, put_state. simpl.
  fold (learned ev c). rewrite lookup_out_port_learned. rewrite Hcond.
  unfold ret, add_flow, emit. simpl. by rewrite <- app_assoc.
Qed.

(** With the trigger, the handler learns, runs [Kruskal], then
    [block_links], sets the flag, and forwards; an exception on the way
    ends it there. *)
Lemma packet_in_trigger fuel api ev c log :
  filtered ev = false →
  out_port_of ev c = OFPP_FLOOD → MST_exist (topo c) = false →
  packet_in_handler fuel api (with_ethernet ev) (c, log)
  = match Kruskal fuel (topo c, log) with
    | (Raise ex, (t', log')) =>
        (Raise ex, (with_topo t' (with_mac_to_port (learned ev c) c), log'))
    | (Ret tree, (t', log')) =>
        match block_links api tree
                (with_topo t' (with_mac_to_port (learned ev c) c), log') with
        | (Raise ex, st) => (Raise ex, st)
        | (Ret _, (c2, log2)) =>
            (Ret tt, (with_topo (with_MST_exist true (topo c2)) c2,
                      log2 ++ forwarding ev c))
        end
    end.
Proof.
  intros Hf Hout Hflag. unfold packet_in_handler. unfold filtered in Hf. rewrite Hf.
  unfold mbind, M_bind, bind, get_state, put_state. simpl.
  fold (learned ev c). rewrite lookup_out_port_learned. rewrite Hout, Hflag.
  rewrite bool_decide_eq_true_2 by done. simpl.
  unfold on_topo, focus. simpl.
  destruct (Kruskal fuel (topo c, log)) as [[tree | ex] [t' log']]; [| done].
  destruct (block_links api tree _) as [[[] | ex] [c2 log2]]; [| done].
  unfold forwarding, ret, add_flow, emit. rewrite Hout. simpl.
  by rewrite <- app_assoc.
Qed.
End packet_in.

(** * The orchestrator *)

Section orchestrator.
Implicit Types (c : KruskalController) (log msgs : list Effect) (ev : PacketIn)
               (api : TopologyAPI) (fuel : nat) (t : Topo)
               (st : KruskalController * list Effect).


(** [Kruskal] changes the disjoint-set only.  It draws the tree when it
    returns; when it raises, the figure is as before, or cleared and
    titled when the exception is the [NetworkXError] of [draw_tree]. *)
Lemma Kruskal_state fuel t log :
  ∃ s' msgs,
    (Kruskal fuel (t, log)).2 = (with_set s' t, log ++ msgs)
    ∧ match (Kruskal fuel (t, log)).1 with
      | Ret tree => msgs = tree_drawn tree ∧ has_positions t
      | Raise ex =>
          msgs = []
          ∨ (msgs = tree_not_drawn ∧ ex = NetworkXError ∧ ¬ has_positions t)
      end.
Proof.
  destruct (Kruskal_loop_state fuel (sorted_by_weight (edges t)) [] t) as [s' Hs'].
  rewrite Kruskal_unfold.
  destruct (Kruskal_loop fuel (sorted_by_weight (edges t)) [] t) as [[tree | ex] t'];
    simpl in Hs'; subst t'.
  - rewrite Kruskal_ends_with_set. case_bool_decide.
    + by exists s', (tree_drawn tree).
    + exists s', tree_not_drawn. split; [done |]. by right.
  - exists s', []. rewrite app_nil_r. split; [done |]. by left.
Qed.

Lemma block_links_state api excepts c log :
  ∃ o pm, block_links api excepts (c, log) = (o, (c, log ++ pm))
        ∧ Forall is_port_mod pm.
Proof.
  destruct (block_links_frame api excepts (edges (topo c)) (datapaths c))
    as (o & pm & Hpm & H).
  exists o, pm. split; [by apply H | done].
Qed.

Lemma packet_in_without_ethernet fuel api datapath in_port buffer_id data st :
  packet_in_handler fuel api (without_ethernet datapath in_port buffer_id data) st
  = (Raise AttributeError, st).
Proof. done. Qed.

(** The ways of a frame through the handler: filtered; forwarded
    without the trigger; a trigger in which [Kruskal] raises; a trigger
    in which [Kruskal] returns and [block_links] runs. *)
Lemma packet_in_cases fuel api ev c log :
  (filtered ev = true
   ∧ packet_in_handler fuel api (with_ethernet ev) (c, log) = (Ret tt, (c, log)))
  ∨ (filtered ev = false
     ∧ (out_port_of ev c ≠ OFPP_FLOOD ∨ MST_exist (topo c) = true)
     ∧ packet_in_handler fuel api (with_ethernet ev) (c, log)
       = (Ret tt, (with_mac_to_port (learned ev c) c, log ++ forwarding ev c)))
  ∨ (filtered ev = false ∧ out_port_of ev c = OFPP_FLOOD
     ∧ MST_exist (topo c) = false
     ∧ ∃ s' ex msgs,
         let c1 := with_topo (with_set s' (topo c))
                     (with_mac_to_port (learned ev c) c) in
         Kruskal fuel (topo c, log)
         = (Raise ex, (with_set s' (topo c), log ++ msgs))
         ∧ (msgs = []
            ∨ (msgs = tree_not_drawn ∧ ex = NetworkXError
               ∧ ¬ has_positions (topo c)))
         ∧ packet_in_handler fuel api (with_ethernet ev) (c, log)
           = (Raise ex, (c1, log ++ msgs)))
  ∨ (filtered ev = false ∧ out_port_of ev c = OFPP_FLOOD
     ∧ MST_exist (topo c) = false
     ∧ ∃ s' tree o pm,
         let c1 := with_topo (with_set s' (topo c))
                     (with_mac_to_port (learned ev c) c) in
         Kruskal fuel (topo c, log)
         = (Ret tree, (with_set s' (topo c), log ++ tree_drawn tree))
         ∧ has_positions (topo c)
         ∧ Forall is_port_mod pm
         ∧ block_links api tree (c1, log ++ tree_drawn tree)
           = (o, (c1, (log ++ tree_drawn tree) ++ pm))
         ∧ packet_in_handler fuel api (with_ethernet ev) (c, log)
           = match o with
             | Raise ex => (Raise ex, (c1, (log ++ tree_drawn tree) ++ pm))
             | Ret _ =>
                 (Ret tt, (with_topo (with_MST_exist true (topo c1)) c1,
                           ((log ++ tree_drawn tree) ++ pm) ++ forwarding ev c))
             end).
Proof.
  destruct (filtered ev) eqn:Hf.
  { left. by rewrite packet_in_filtered. }
  right.
  destruct (bool_decide (out_port_of ev c = OFPP_FLOOD) && negb (MST_exist (topo c)))
    eqn:Hcond.
  - right.
    apply andb_true_iff in Hcond as [Hout%bool_decide_eq_true Hflag%negb_true_iff].
    rewrite packet_in_trigger by done.
    destruct (Kruskal_state fuel (topo c) log) as (s' & msgs & Hst & Hout').
    destruct (Kruskal fuel (topo c, log)) as [[tree | ex] [t' log']];
      simpl in Hst, Hout'; injection Hst as -> ->.
    + right. do 3 (split; [done |]). destruct Hout' as [-> Hpos].
      destruct (block_links_state api tree
                  (with_topo (with_set s' (topo c))
                     (with_mac_to_port (learned ev c) c))
                  (log ++ tree_drawn tree)) as (o & pm & Hbl & Hpm).
      exists s', tree, o, pm. simpl. do 4 (split; [done |]).
      rewrite Hbl. by destruct o as [[] |].
    + left. do 3 (split; [done |]). by exists s', ex, msgs.
  - left. split; [done |]. split; [| by rewrite packet_in_forward].
    apply andb_false_iff in Hcond as [H%bool_decide_eq_false | H%negb_false_iff];
      auto.
Qed.

(** What the handler leaves in the MAC table. *)
Lemma packet_in_mac_to_port fuel api ev c log :
  mac_to_port (packet_in_handler fuel api (with_ethernet ev) (c, log)).2.1
  = if filtered ev then mac_to_port c else learned ev c.
Proof.
  destruct (packet_in_cases fuel api ev c log)
    as [[Hf Hrun] | [(Hf & _ & Hrun) | [(Hf & _ & _ & s' & ex & msgs & _ & _ & Hrun)
       | (Hf & _ & _ & s' & tree & o & pm & _ & _ & _ & _ & Hrun)]]];
    rewrite Hrun, Hf; try done.
  by destruct o as [[] |].
Qed.

(** Without a flood decision, or once the tree exists, the handler
    keeps the topology and the datapaths, and appends neither an effect
    of [draw_tree] nor a port modification.  It returns, unless the
    event has no Ethernet header. *)
Lemma packet_in_calm fuel api event c log :
  floods_event event c && negb (MST_exist (topo c)) = false →
  ∃ c' msgs,
    packet_in_handler fuel api event (c, log)
    = (match event with
       | with_ethernet _ => Ret tt
       | without_ethernet _ _ _ _ => Raise AttributeError
       end, (c', log ++ msgs))
    ∧ topo c' = topo c ∧ Forall is_quiet msgs.
Proof.
  intros Hcalm. destruct event as [ev | datapath in_port buffer_id data].
  - simpl in Hcalm. destruct (filtered ev) eqn:Hf.
    + exists c, []. rewrite packet_in_filtered, app_nil_r by done. by repeat split.
    + exists (with_mac_to_port (learned ev c) c), (forwarding ev c).
      rewrite packet_in_forward; [| done |].
      * split; [done |]. split; [done |]. repeat constructor; by intros [].
      * unfold floods in Hcalm. by rewrite Hf in Hcalm.
  - exists c, []. rewrite packet_in_without_ethernet, app_nil_r. by repeat split.
Qed.

End orchestrator.

(** * The MAC-learning table *)

(** C9.  A rebuild leaves the MAC-learning table exactly as it was.  A
    packet-in, whatever the event and its outcome, removes no entry: an
    entry that was there is still there afterwards, with its port unless
    the frame came from that very switch and MAC (the handler then
    overwrites the port with the ingress port of the frame). *)
Theorem mac_table_survives fuel api rand api' event c log d mac p tbl :
  mac_to_port c !! d = Some tbl → tbl !! mac = Some p →
  mac_to_port (switch_enter_handler api rand (c, log)).2.1 = mac_to_port c
  ∧ ∃ tbl' p',
      mac_to_port (packet_in_handler fuel api' event (c, log)).2.1 !! d = Some tbl'
      ∧ tbl' !! mac = Some p'
      ∧ (match event with
         | with_ethernet ev => (d, mac) ≠ (dp_id (pi_datapath ev), eth_src ev)
         | without_ethernet _ _ _ _ => True
         end → p' = p).
Proof.
  intros Hd Hmac. split; [by rewrite switch_enter_handler_run |].
  destruct event as [ev | datapath in_port buffer_id data];
    [| by exists tbl, p].
  rewrite packet_in_mac_to_port. destruct (filtered ev); [by exists tbl, p |].
  unfold learned, learn.
  destruct (decide (d = dp_id (pi_datapath ev))) as [-> | Hne].
  - rewrite lookup_insert_eq, Hd. simpl.
    destruct (decide (mac = eth_src ev)) as [-> | Hne].
    + eexists _, _. split; [done |]. split; [apply lookup_insert_eq | done].
    + eexists _, _. split; [done |].
      split; [by rewrite lookup_insert_ne | done].
  - rewrite lookup_insert_ne by done. by exists tbl, p.
Qed.

Lemma mac_table_survives_witness :
  mac_to_port (switch_enter_handler scenario_A_api scenario_A_rand
                 (with_mac_to_port {[ 1 := {[ "cc" := 7 ]} ]} scenario_A.1, [])).2.1
  = mac_to_port (with_mac_to_port {[ 1 := {[ "cc" := 7 ]} ]} scenario_A.1)
  ∧ ∃ tbl' p',
      mac_to_port (packet_in_handler 5 scenario_A_api (with_ethernet scenario_A_flood)
                     (with_mac_to_port {[ 1 := {[ "cc" := 7 ]} ]} scenario_A.1, [])).2.1
        !! 1 = Some tbl'
      ∧ tbl' !! "cc" = Some p'
      ∧ ((1, "cc") ≠ (dp_id (pi_datapath scenario_A_flood), eth_src scenario_A_flood)
         → p' = 7).
Proof.
  apply (mac_table_survives 5 scenario_A_api scenario_A_rand scenario_A_api
           (with_ethernet scenario_A_flood)
           (with_mac_to_port {[ 1 := {[ "cc" := 7 ]} ]} scenario_A.1) []
           1 "cc" 7 {[ "cc" := 7 ]}).
  - by vm_compute.
  - by vm_compute.
Defined.

(** * One topology generation *)

Section generation.
Implicit Types (c : KruskalController) (log msgs : list Effect) (ev : PacketIn)
               (api : TopologyAPI) (fuel : nat)
               (st : KruskalController * list Effect).

Lemma MST_exist_add_nodes_from ns t :
  MST_exist (add_nodes_from ns t) = MST_exist t.
Proof.
  unfold add_nodes_from. revert t.
  induction ns as [| [n prts] ns IH]; intros t; [done |]. simpl. by rewrite IH.
Qed.

Lemma MST_exist_add_links rand links :
  ∀ tk : Topo * nat, MST_exist (add_links rand links tk).1 = MST_exist tk.1.
Proof.
  unfold add_links. induction links as [| k links IH]; intros [t j]; [done |].
  cbn [foldl]. rewrite IH. unfold add_link.
  destruct (if has_edge _ _ t then _ else _) as [w j']. simpl.
  unfold touch_node. by repeat case_match.
Qed.


End generation.



(** The same on scenario B, where the ids are within the count: the
    handler of a frame with unknown destination runs [Kruskal], which
    ends in [NetworkXError] once the figure is cleared and titled, the
    layout being the empty one of [Topo()].  No port modification is
    sent, the flag stays down, and the next such frame runs [Kruskal]
    again. *)
Lemma scenario_B_floods_twice :
  let r1 := packet_in_handler 3 scenario_B_api (with_ethernet scenario_A_flood)
              scenario_B in
  let r2 := packet_in_handler 3 scenario_B_api (with_ethernet scenario_A_flood2)
              r1.2 in
  MST_exist (topo scenario_B.1) = false ∧ scenario_B.2 = []
  ∧ floods scenario_A_flood scenario_B.1 = true
  ∧ r1.1 = Raise NetworkXError
  ∧ r1.2.2 = tree_not_drawn
  ∧ MST_exist (topo r1.2.1) = false
  ∧ floods scenario_A_flood2 r1.2.1 = true
  ∧ r2.1 = Raise NetworkXError
  ∧ r2.2.2 = tree_not_drawn ++ tree_not_drawn
  ∧ MST_exist (topo r2.2.1) = false.
Proof. cbv zeta. repeat split; by vm_compute. Qed.

(** * Further properties of the disjoint-set *)

Section UnionFindSet_more.
Implicit Types (l : list Z) (s : UnionFindSet) (x y r p : Z) (fuel : nat).

Lemma fa_setitem_shape x v s o s' :
  fa_setitem x v s = (o, s') →
  length (fa s') = length (fa s) ∧ size s' = size s.
Proof.
  unfold fa_setitem. destruct (py_index _ _); intros [= <- <-]; [| done].
  simpl. by rewrite length_insert.
Qed.

(** [find] never resizes the array and never touches [size], whatever
    the state and the outcome. *)
Lemma find_shape fuel :
  ∀ x s, length (fa (find fuel x s).2) = length (fa s)
         ∧ size (find fuel x s).2 = size s.
Proof.
  induction fuel as [| fuel IH]; intros x s; [done |].
  rewrite find_S. unfold mbind, M_bind, bind.
  destruct (fa_getitem x s) as [[p | ex] s0] eqn:Hg;
    pose proof (fa_getitem_inv _ _ _ _ Hg) as ->; [| done].
  case_bool_decide.
  - rewrite Hg. specialize (IH p s).
    destruct (find fuel p s) as [[r | ex] s1]; [| done]. simpl in IH.
    destruct (fa_setitem x r s1) as [[[] | ex] s2] eqn:Hs;
      destruct (fa_setitem_shape _ _ _ _ _ Hs) as [Hl Hz].
    + destruct (fa_getitem x s2) as [o s3] eqn:Hg2.
      pose proof (fa_getitem_inv _ _ _ _ Hg2) as ->. simpl.
      destruct IH. split; congruence.
    + simpl. destruct IH. split; congruence.
  - unfold ret. by rewrite Hg.
Qed.

Lemma union_shape fuel x y s :
  length (fa (union fuel x y s).2) = length (fa s)
  ∧ size (union fuel x y s).2 = size s.
Proof.
  unfold union, mbind, M_bind, bind.
  pose proof (find_shape fuel x s) as Hx.
  destruct (find fuel x s) as [[x' | ex] s1]; [| done]. simpl in Hx.
  pose proof (find_shape fuel y s1) as Hy.
  destruct (find fuel y s1) as [[y' | ex] s2]; simpl in Hy;
    [| destruct Hx, Hy; split; simpl; congruence].
  case_bool_decide.
  - destruct (fa_setitem y' x' s2) as [o s3] eqn:Hs.
    destruct (fa_setitem_shape _ _ _ _ _ Hs). destruct Hx, Hy. split; simpl; congruence.
  - destruct Hx, Hy. split; simpl; congruence.
Qed.

(** X1.  Whatever the state of the disjoint-set, the ids and the outcome,
    [find], [union] and a whole history of them leave the parent array
    at its length and the [size] field at its value. *)
Theorem history_keeps_shape fuel ops s :
  length (fa (for_each (run_op fuel) ops s).2) = length (fa s)
  ∧ size (for_each (run_op fuel) ops s).2 = size s.
Proof.
  revert s. induction ops as [| o ops IH]; intros s; [done |].
  cbn [for_each]. unfold mbind, M_bind, bind.
  assert (length (fa (run_op fuel o s).2) = length (fa s)
          ∧ size (run_op fuel o s).2 = size s) as Hstep.
  { destruct o as [x | x y]; [| apply union_shape].
    pose proof (find_shape fuel x s) as Hx.
    cbn [run_op]. unfold mbind, M_bind, bind.
    by destruct (find fuel x s) as [[r | ex] s1]. }
  destruct (run_op fuel o s) as [[[] | ex] s1]; [| done].
  simpl in Hstep. destruct Hstep, (IH s1). split; congruence.
Qed.

(** X2.  What [find] returns is a root: when the parent array holds no
    negative entry and [find x] returns [r] for an id [x >= 0], then
    following the parents from [x] reaches the self-pointing slot [r],
    in fewer steps than the fuel. *)
Theorem find_returns_root fuel :
  ∀ l sz x r s',
    Forall (λ v, 0 ≤ v) l → 0 ≤ x →
    find fuel x (mkUnionFindSet l sz) = (Ret r, s') →
    ∃ d, (d < fuel)%nat ∧ root_of l x r d.
Proof.
  induction fuel as [| fuel IH]; intros l sz x r s' Hnn Hx Hfind; [done |].
  rewrite find_S in Hfind. unfold mbind, M_bind, bind in Hfind.
  destruct (fa_getitem x (mkUnionFindSet l sz)) as [[p | ex] s0] eqn:Hg;
    pose proof (fa_getitem_inv _ _ _ _ Hg) as ->; [| done].
  assert (l !! Z.to_nat x = Some p) as Hl.
  { revert Hg. unfold fa_getitem, py_index. simpl.
    destruct (decide (x < Z.of_nat (length l))).
    - rewrite bool_decide_eq_true_2 by lia.
      destruct (l !! Z.to_nat x); [by intros [= ->] | done].
    - by rewrite !bool_decide_eq_false_2 by lia. }
  case_bool_decide as Hp.
  - rewrite Hg in Hfind.
    assert (0 ≤ p) as Hp0.
    { rewrite Forall_forall in Hnn. apply Hnn. by eapply list_elem_of_lookup_2. }
    pose proof (find_shape fuel p (mkUnionFindSet l sz)) as [Hlen _].
    destruct (find fuel p (mkUnionFindSet l sz)) as [[r1 | ex] [l1 sz1]] eqn:Hf;
      [| done].
    simpl in Hlen.
    destruct (IH _ _ _ _ _ Hnn Hp0 Hf) as (d & Hd & Hr).
    rewrite fa_setitem_Some in Hfind
      by (done || rewrite Hlen; by eapply lookup_lt_Some).
    rewrite (fa_getitem_Some _ _ _ r1) in Hfind;
      [| done | apply list_lookup_insert_eq; rewrite Hlen; by eapply lookup_lt_Some].
    injection Hfind as -> _.
    exists (S d). split; [lia |]. by eapply root_up.
  - unfold ret in Hfind. rewrite Hg in Hfind. injection Hfind as <- _.
    assert (p = x) as -> by (by destruct (decide (p = x))).
    exists O. split; [lia |]. by constructor.
Qed.

(** X3.  On a parent array whose entries are all valid slots, an id from
    which no root is reached (the parents run into a cycle) makes [find]
    use up any fuel: the call ends in [RecursionError], and the array is
    as before. *)
Theorem find_on_cycle fuel :
  ∀ l sz x,
    Forall (λ v, 0 ≤ v < Z.of_nat (length l)) l →
    0 ≤ x < Z.of_nat (length l) →
    (∀ r d, ¬ root_of l x r d) →
    find fuel x (mkUnionFindSet l sz) = (Raise RecursionError, mkUnionFindSet l sz).
Proof.
  induction fuel as [| fuel IH]; intros l sz x Hvalid Hx Hno; [done |].
  destruct (lookup_lt_is_Some_2 l (Z.to_nat x)) as [p Hl]; [lia |].
  assert (0 ≤ p < Z.of_nat (length l)) as Hp.
  { rewrite Forall_forall in Hvalid. apply Hvalid. by eapply list_elem_of_lookup_2. }
  assert (p ≠ x) as Hpx.
  { intros ->. apply (Hno x O). constructor; [lia | done]. }
  rewrite find_S. unfold mbind, M_bind, bind.
  rewrite (fa_getitem_Some _ _ _ p) by (done || lia).
  rewrite bool_decide_eq_true_2 by done.
  rewrite (fa_getitem_Some _ _ _ p) by (done || lia).
  rewrite IH; [done | done | done |].
  intros r d Hr. apply (Hno r (S d)). eapply root_up; [lia | done | done | done].
Qed.

(** X4.  [union x y] hangs the root of [y] under the root of [x]: every
    id whose root was the root of [y] gets the root of [x] as its root,
    and every other id keeps its root. *)
Theorem union_hangs_second_under_first fuel l sz x y rx ry dx dy :
  root_of l x rx dx → root_of l y ry dy → (dx < fuel)%nat → (dy < fuel)%nat →
  ∃ l', union fuel x y (mkUnionFindSet l sz) = (Ret tt, mkUnionFindSet l' sz)
      ∧ ∀ z rz d, root_of l z rz d →
          ∃ d', root_of l' z (if decide (rz = ry) then rx else rz) d'.
Proof.
  intros Hx Hy Hdx Hdy.
  destruct (find_root l sz x rx dx fuel Hx Hdx) as (l1 & Hf1 & _ & _ & Hp1).
  destruct (Hp1 _ _ _ Hy) as (dy1 & Hdy1 & Hy1).
  destruct (find_root l1 sz y ry dy1 fuel Hy1 ltac:(lia)) as (l2 & Hf2 & _ & _ & Hp2).
  destruct (Hp1 _ _ _ Hx) as (dx1 & _ & Hx1).
  destruct (Hp2 _ _ _ Hx1) as (dx2 & _ & Hx2).
  destruct (Hp2 _ _ _ Hy1) as (dy2 & _ & Hy2).
  destruct (root_of_root _ _ _ _ Hx2) as [Hrx0 Hrxl].
  destruct (root_of_root _ _ _ _ Hy2) as [Hry0 Hryl].
  unfold union, mbind, M_bind, bind. rewrite Hf1, Hf2.
  destruct (decide (rx = ry)) as [-> | Hne].
  - rewrite bool_decide_eq_false_2 by (intros ?; done).
    exists l2. split; [done |]. intros z rz d Hz.
    destruct (Hp1 _ _ _ Hz) as (d1 & _ & Hz1).
    destruct (Hp2 _ _ _ Hz1) as (d2 & _ & Hz2).
    exists d2. by case_decide; subst.
  - rewrite bool_decide_eq_true_2 by done.
    rewrite fa_setitem_Some by (done || by eapply lookup_lt_Some).
    eexists. split; [done |]. intros z rz d Hz.
    destruct (Hp1 _ _ _ Hz) as (d1 & _ & Hz1).
    destruct (Hp2 _ _ _ Hz1) as (d2 & _ & Hz2).
    eexists. by apply root_of_link.
Qed.
End UnionFindSet_more.

Lemma find_returns_root_witness :
  ∃ d, (d < 3)%nat ∧ root_of [0; 1; 1; 2] 3 1 d.
Proof.
  apply (find_returns_root 3 [0; 1; 1; 2] 3 3 1 (mkUnionFindSet [0; 1; 1; 1] 3)).
  - repeat constructor; lia.
  - lia.
  - reflexivity.
Defined.

Lemma find_on_cycle_witness :
  find 7 1 (mkUnionFindSet [0; 2; 1] 2)
  = (Raise RecursionError, mkUnionFindSet [0; 2; 1] 2).
Proof.
  apply (find_on_cycle 7 [0; 2; 1] 2 1).
  - repeat constructor; simpl; lia.
  - simpl. lia.
  - assert (∀ x r d, root_of [0; 2; 1] x r d → x ≠ 1 ∧ x ≠ 2) as Hinv.
    { intros x r d. induction 1 as [x Hx Hl | x p r d Hx Hl Hp _ IH].
      - split; intros ->; simpl in Hl; by simplify_eq.
      - split; intros ->; simpl in Hl; simplify_eq; lia. }
    intros r d Hr. by destruct (Hinv _ _ _ Hr).
Defined.

Lemma union_hangs_second_under_first_witness :
  ∃ l', union 3 3 4 (mkUnionFindSet [0; 1; 1; 2; 4] 4) = (Ret tt, mkUnionFindSet l' 4)
      ∧ ∀ z rz d, root_of [0; 1; 1; 2; 4] z rz d →
          ∃ d', root_of l' z (if decide (rz = 4) then 1 else rz) d'.
Proof.
  apply (union_hangs_second_under_first 3 [0; 1; 1; 2; 4] 4 3 4 1 4 2 0).
  - eapply root_up; [lia | reflexivity | lia |].
    eapply root_up; [lia | reflexivity | lia |]. by constructor.
  - by constructor.
  - lia.
  - lia.
Defined.

(** * Further properties of [Kruskal] *)

Section Kruskal_more.
Implicit Types (t : Topo) (n : Z) (fuel : nat) (log : list Effect)
               (es : list Edge) (acc tree : list (Z * Z)).

(** Whatever the disjoint-set, the loop only ever appends endpoints of
    edges it is given, in their order. *)
Lemma Kruskal_loop_sublist fuel es :
  ∀ acc t tree t',
    Kruskal_loop fuel es acc t = (Ret tree, t') →
    ∃ picks, tree = acc ++ picks ∧ picks `sublist_of` es.*1.
Proof.
  induction es as [| e es IH]; intros acc t tree t' Hrun.
  - injection Hrun as <- _. exists []. by rewrite app_nil_r.
  - cbn [Kruskal_loop] in Hrun. unfold mbind, M_bind, bind in Hrun.
    destruct (on_set (find fuel e.1.1) t) as [[a | ex] t1]; [| done].
    destruct (on_set (find fuel e.1.2) t1) as [[b | ex] t2]; [| done].
    rewrite fmap_cons. case_bool_decide.
    + destruct (on_set (union fuel e.1.1 e.1.2) t2) as [[[] | ex] t3]; [| done].
      destruct (IH _ _ _ _ Hrun) as (picks & -> & Hsub).
      exists ((e.1.1, e.1.2) :: picks). rewrite <- app_assoc. split; [done |].
      destruct e as [[u v] d]. by apply sublist_skip.
    + destruct (IH _ _ _ _ Hrun) as (picks & -> & Hsub).
      exists picks. split; [done |]. by apply sublist_cons.
Qed.

(** X5.  Whatever the topology, its disjoint-set and the outcome,
    [Kruskal] changes nothing of the topology but the disjoint-set: the
    nodes, the edges with their data, the flag and the layout stay.
    When it returns, every node has a position, the figure has been
    cleared, titled and drawn once, with the tree it returns, and that
    tree lists endpoints of edges of the graph, in the order of the sort.
    When it raises, either the figure is untouched, or the exception is
    the [NetworkXError] of [nx.draw], some node has no position, and the
    figure is left cleared and titled, without the graph. *)
Theorem Kruskal_changes_only_the_set fuel t log :
  _node (Kruskal fuel (t, log)).2.1 = _node t
  ∧ _adj (Kruskal fuel (t, log)).2.1 = _adj t
  ∧ MST_exist (Kruskal fuel (t, log)).2.1 = MST_exist t
  ∧ pos (Kruskal fuel (t, log)).2.1 = pos t
  ∧ match (Kruskal fuel (t, log)).1 with
    | Ret tree =>
        has_positions t
        ∧ (Kruskal fuel (t, log)).2.2 = log ++ tree_drawn tree
        ∧ tree `sublist_of` (sorted_by_weight (edges t)).*1
    | Raise ex =>
        (Kruskal fuel (t, log)).2.2 = log
        ∨ (ex = NetworkXError ∧ ¬ has_positions t
           ∧ (Kruskal fuel (t, log)).2.2 = log ++ tree_not_drawn)
    end.
Proof.
  rewrite Kruskal_unfold.
  destruct (Kruskal_loop_state fuel (sorted_by_weight (edges t)) [] t) as [s' Hs'].
  destruct (Kruskal_loop fuel (sorted_by_weight (edges t)) [] t)
    as [[tree | ex] t'] eqn:Hloop; simpl in Hs'; subst t'.
  - rewrite Kruskal_ends_with_set. case_bool_decide.
    + do 4 (split; [done |]). split; [done |]. split; [done |].
      by destruct (Kruskal_loop_sublist _ _ _ _ _ _ Hloop) as (picks & -> & Hsub).
    + do 4 (split; [done |]). by right.
  - do 4 (split; [done |]). by left.
Qed.

Lemma Kruskal_loop_app fuel es1 es2 :
  ∀ acc t,
    Kruskal_loop fuel (es1 ++ es2) acc t
    = (acc' ← Kruskal_loop fuel es1 acc; Kruskal_loop fuel es2 acc') t.
Proof.
  induction es1 as [| e es1 IH]; intros acc t; [done |].
  cbn [app Kruskal_loop]. unfold mbind, M_bind, bind in *.
  destruct (on_set (find fuel e.1.1) t) as [[a | ex] t1]; [| done].
  destruct (on_set (find fuel e.1.2) t1) as [[b | ex] t2]; [| done].
  case_bool_decide; [| apply IH].
  destruct (on_set (union fuel e.1.1 e.1.2) t2) as [[[] | ex] t3]; [| done].
  apply IH.
Qed.

Lemma first_beyond n es :
  (∃ e, e ∈ es ∧ (n < e.1.1 ∨ n < e.1.2)) →
  ∃ pre e post, es = pre ++ e :: post
              ∧ (∀ e', e' ∈ pre → e'.1.1 ≤ n ∧ e'.1.2 ≤ n)
              ∧ (n < e.1.1 ∨ n < e.1.2).
Proof.
  induction es as [| a es IH]; intros (e & He & Hbad); [by apply elem_of_nil in He |].
  destruct (decide (n < a.1.1 ∨ n < a.1.2)) as [Ha | Ha].
  - exists [], a, es. split; [done |]. split; [| done].
    intros e' He'. by apply elem_of_nil in He'.
  - apply elem_of_cons in He as [-> | He]; [done |].
    destruct IH as (pre & e0 & post & -> & Hpre & He0); [by exists e |].
    exists (a :: pre), e0, post. split; [done |]. split; [| done].
    intros e' He'. apply elem_of_cons in He' as [-> | He']; [lia | by apply Hpre].
Qed.

(** X6.  The disjoint-set has one slot per discovered switch, so switch
    ids must not exceed the number of switches: when some edge has an
    endpoint above [n], [Kruskal] on the fresh disjoint-set of count [n]
    raises [IndexError], without touching the figure. *)
Theorem Kruskal_raises_beyond_count n fuel t log :
  0 ≤ n → set t = Some (UnionFindSet_init n) → (Z.to_nat (n + 1) ≤ fuel)%nat →
  (∀ e, e ∈ edges t → 0 ≤ e.1.1 ∧ 0 ≤ e.1.2) →
  (∃ e, e ∈ edges t ∧ (n < e.1.1 ∨ n < e.1.2)) →
  (Kruskal fuel (t, log)).1 = Raise IndexError
  ∧ (Kruskal fuel (t, log)).2.2 = log.
Proof.
  intros Hn Hset Hfuel Hnn Hbad.
  destruct (first_beyond n (sorted_by_weight (edges t)))
    as (pre & e & post & Hsplit & Hpre & He).
  { destruct Hbad as (e & He & Hbad). exists e. by rewrite sorted_by_weight_perm. }
  assert (∀ e', e' ∈ sorted_by_weight (edges t) → 0 ≤ e'.1.1 ∧ 0 ≤ e'.1.2) as Hnn'
    by (intros e'; rewrite sorted_by_weight_perm; apply Hnn).
  destruct (Kruskal_loop_greedy n fuel pre (fa (UnionFindSet_init n)) n [] [] t)
    as (K & l' & Hloop & _ & Hinv & _);
    [done | by apply uf_inv_init | | by rewrite init_length |].
  { intros e' He'. destruct (Hpre e' He'), (Hnn' e'); [rewrite Hsplit; elems | lia]. }
  assert (0 ≤ e.1.1 ∧ 0 ≤ e.1.2) as [He1 He2] by (apply Hnn'; rewrite Hsplit; elems).
  assert (length l' ≤ fuel)%nat as Hfuel' by (by rewrite (inv_len _ _ _ Hinv)).
  assert (∃ t', Kruskal_loop fuel (sorted_by_weight (edges t)) [] t
                = (Raise IndexError, t')) as [t' Hraise].
  { rewrite Hsplit, Kruskal_loop_app. unfold mbind, M_bind, bind. rewrite Hloop.
    cbn [Kruskal_loop]. unfold mbind, M_bind, bind.
    assert (∀ l1 x, length l1 = length l' → n < x →
                    find fuel x (mkUnionFindSet l1 n)
                    = (Raise IndexError, mkUnionFindSet l1 n)) as Hout.
    { intros l1 x Hl1 Hx. destruct fuel as [| fuel]; [lia |].
      rewrite find_S. unfold mbind, M_bind, bind, fa_getitem. simpl.
      rewrite py_index_out; [done |]. rewrite Hl1, (inv_len _ _ _ Hinv). lia. }
    destruct (decide (n < e.1.1)) as [Hbig | Hsmall].
    - rewrite (on_set_with_set _ _ _ _ _ (Hout l' e.1.1 eq_refl Hbig)). eauto.
    - destruct (find_inv n l' n _ e.1.1 fuel Hinv ltac:(lia) Hfuel')
        as (r & d & l1 & _ & Hf & Hc).
      rewrite (on_set_with_set _ _ _ _ _ Hf).
      destruct He as [? | Hbig]; [done |].
      rewrite (on_set_with_set _ _ _ _ _ (Hout l1 e.1.2 (proj1 Hc) Hbig)). eauto. }
  unfold Kruskal, mbind, M_bind, bind, get_state, quiet, focus. simpl.
  by rewrite Hraise.
Qed.

Lemma acyclic_simple (E : list (Z * Z)) :
  acyclic E →
  NoDup E ∧ (∀ u, (u, u) ∉ E) ∧ (∀ u v, (u, v) ∈ E → (v, u) ∉ E).
Proof.
  intros Hac.
  assert (∀ u, (u, u) ∉ E) as Hloop.
  { intros u Hin. apply list_elem_of_split in Hin as (E1 & E2 & ->).
    by apply (Hac E1 u u E2). }
  split; [| split; [done |]].
  - induction E as [| [a b] E IH]; [constructor |].
    constructor.
    + intros Hin. apply (acyclic_head _ _ _ Hac). by apply conn_edge.
    + apply IH; [by eapply acyclic_tail |].
      intros u Hin. apply (Hloop u). by right.
  - intros u v Huv Hvu.
    apply list_elem_of_split in Huv as (E1 & E2 & ->).
    apply (Hac E1 u v E2); [done |]. symmetry. apply conn_edge.
    revert Hvu. rewrite !elem_of_app, elem_of_cons.
    intros [? | [Heq | ?]]; [by left | | by right].
    injection Heq as -> _. destruct (Hloop u). elems.
Qed.

(** X7.  In the tree edge list that the loop of [Kruskal] builds for a
    graph over switches [1..n] (the list that [Kruskal] returns when
    [draw_tree] returns), no pair occurs twice, no pair joins a switch to
    itself, and no link occurs in both directions: of the two directed
    edges of a link at most one is a tree edge. *)
Theorem Kruskal_tree_one_direction n fuel t log :
  0 ≤ n → set t = Some (UnionFindSet_init n) →
  ids_in n (edges t).*1 → (Z.to_nat (n + 1) ≤ fuel)%nat →
  ∃ tree t',
    Kruskal_loop fuel (sorted_by_weight (edges t)) [] t = (Ret tree, t')
    ∧ Kruskal fuel (t, log)
      = (if bool_decide (has_positions t)
         then (Ret tree, (t', log ++ tree_drawn tree))
         else (Raise NetworkXError, (t', log ++ tree_not_drawn)))
    ∧ NoDup tree
    ∧ (∀ u, (u, u) ∉ tree)
    ∧ (∀ u v, (u, v) ∈ tree → (v, u) ∉ tree).
Proof.
  intros Hn Hset Hids Hfuel.
  destruct (Kruskal_run n fuel t log Hn Hset Hids Hfuel)
    as (K & l' & Hloop & HK & Hg & Hinv & Hnr).
  eexists _, _. split; [done |]. split; [done |]. apply acyclic_simple.
  eapply tight_acyclic; [done | | by rewrite length_fmap].
  intros a b Hab. apply list_elem_of_fmap in Hab as (e & He & Hin).
  destruct (Hids a b) as [??]; [| lia].
  apply list_elem_of_fmap. exists e. split; [done |]. by apply (greedy_subseteq t K).
Qed.

(** X8.  The order in which the loop of [Kruskal] sees the edges: a
    rearrangement of [edges], ascending by weight, in which edges of
    equal weight keep the order they have in [edges]. *)
Theorem sorted_by_weight_is_stable_sort (l : list Edge) :
  sorted_by_weight l ≡ₚ l
  ∧ StronglySorted weight_le (sorted_by_weight l)
  ∧ ∀ w : Z, filter (λ e, e_weight e = w) (sorted_by_weight l)
             = filter (λ e, e_weight e = w) l.
Proof.
  split; [apply sorted_by_weight_perm |].
  split; [apply sorted_by_weight_sorted |].
  intros w. apply sorted_by_weight_stable.
Qed.
End Kruskal_more.

Lemma Kruskal_raises_beyond_count_witness :
  (Kruskal 3 (topo scenario_E.1, [])).1 = Raise IndexError
  ∧ (Kruskal 3 (topo scenario_E.1, [])).2.2 = [].
Proof.
  apply (Kruskal_raises_beyond_count 2 3 (topo scenario_E.1) []).
  - lia.
  - reflexivity.
  - simpl. lia.
  - apply (Forall_forall (λ e : Edge, 0 ≤ e.1.1 ∧ 0 ≤ e.1.2)).
    apply (bool_decide_unpack _). by vm_compute.
  - exists (1, 5, {| src_port := 1; dst_port := 1; weight := 5 |}).
    split; [vm_compute; left | simpl; lia].
Defined.

Lemma Kruskal_tree_one_direction_witness :
  ∃ tree t',
    Kruskal_loop 5 (sorted_by_weight (edges scenario_A_topo)) [] scenario_A_topo
    = (Ret tree, t')
    ∧ Kruskal 5 (scenario_A_topo, [])
      = (if bool_decide (has_positions scenario_A_topo)
         then (Ret tree, (t', [] ++ tree_drawn tree))
         else (Raise NetworkXError, (t', [] ++ tree_not_drawn)))
    ∧ NoDup tree
    ∧ (∀ u, (u, u) ∉ tree)
    ∧ (∀ u v, (u, v) ∈ tree → (v, u) ∉ tree).
Proof.
  apply (Kruskal_tree_one_direction 4 5 scenario_A_topo []).
  - lia.
  - reflexivity.
  - exact scenario_A_ids.
  - simpl. lia.
Defined.

(** * Further properties of the rebuild *)

Section dictionaries.
Context {V : Type}.
Implicit Types (m : list (Z * V)) (k : Z) (x : V).

Lemma od_get_None m k : od_get k m = None ↔ k ∉ m.*1.
Proof.
  induction m as [| [k' x'] m IH]; cbn [od_get].
  - split; [intros _; apply not_elem_of_nil | done].
  - rewrite fmap_cons, not_elem_of_cons. case_bool_decide as Hk; cbn [fst].
    + split; [done | intros [? _]; by subst].
    + rewrite IH. split; [by intros; split | tauto].
Qed.

Lemma od_get_Some_elem m k x : od_get k m = Some x → (k, x) ∈ m.
Proof.
  induction m as [| [k' x'] m IH]; cbn [od_get]; [done |].
  case_bool_decide as Hk; [intros [= ->]; subst; left | right; by apply IH].
Qed.

Lemma od_set_keys m k x :
  (od_set k x m).*1 = if decide (k ∈ m.*1) then m.*1 else m.*1 ++ [k].
Proof.
  induction m as [| [k' x'] m IH]; cbn [od_set].
  - rewrite decide_False; [done | apply not_elem_of_nil].
  - case_bool_decide as Hk; rewrite !fmap_cons; cbn [fst].
    + subst k'. rewrite decide_True; [done | left].
    + rewrite IH. destruct (decide (k ∈ m.*1)) as [Hin | Hin].
      * rewrite decide_True; [done | by right].
      * rewrite decide_False; [done |].
        rewrite not_elem_of_cons. split; [by intros -> | done].
Qed.

Lemma od_set_NoDup m k x : NoDup m.*1 → NoDup (od_set k x m).*1.
Proof.
  intros Hnd. rewrite od_set_keys. case_decide; [done |].
  apply NoDup_app. split; [done |]. split; [| apply NoDup_singleton].
  intros k' Hk' ->%list_elem_of_singleton. done.
Qed.

Lemma elem_of_od_set m k x k' x' :
  (k', x') ∈ od_set k x m → (k' = k ∧ x' = x) ∨ (k', x') ∈ m.
Proof.
  induction m as [| [k0 x0] m IH]; cbn [od_set].
  - intros Hin%list_elem_of_singleton. left. by simplify_eq.
  - case_bool_decide as Hk; rewrite !elem_of_cons.
    + subst k0. intros [Heq | Hin]; [left; by simplify_eq | right; by right].
    + intros [Heq | Hin]; [right; by left |].
      destruct (IH Hin) as [? | ?]; [by left | right; by right].
Qed.
End dictionaries.

Section rebuild_more.
Implicit Types (t : Topo) (u v a b : Z) (d : EdgeData) (api : TopologyAPI)
               (rand : nat → Z) (links : list Link).

Lemma topo_wf_touch_node n t : topo_wf t → topo_wf (touch_node n t).
Proof.
  intros [Hnd Hnbrs]. unfold touch_node.
  destruct (od_get n (_adj t)) eqn:Hn; [done |]. split; simpl.
  - by apply od_set_NoDup.
  - intros n' nbrs Hin. apply elem_of_od_set in Hin as [[-> ->] | Hin].
    + constructor.
    + by eapply Hnbrs.
Qed.

Lemma topo_wf_add_edge u v d t : topo_wf t → topo_wf (add_edge u v d t).
Proof.
  intros Hwf. unfold add_edge.
  set (t1 := touch_node v (touch_node u t)).
  assert (topo_wf t1) as [Hnd Hnbrs] by (by do 2 apply topo_wf_touch_node).
  split; simpl.
  - by apply od_set_NoDup.
  - intros n' nbrs Hin. apply elem_of_od_set in Hin as [[-> ->] | Hin].
    + apply od_set_NoDup. destruct (od_get u (_adj t1)) as [nbrs |] eqn:Hu; simpl.
      * eapply Hnbrs. by apply od_get_Some_elem.
      * constructor.
    + by eapply Hnbrs.
Qed.

Lemma topo_wf_add_node n prts t : topo_wf t → topo_wf (add_node n prts t).
Proof.
  intros [Hnd Hnbrs]. unfold add_node. split; simpl.
  - destruct (od_get n (_adj t)); [done | by apply od_set_NoDup].
  - intros n' nbrs Hin. destruct (od_get n (_adj t)); [by eapply Hnbrs |].
    apply elem_of_od_set in Hin as [[-> ->] | Hin]; [constructor | by eapply Hnbrs].
Qed.

Lemma topo_wf_add_nodes_from ns t : topo_wf t → topo_wf (add_nodes_from ns t).
Proof.
  unfold add_nodes_from. revert t.
  induction ns as [| [n prts] ns IH]; intros t Hwf; [done |].
  simpl. by apply IH, topo_wf_add_node.
Qed.

Lemma add_link_fst rand link t k :
  ∃ w, (add_link rand link (t, k)).1
       = add_edge (dpid (src link)) (dpid (dst link))
           {| src_port := port_no (src link); dst_port := port_no (dst link);
              weight := w |} t
     ∧ (w = rand k
        ∨ ∃ d0, edge_data (dpid (dst link)) (dpid (src link)) t = Some d0
                ∧ w = weight d0).
Proof.
  destruct (edge_data (dpid (dst link)) (dpid (src link)) t) as [d0 |] eqn:Hd.
  - rewrite (add_link_copy _ _ _ _ _ Hd). eexists. split; [done |]. right. eauto.
  - rewrite (add_link_sample _ _ _ _ Hd). eexists. split; [done |]. by left.
Qed.

Lemma topo_wf_add_links rand links :
  ∀ tk : Topo * nat, topo_wf tk.1 → topo_wf (add_links rand links tk).1.
Proof.
  unfold add_links. induction links as [| link links IH]; intros [t k] Hwf; [done |].
  cbn [foldl]. apply IH.
  destruct (add_link_fst rand link t k) as (w & -> & _). by apply topo_wf_add_edge.
Qed.

Lemma set_add_edge u v d t : set (add_edge u v d t) = set t.
Proof. unfold add_edge, touch_node. simpl. by repeat case_match. Qed.

Lemma set_add_links rand links :
  ∀ tk : Topo * nat, set (add_links rand links tk).1 = set tk.1.
Proof.
  unfold add_links. induction links as [| link links IH]; intros [t k]; [done |].
  cbn [foldl]. rewrite IH.
  destruct (add_link_fst rand link t k) as (w & -> & _). apply set_add_edge.
Qed.

Lemma set_add_nodes_from ns t : set (add_nodes_from ns t) = set t.
Proof.
  unfold add_nodes_from. revert t.
  induction ns as [| [n prts] ns IH]; intros t; [done |]. simpl. by rewrite IH.
Qed.

Lemma edge_data_elem t u v d : edge_data u v t = Some d → (u, v, d) ∈ edges t.
Proof.
  unfold edge_data. destruct (od_get u (_adj t)) as [nbrs |] eqn:Hu; [| done].
  simpl. intros Hv. apply elem_of_edges. exists nbrs.
  split; by apply od_get_Some_elem.
Qed.

(** A well-formed graph lists each ordered pair once. *)
Lemma edges_NoDup t : topo_wf t → NoDup (edges t).*1.
Proof.
  intros [Hnd Hnbrs]. unfold edges.
  induction (_adj t) as [| [n nbrs] adj IH]; [constructor |].
  rewrite fmap_cons in Hnd. apply NoDup_cons in Hnd as [Hn Hnd].
  cbn [mbind list_bind]. rewrite fmap_app. apply NoDup_app. split; [| split].
  - assert (NoDup nbrs.*1) as Hnb by (eapply Hnbrs; left).
    clear -Hnb. induction nbrs as [| [nbr d] nbrs IH]; [constructor |].
    rewrite fmap_cons in Hnb. apply NoDup_cons in Hnb as [Hnbr Hnb].
    cbn [mbind list_bind app fmap list_fmap]. constructor; [| by apply IH].
    intros Hin. apply Hnbr. apply list_elem_of_fmap in Hin as ([[u' v'] d'] & Heq & Hin).
    simpl in Heq. simplify_eq. apply list_elem_of_bind in Hin as ([nbr' d''] & Hin & Hnb').
    apply list_elem_of_singleton in Hin. simplify_eq.
    apply list_elem_of_fmap. by exists (nbr', d'').
  - intros [u v] Hin1 Hin2. apply Hn.
    apply list_elem_of_fmap in Hin1 as ([[u1 v1] d1] & Heq1 & Hin1).
    apply list_elem_of_fmap in Hin2 as ([[u2 v2] d2] & Heq2 & Hin2).
    simpl in *. simplify_eq.
    apply list_elem_of_bind in Hin1 as ([nbr1 da] & Hin1 & _).
    apply list_elem_of_singleton in Hin1. simplify_eq.
    apply list_elem_of_bind in Hin2 as ([n' nbrs'] & Hin2 & Hadj).
    apply list_elem_of_bind in Hin2 as ([nbr2 db] & Hin2 & _).
    apply list_elem_of_singleton in Hin2. simplify_eq.
    apply list_elem_of_fmap. by exists (n', nbrs').
  - apply IH; [done |]. intros n' nbrs' Hin. eapply Hnbrs. by right.
Qed.
Lemma pos_add_nodes_from ns t : pos (add_nodes_from ns t) = pos t.
Proof.
  unfold add_nodes_from. revert t.
  induction ns as [| [n prts] ns IH]; intros t; [done |]. simpl. by rewrite IH.
Qed.

Lemma pos_add_edge u v d t : pos (add_edge u v d t) = pos t.
Proof. unfold add_edge, touch_node. simpl. by repeat case_match. Qed.

Lemma pos_add_links rand links :
  ∀ tk : Topo * nat, pos (add_links rand links tk).1 = pos tk.1.
Proof.
  unfold add_links. induction links as [| link links IH]; intros [t k]; [done |].
  cbn [foldl]. rewrite IH.
  destruct (add_link_fst rand link t k) as (w & -> & _). apply pos_add_edge.
Qed.

Lemma od_set_not_nil {V} k (v : V) dict : od_set k v dict ≠ [].
Proof. destruct dict as [| [k' v'] dict]; simpl; [done |]. by case_bool_decide. Qed.

Lemma node_touch_node n t : _node t ≠ [] → _node (touch_node n t) ≠ [].
Proof.
  intros Hne. unfold touch_node. destruct (od_get n (_adj t)); [done |].
  apply od_set_not_nil.
Qed.

Lemma node_add_links rand links :
  ∀ tk : Topo * nat, _node tk.1 ≠ [] → _node (add_links rand links tk).1 ≠ [].
Proof.
  unfold add_links. induction links as [| link links IH]; intros [t k] Hne; [done |].
  cbn [foldl]. apply IH.
  destruct (add_link_fst rand link t k) as (w & -> & _).
  unfold add_edge. simpl. by do 2 apply node_touch_node.
Qed.

Lemma node_add_nodes_from ns t :
  ns ≠ [] ∨ _node t ≠ [] → _node (add_nodes_from ns t) ≠ [].
Proof.
  unfold add_nodes_from. revert t.
  induction ns as [| [n prts] ns IH]; intros t Hne; [by destruct Hne |].
  simpl. apply IH. right. apply od_set_not_nil.
Qed.

(** With the empty layout, drawing succeeds on the graph without nodes
    only. *)
Lemma has_positions_empty_layout t :
  pos t = [] → has_positions t ↔ _node t = [].
Proof.
  intros Hpos. unfold has_positions. rewrite Hpos. split.
  - destruct (_node t) as [| [n prts] ?]; [done |].
    rewrite fmap_cons. intros [Hn _]%Forall_cons. by apply elem_of_nil in Hn.
  - intros ->. constructor.
Qed.
End rebuild_more.

Section rebuild_state.
Implicit Types (t : Topo) (a b : Z) (d : EdgeData) (api : TopologyAPI)
               (rand : nat → Z) (links : list Link) (c : KruskalController)
               (log : list Effect).

Lemma add_links_app rand links1 links2 (tk : Topo * nat) :
  add_links rand (links1 ++ links2) tk
  = add_links rand links2 (add_links rand links1 tk).
Proof. unfold add_links. apply foldl_app. Qed.

Lemma add_links_cons rand link links (tk : Topo * nat) :
  add_links rand (link :: links) tk = add_links rand links (add_link rand link tk).
Proof. done. Qed.

(** An edge of the graph after the link loop is an edge from before or
    comes from a link of the list, with the ports of that link. *)
Lemma add_links_edge_data rand links :
  ∀ (tk : Topo * nat) a b d,
    edge_data a b (add_links rand links tk).1 = Some d →
    edge_data a b tk.1 = Some d
    ∨ ∃ link, link ∈ links ∧ dpid (src link) = a ∧ dpid (dst link) = b
            ∧ src_port d = port_no (src link) ∧ dst_port d = port_no (dst link).
Proof.
  induction links as [| link links IH]; intros [t k] a b d Hd; [by left |].
  rewrite add_links_cons in Hd. destruct (IH _ _ _ _ Hd) as [Hd' | (k0 & ? & ?)].
  - destruct (add_link_fst rand link t k) as (w & Heq & _).
    rewrite Heq, edge_data_add_edge in Hd'. case_decide as Hab.
    + right. exists link. destruct Hab as [-> ->]. simplify_eq.
      split; [left | done].
    + by left.
  - right. exists k0. split; [by right | done].
Qed.

(** Links between other pairs leave the data of an edge alone. *)
Lemma add_links_other rand links a b :
  ∀ tk : Topo * nat,
    (∀ k, k ∈ links → ¬ (dpid (src k) = a ∧ dpid (dst k) = b)) →
    edge_data a b (add_links rand links tk).1 = edge_data a b tk.1.
Proof.
  induction links as [| link links IH]; intros [t k] Hother; [done |].
  rewrite add_links_cons, IH by (intros; apply Hother; by right).
  destruct (add_link_fst rand link t k) as (w & -> & _).
  rewrite edge_data_add_edge, decide_False; [done |].
  intros [-> ->]. by apply (Hother link); [left |].
Qed.

Lemma rebuilt_topo api rand c log :
  topo (switch_enter_handler api rand (c, log)).2.1
  = (add_links rand (all_links api)
       (initialize_ufset (Z.of_nat (length (all_switches api)))
          (add_nodes_from
             ((λ s, (dp_id (dp s), port_no <$> ports s)) <$> all_switches api)
             (clear Topo_init)), O)).1.
Proof. by rewrite switch_enter_handler_run. Qed.

Lemma edge_data_rebuild_base ns n a b :
  edge_data a b (initialize_ufset n (add_nodes_from ns (clear Topo_init))) = None.
Proof.
  change (edge_data a b (add_nodes_from ns (clear Topo_init)) = None).
  by apply edge_data_add_nodes_from.
Qed.

Lemma rebuilt_wf api rand c log :
  topo_wf (topo (switch_enter_handler api rand (c, log)).2.1).
Proof.
  rewrite rebuilt_topo. apply topo_wf_add_links. simpl.
  apply (topo_wf_add_nodes_from _ (clear Topo_init)).
  split; [constructor |]. intros n nbrs Hin. by apply elem_of_nil in Hin.
Qed.

Lemma rebuilt_datapaths api rand c log :
  datapaths (switch_enter_handler api rand (c, log)).2.1 = dp <$> all_switches api.
Proof. by rewrite switch_enter_handler_run. Qed.

Lemma rebuilt_set api rand c log :
  set (topo (switch_enter_handler api rand (c, log)).2.1)
  = Some (UnionFindSet_init (Z.of_nat (length (all_switches api)))).
Proof. rewrite rebuilt_topo, set_add_links. simpl. unfold initialize_ufset. done. Qed.

(** X9.  After a rebuild, whatever the links: the disjoint-set is fresh,
    with one slot per discovered switch and slot 0; the datapath list
    holds the datapaths of the discovered switches, in their order; and
    the graph lists every ordered pair of switches at most once. *)
Theorem rebuild_result api rand c log :
  set (topo (switch_enter_handler api rand (c, log)).2.1)
  = Some (UnionFindSet_init (Z.of_nat (length (all_switches api))))
  ∧ datapaths (switch_enter_handler api rand (c, log)).2.1
    = dp <$> all_switches api
  ∧ topo_wf (topo (switch_enter_handler api rand (c, log)).2.1)
  ∧ NoDup (edges (topo (switch_enter_handler api rand (c, log)).2.1)).*1.
Proof.
  split; [apply rebuilt_set |]. split; [apply rebuilt_datapaths |].
  split; [apply rebuilt_wf |]. apply edges_NoDup, rebuilt_wf.
Qed.

(** X10.  After a rebuild the edges are the discovered links: every edge
    joins the endpoints of some link and carries the port numbers of
    that link.  When discovery reports several links for one ordered
    pair of switches, the graph keeps one edge, with the ports of the
    last of them. *)
Theorem rebuild_edges_are_links api rand c log :
  let t := topo (switch_enter_handler api rand (c, log)).2.1 in
  (∀ a b d, (a, b, d) ∈ edges t →
     ∃ link, link ∈ all_links api
           ∧ dpid (src link) = a ∧ dpid (dst link) = b
           ∧ src_port d = port_no (src link) ∧ dst_port d = port_no (dst link))
  ∧ (∀ pre link post,
       all_links api = pre ++ link :: post →
       (∀ k, k ∈ post →
          ¬ (dpid (src k) = dpid (src link) ∧ dpid (dst k) = dpid (dst link))) →
       ∃ w, (dpid (src link), dpid (dst link),
             {| src_port := port_no (src link); dst_port := port_no (dst link);
                weight := w |}) ∈ edges t).
Proof.
  intros t. pose proof (rebuilt_wf api rand c log) as Hwf.
  fold t in Hwf. split.
  - intros a b d Hin. apply (edge_data_edges _ _ _ _ Hwf) in Hin.
    unfold t in Hin. rewrite rebuilt_topo in Hin.
    apply add_links_edge_data in Hin as [Hbase | Hlink]; [| done].
    simpl in Hbase. by rewrite edge_data_rebuild_base in Hbase.
  - intros pre link post Hlinks Hlast.
    unfold t. rewrite rebuilt_topo, Hlinks, add_links_app, add_links_cons.
    destruct (add_links rand pre _) as [t1 k1].
    destruct (add_link_fst rand link t1 k1) as (w & Heq & _).
    exists w. apply edge_data_elem.
    rewrite add_links_other by done.
    rewrite Heq, edge_data_add_edge. by rewrite decide_True.
Qed.

(** X11.  When the weight provider answers within 1..10, as
    [randint(1, 10)] does, every edge of the rebuilt graph has a weight
    within 1..10. *)
Theorem rebuild_weights_in_range api rand c log a b d :
  (∀ k, 1 ≤ rand k ≤ 10) →
  (a, b, d) ∈ edges (topo (switch_enter_handler api rand (c, log)).2.1) →
  1 ≤ weight d ≤ 10.
Proof.
  intros Hrand Hin.
  pose proof (rebuilt_wf api rand c log) as Hwf.
  apply (edge_data_edges _ _ _ _ Hwf) in Hin. rewrite rebuilt_topo in Hin.
  revert a b d Hin.
  assert (∀ links (tk : Topo * nat),
            (∀ a b d, edge_data a b tk.1 = Some d → 1 ≤ weight d ≤ 10) →
            ∀ a b d, edge_data a b (add_links rand links tk).1 = Some d →
                     1 ≤ weight d ≤ 10) as Hinv.
  { induction links as [| link links IH]; intros [t k] Hbase; [done |].
    rewrite add_links_cons. apply IH.
    destruct (add_link_fst rand link t k) as (w & -> & Hw).
    intros a b d. rewrite edge_data_add_edge. case_decide.
    - intros [= <-]. simpl. destruct Hw as [-> | (d0 & Hd0 & ->)]; [done |].
      by eapply Hbase.
    - apply Hbase. }
  apply Hinv. intros a b d. simpl. by rewrite edge_data_rebuild_base.
Qed.

(** X12.  After a rebuild, [find_datapath_by_id] finds a datapath for an
    id exactly when discovery listed a switch with that id, and the
    datapath it finds has that id. *)
Theorem rebuild_registers_switches api rand c log i :
  let c' := (switch_enter_handler api rand (c, log)).2.1 in
  (is_Some (find_datapath_by_id c' i)
   ↔ ∃ s, s ∈ all_switches api ∧ dp_id (dp s) = i)
  ∧ ∀ datapath, find_datapath_by_id c' i = Some datapath → dp_id datapath = i.
Proof.
  intros c'. unfold find_datapath_by_id. subst c'.
  rewrite rebuilt_datapaths.
  split; [split |].
  - intros [datapath Hfind]. apply find_some in Hfind as [Hin Hid].
    apply list_elem_of_In, list_elem_of_fmap in Hin as (s & -> & Hs).
    exists s. split; [done |]. by apply bool_decide_eq_true in Hid.
  - intros (s & Hs & Hid).
    destruct (List.find _ _) as [datapath |] eqn:Hfind; [by eexists |].
    eapply find_none in Hfind;
      [| apply list_elem_of_In, list_elem_of_fmap; by exists s].
    by apply bool_decide_eq_false in Hfind.
  - intros datapath Hfind. apply find_some in Hfind as [_ Hid].
    by apply bool_decide_eq_true in Hid.
Qed.

(** A rebuilt graph has an edge only where discovery reported a link. *)
Lemma rebuilt_edge_link api rand c log a b d :
  (a, b, d) ∈ edges (topo (switch_enter_handler api rand (c, log)).2.1) →
  ∃ link, link ∈ all_links api ∧ dpid (src link) = a ∧ dpid (dst link) = b.
Proof.
  intros Hin. apply (edge_data_edges _ _ _ _ (rebuilt_wf api rand c log)) in Hin.
  rewrite rebuilt_topo in Hin.
  apply add_links_edge_data in Hin as [Hbase | (k & ? & ? & ? & _)]; [| by exists k].
  simpl in Hbase. by rewrite edge_data_rebuild_base in Hbase.
Qed.

Lemma rebuilt_pos api rand : pos (rebuilt api rand) = [].
Proof. unfold rebuilt. rewrite pos_add_links. simpl. by rewrite pos_add_nodes_from. Qed.

(** X21.  How a rebuild ends.  The new topology has the empty layout of
    [Topo()] and the flag down.  When discovery lists at least one
    switch, the handler ends in the [NetworkXError] of its final
    [nx.draw], after the controller has got its new datapath list and
    topology: the log is as before, and the graph is left with a node
    without position.  When discovery lists nothing, the handler returns
    and logs the drawing.  And when the ends of the discovered links
    have ids within [1..n], for [n] discovered switches, so have the
    edges. *)
Theorem rebuild_outcome api rand c log :
  pos (topo (switch_enter_handler api rand (c, log)).2.1) = []
  ∧ MST_exist (topo (switch_enter_handler api rand (c, log)).2.1) = false
  ∧ (all_switches api ≠ [] →
     (switch_enter_handler api rand (c, log)).1 = Raise NetworkXError
     ∧ (switch_enter_handler api rand (c, log)).2.2 = log
     ∧ ¬ has_positions (topo (switch_enter_handler api rand (c, log)).2.1))
  ∧ (all_switches api = [] → all_links api = [] →
     (switch_enter_handler api rand (c, log)).1 = Ret tt
     ∧ (switch_enter_handler api rand (c, log)).2.2 = log ++ [plt_draw_topo])
  ∧ ((∀ k, k ∈ all_links api →
        1 ≤ dpid (src k) ≤ Z.of_nat (length (all_switches api))
        ∧ 1 ≤ dpid (dst k) ≤ Z.of_nat (length (all_switches api))) →
     ids_in (Z.of_nat (length (all_switches api)))
       (edges (topo (switch_enter_handler api rand (c, log)).2.1)).*1).
Proof.
  pose proof (rebuilt_edge_link api rand c log) as Hlinks.
  rewrite switch_enter_handler_run in Hlinks |- *. cbn [fst snd topo] in Hlinks |- *.
  fold (rebuilt api rand) in Hlinks |- *.
  pose proof (rebuilt_pos api rand) as Hpos.
  pose proof (has_positions_empty_layout _ Hpos) as Hdraw.
  split; [done |]. split.
  { unfold rebuilt. rewrite MST_exist_add_links. simpl.
    by rewrite MST_exist_add_nodes_from. }
  split; [| split].
  - intros Hsw.
    assert (_node (rebuilt api rand) ≠ []) as Hnode.
    { unfold rebuilt. apply node_add_links. simpl.
      apply (node_add_nodes_from _ (clear Topo_init)). left.
      by destruct (all_switches api). }
    rewrite bool_decide_eq_false_2 by (by rewrite Hdraw).
    rewrite app_nil_r. split; [done |]. split; [done |]. by rewrite Hdraw.
  - intros Hsw Hl.
    assert (_node (rebuilt api rand) = []) as Hnode
      by (unfold rebuilt; by rewrite Hsw, Hl).
    by rewrite bool_decide_eq_true_2 by (by rewrite Hdraw).
  - intros Hids u v Huv.
    apply list_elem_of_fmap in Huv as ([[a b] d] & Heq & Hin).
    simpl in Heq. simplify_eq.
    destruct (Hlinks _ _ _ Hin) as (k & Hk & <- & <-). by apply Hids.
Qed.
End rebuild_state.

Lemma rebuild_edges_are_links_witness :
  let t := topo (switch_enter_handler scenario_P_api (λ _, 5)
                   (KruskalController_init, [])).2.1 in
  ∃ w, (1, 2, {| src_port := 2; dst_port := 2; weight := w |}) ∈ edges t.
Proof.
  destruct (rebuild_edges_are_links scenario_P_api (λ _, 5)
              KruskalController_init []) as [_ Hlast].
  apply (Hlast [scenario_link 1 1 2 1; scenario_link 2 1 1 1]
               (scenario_link 1 2 2 2) []).
  - reflexivity.
  - intros k Hk. by apply elem_of_nil in Hk.
Defined.

Lemma rebuild_weights_in_range_witness :
  1 ≤ weight {| src_port := 3; dst_port := 2; weight := 5 |} ≤ 10.
Proof.
  apply (rebuild_weights_in_range scenario_A_api
           (λ k, if decide (k < 6)%nat then scenario_A_rand k else 1)
           KruskalController_init [] 2 4).
  - intros k. unfold scenario_A_rand.
    do 6 (destruct k as [| k]; [simpl; lia |]). simpl. lia.
  - apply (bool_decide_unpack _). by vm_compute.
Defined.

Lemma rebuild_outcome_witness :
  (switch_enter_handler scenario_B_api (λ _, 5) (KruskalController_init, [])).1
  = Raise NetworkXError
  ∧ (switch_enter_handler scenario_B_api (λ _, 5) (KruskalController_init, [])).2.2
    = []
  ∧ ¬ has_positions
        (topo (switch_enter_handler scenario_B_api (λ _, 5)
                 (KruskalController_init, [])).2.1).
Proof.
  destruct (rebuild_outcome scenario_B_api (λ _, 5) KruskalController_init [])
    as (_ & _ & Hraise & _).
  apply Hraise. discriminate.
Defined.

(** * Further properties of the link enforcer *)

Section block_links_more.
Implicit Types (c : KruskalController) (log pm : list Effect) (e : Edge)
               (api : TopologyAPI) (excepts : list (Z * Z)) (es : list Edge).

(** X13.  When every link outside the tree has both ends registered and
    known to the topology API, [block_links] returns, leaves the
    controller as it is, and sends, link by link in the order of
    [edges], the port-down request for the source port and then the one
    for the destination port (none for a port the switch does not list).
    A link whose pair is in the tree, in either direction, gets no
    request. *)
Theorem block_links_sends_both_ends api excepts c log :
  (∀ e, e ∈ edges (topo c) → ¬ in_tree excepts e →
     is_Some (find_datapath_by_id c e.1.1) ∧ is_Some (find_datapath_by_id c e.1.2)
     ∧ is_Some (head (get_switch api e.1.1))
     ∧ is_Some (head (get_switch api e.1.2))) →
  block_links api excepts (c, log)
  = (Ret tt,
     (c, log ++ (filter (λ e, ¬ in_tree excepts e) (edges (topo c))
                 ≫= port_downs_for api)))
  ∧ ∀ e, e ∈ edges (topo c) → in_tree excepts e →
         block_link api excepts e (c, log) = (Ret tt, (c, log)).
Proof.
  intros Hknown. split.
  - unfold block_links, mbind, M_bind, bind, get_state. simpl.
    by apply block_each_known.
  - intros e _ Hin. by apply block_link_in_tree.
Qed.

(** X14.  A registered switch that the topology API does not know makes
    [block_links] raise [IndexError] in the middle of its loop: the
    links after it are not looked at.  When the unknown switch is the
    destination of the link, the request for the source port has
    already been sent. *)
Theorem block_links_aborts_on_unknown_switch api excepts c log pre e post log1 :
  edges (topo c) = pre ++ e :: post →
  for_each (block_link api excepts) pre (c, log) = (Ret tt, (c, log1)) →
  ¬ in_tree excepts e →
  is_Some (find_datapath_by_id c e.1.1) → is_Some (find_datapath_by_id c e.1.2) →
  (get_switch api e.1.1 = [] →
   block_links api excepts (c, log) = (Raise IndexError, (c, log1)))
  ∧ (is_Some (head (get_switch api e.1.1)) → get_switch api e.1.2 = [] →
     block_links api excepts (c, log)
     = (Raise IndexError,
        (c, log1 ++ option_list (port_down_msg api e.1.1 (src_port e.2))))).
Proof.
  intros Hedges Hpre Hnt [sdp Hs] [ddp Hd].
  pose proof (find_datapath_by_id_id _ _ _ Hs) as Hsid.
  pose proof (find_datapath_by_id_id _ _ _ Hd) as Hdid.
  assert (∀ o st, block_link api excepts e (c, log1) = (Raise o, st) →
                  block_links api excepts (c, log) = (Raise o, st)) as Hgo.
  { intros o st He. unfold block_links, mbind, M_bind, bind, get_state. simpl.
    rewrite Hedges, for_each_app. unfold mbind, M_bind, bind. rewrite Hpre.
    cbn [for_each]. unfold mbind, M_bind, bind. by rewrite He. }
  split.
  - intros Hunknown. apply Hgo.
    unfold block_link. rewrite bool_decide_eq_false_2 by done.
    unfold mbind, M_bind, bind, get_state. simpl. rewrite Hs, Hd. unfold bind.
    by rewrite send_port_mod_unknown by (by rewrite Hsid).
  - intros [ssw Hssw] Hunknown. apply Hgo.
    unfold block_link. rewrite bool_decide_eq_false_2 by done.
    unfold mbind, M_bind, bind, get_state. simpl. rewrite Hs, Hd. unfold bind.
    rewrite (send_port_mod_known _ _ _ _ _ ssw) by (by rewrite Hsid).
    rewrite send_port_mod_unknown by (by rewrite Hdid). by rewrite Hsid.
Qed.
End block_links_more.

Lemma block_links_sends_both_ends_witness :
  block_links scenario_B_api [] (scenario_B.1, [])
  = (Ret tt,
     (scenario_B.1,
      [] ++ (filter (λ e, ¬ in_tree [] e) (edges (topo scenario_B.1))
             ≫= port_downs_for scenario_B_api))).
Proof.
  apply (block_links_sends_both_ends scenario_B_api [] scenario_B.1 []).
  intros e He _. revert e He.
  apply (Forall_forall
           (λ e : Edge,
              is_Some (find_datapath_by_id scenario_B.1 e.1.1)
              ∧ is_Some (find_datapath_by_id scenario_B.1 e.1.2)
              ∧ is_Some (head (get_switch scenario_B_api e.1.1))
              ∧ is_Some (head (get_switch scenario_B_api e.1.2)))).
  apply (bool_decide_unpack _). by vm_compute.
Defined.

Lemma block_links_aborts_on_unknown_switch_witness :
  block_links scenario_F_api [] (scenario_B.1, [])
  = (Raise IndexError,
     (scenario_B.1,
      [] ++ option_list (port_down_msg scenario_F_api 1 1))).
Proof.
  apply (block_links_aborts_on_unknown_switch scenario_F_api [] scenario_B.1 [] []
           (1, 2, {| src_port := 1; dst_port := 1; weight := 5 |})
           [(2, 1, {| src_port := 1; dst_port := 1; weight := 5 |})] []).
  - reflexivity.
  - reflexivity.
  - unfold in_tree. intros [H | H]; by apply elem_of_nil in H.
  - by eexists.
  - by eexists.
  - by eexists.
  - reflexivity.
Defined.

(** * Further properties of the packet-in handler *)

Section packet_in_more.
Implicit Types (c : KruskalController) (log msgs pm : list Effect) (ev : PacketIn)
               (api : TopologyAPI) (fuel : nat) (t : Topo).

(** X15.  The handler raises in two places only.  An event without
    Ethernet header ends it in [AttributeError] at once: nothing is
    learned, nothing changes.  For a frame, it raises only on the way
    through [Kruskal] and [block_links], and then it stops there: the
    frame is not answered (no flow entry is installed and no packet-out
    is sent; the log grows by effects of [draw_tree] and port
    modifications at most), the flag [MST_exist] stays down, so that the
    next flood tries again, and the source address of the frame has been
    learned all the same. *)
Theorem packet_in_failure fuel api event c log ex :
  (packet_in_handler fuel api event (c, log)).1 = Raise ex →
  match event with
  | without_ethernet _ _ _ _ =>
      ex = AttributeError
      ∧ (packet_in_handler fuel api event (c, log)).2 = (c, log)
  | with_ethernet ev =>
      (filtered ev = false ∧ out_port_of ev c = OFPP_FLOOD
       ∧ MST_exist (topo c) = false)
      ∧ mac_to_port (packet_in_handler fuel api event (c, log)).2.1 = learned ev c
      ∧ MST_exist (topo (packet_in_handler fuel api event (c, log)).2.1) = false
      ∧ ∃ msgs, (packet_in_handler fuel api event (c, log)).2.2 = log ++ msgs
              ∧ Forall (λ m, is_draw_tree m ∨ is_port_mod m) msgs
  end.
Proof.
  intros Hraise. destruct event as [ev | datapath in_port buffer_id data].
  - destruct (packet_in_cases fuel api ev c log)
      as [[_ Hrun] | [(_ & _ & Hrun)
         | [(Hf & Hout & Hflag & s' & ex' & msgs & _ & Hmsgs & Hrun)
         | (Hf & Hout & Hflag & s' & tree & o & pm & _ & _ & Hpm & _ & Hrun)]]];
      rewrite Hrun in Hraise |- *; try done.
    + do 3 (split; [done |]). exists msgs. split; [done |].
      destruct Hmsgs as [-> | (-> & _)]; repeat constructor; by left.
    + destruct o as [[] | ex']; [done |]. simpl.
      do 3 (split; [done |]). exists (tree_drawn tree ++ pm).
      split; [by rewrite app_assoc |].
      apply Forall_app. split; [repeat constructor; by left |].
      eapply Forall_impl; [done |]. by right.
  - rewrite packet_in_without_ethernet in Hraise |- *. by injection Hraise as <-.
Qed.

(** X16.  Whatever the event and the outcome, the handler leaves the
    datapath list, the nodes and edges of the graph and its layout as
    they are, and it only appends to the log.  Once the flag [MST_exist]
    is up, the handler does not touch the topology at all: the tree is
    not computed again and the flag does not go down before the next
    rebuild; it returns for a frame, and ends in [AttributeError] for an
    event without Ethernet header. *)
Theorem packet_in_keeps_topology fuel api event c log :
  datapaths (packet_in_handler fuel api event (c, log)).2.1 = datapaths c
  ∧ _node (topo (packet_in_handler fuel api event (c, log)).2.1) = _node (topo c)
  ∧ _adj (topo (packet_in_handler fuel api event (c, log)).2.1) = _adj (topo c)
  ∧ pos (topo (packet_in_handler fuel api event (c, log)).2.1) = pos (topo c)
  ∧ (∃ msgs, (packet_in_handler fuel api event (c, log)).2.2 = log ++ msgs)
  ∧ (MST_exist (topo c) = true →
     topo (packet_in_handler fuel api event (c, log)).2.1 = topo c
     ∧ (packet_in_handler fuel api event (c, log)).1
       = match event with
         | with_ethernet _ => Ret tt
         | without_ethernet _ _ _ _ => Raise AttributeError
         end).
Proof.
  destruct event as [ev | datapath in_port buffer_id data].
  - destruct (packet_in_cases fuel api ev c log)
      as [[_ Hrun] | [(_ & _ & Hrun)
         | [(Hf & Hout & Hflag & s' & ex' & msgs & _ & _ & Hrun)
         | (Hf & Hout & Hflag & s' & tree & o & pm & _ & _ & Hpm & _ & Hrun)]]];
      rewrite Hrun.
    + do 4 (split; [done |]). split; [| done]. exists []. by rewrite app_nil_r.
    + do 4 (split; [done |]). split; [by eexists | done].
    + do 4 (split; [done |]). split; [by eexists | congruence].
    + destruct o as [[] | ex']; simpl; (do 4 (split; [done |]));
        (split; [| congruence]).
      * eexists. by rewrite <- !app_assoc.
      * eexists. by rewrite <- !app_assoc.
  - rewrite packet_in_without_ethernet. do 4 (split; [done |]).
    split; [| done]. exists []. by rewrite app_nil_r.
Qed.

(** X17.  Learning and lookup fit together: once a frame from address
    [a] has come in at a switch, through a port other than the flood
    port, the next frame at that switch addressed to [a] from another
    address is sent out of that port.  The handler then forwards without
    running [Kruskal] or [block_links], whatever the outcome of the
    first frame was. *)
Theorem learned_port_is_used fuel api1 api2 ev1 ev2 c log :
  filtered ev1 = false → filtered ev2 = false →
  dp_id (pi_datapath ev2) = dp_id (pi_datapath ev1) →
  eth_dst ev2 = eth_src ev1 → eth_src ev2 ≠ eth_src ev1 →
  pi_in_port ev1 ≠ OFPP_FLOOD →
  out_port_of ev2 (packet_in_handler fuel api1 (with_ethernet ev1) (c, log)).2.1
  = pi_in_port ev1
  ∧ packet_in_handler fuel api2 (with_ethernet ev2)
      (packet_in_handler fuel api1 (with_ethernet ev1) (c, log)).2
    = (Ret tt,
       (with_mac_to_port
          (learned ev2 (packet_in_handler fuel api1 (with_ethernet ev1) (c, log)).2.1)
          (packet_in_handler fuel api1 (with_ethernet ev1) (c, log)).2.1,
        (packet_in_handler fuel api1 (with_ethernet ev1) (c, log)).2.2
        ++ forwarding ev2
             (packet_in_handler fuel api1 (with_ethernet ev1) (c, log)).2.1)).
Proof.
  intros Hf1 Hf2 Hd Hdst Hsrc Hport.
  pose proof (packet_in_mac_to_port fuel api1 ev1 c log) as Hmac.
  rewrite Hf1 in Hmac.
  destruct (packet_in_handler fuel api1 (with_ethernet ev1) (c, log))
    as [o1 [c1 log1]].
  simpl in *.
  assert (out_port_of ev2 c1 = pi_in_port ev1) as Hout.
  { unfold out_port_of. rewrite learned_lookup. simpl.
    rewrite Hmac, Hd, learned_lookup. simpl.
    rewrite Hdst, lookup_insert_ne by done. by rewrite lookup_insert_eq. }
  split; [done |]. apply packet_in_forward; [done |].
  rewrite Hout. by rewrite bool_decide_eq_false_2.
Qed.

Lemma buffer_or_none_twice (b : Z) :
  buffer_or_none (Some (buffer_or_none (Some b)))
  = if bool_decide (b = 0) then OFP_NO_BUFFER else b.
Proof.
  unfold buffer_or_none. destruct (bool_decide (b = 0)) eqn:Hb; [done |].
  by rewrite Hb.
Qed.

(** X18.  A frame that is not filtered and whose handler returns is
    answered at the end of the log by one flow entry and one packet-out,
    in this order, both with the output port found for the destination.
    The flow entry has priority 1, matches the in-port and both
    addresses, and never carries buffer id 0 (which counts as no
    buffer); the packet-out carries the buffer id of the frame as it is,
    and the frame data only when that id is [OFP_NO_BUFFER].  Before the
    answer come at most effects of [draw_tree] and port modifications,
    and these only on a flood decision without a tree. *)
Theorem packet_in_answer fuel api ev c log :
  filtered ev = false →
  (packet_in_handler fuel api (with_ethernet ev) (c, log)).1 = Ret tt →
  ∃ pre,
    (packet_in_handler fuel api (with_ethernet ev) (c, log)).2.2
    = log ++ pre
      ++ [ send_msg (dp_id (pi_datapath ev))
             (OFPFlowMod
                (if bool_decide (pi_buffer_id ev = 0) then OFP_NO_BUFFER
                 else pi_buffer_id ev) 1
                {| m_in_port := Some (pi_in_port ev);
                   m_eth_dst := Some (eth_dst ev);
                   m_eth_src := Some (eth_src ev) |}
                [OFPActionOutput (out_port_of ev c) OFPCML_MAX]);
           send_msg (dp_id (pi_datapath ev))
             (OFPPacketOut (pi_buffer_id ev) (pi_in_port ev)
                [OFPActionOutput (out_port_of ev c) OFPCML_MAX]
                (if bool_decide (pi_buffer_id ev = OFP_NO_BUFFER)
                 then Some (pi_data ev) else None)) ]
    ∧ Forall (λ m, is_draw_tree m ∨ is_port_mod m) pre
    ∧ (pre ≠ [] → out_port_of ev c = OFPP_FLOOD ∧ MST_exist (topo c) = false).
Proof.
  intros Hf Hret.
  destruct (packet_in_cases fuel api ev c log)
    as [[Hf' _] | [(_ & _ & Hrun)
       | [(_ & Hout & Hflag & s' & ex' & msgs & _ & _ & Hrun)
       | (_ & Hout & Hflag & s' & tree & o & pm & _ & _ & Hpm & _ & Hrun)]]];
    [congruence | | |]; rewrite Hrun in Hret |- *; try done.
  - exists []. simpl. unfold forwarding. by rewrite buffer_or_none_twice.
  - destruct o as [[] | ex']; [| done]. simpl.
    exists (tree_drawn tree ++ pm). unfold forwarding.
    rewrite buffer_or_none_twice, <- !app_assoc. split; [done |].
    split; [| done]. apply Forall_app. split; [repeat constructor; by left |].
    eapply Forall_impl; [done |]. by right.
Qed.

(** X19.  A flood decision on a graph without edges, with the flag
    down: [Kruskal] builds the empty tree, whatever the disjoint-set
    (even none).  When every node has a position, as on the graph
    without nodes of a controller that has discovered nothing, the
    handler returns: the empty tree is drawn, no port modification is
    sent, the flag goes up and the frame is answered.  When some node
    has none, as after a rebuild that found switches without links, the
    handler ends in [NetworkXError]: the figure is cleared and titled,
    the flag stays down and the frame is not answered. *)
Theorem first_flood_without_links fuel api ev c log :
  edges (topo c) = [] → MST_exist (topo c) = false →
  filtered ev = false → out_port_of ev c = OFPP_FLOOD →
  packet_in_handler fuel api (with_ethernet ev) (c, log)
  = (if bool_decide (has_positions (topo c))
     then (Ret tt,
           (with_topo (with_MST_exist true (topo c))
              (with_mac_to_port (learned ev c) c),
            log ++ tree_drawn [] ++ forwarding ev c))
     else (Raise NetworkXError,
           (with_mac_to_port (learned ev c) c, log ++ tree_not_drawn))).
Proof.
  intros Hedges Hflag Hf Hout. rewrite packet_in_trigger by done.
  rewrite Kruskal_unfold, Hedges. simpl. unfold Kruskal_ends.
  case_bool_decide.
  - unfold block_links, mbind, M_bind, bind, get_state. simpl. rewrite Hedges.
    simpl. unfold ret. rewrite <- app_assoc. by destruct c as [? ? []].
  - by destruct c as [? ? []].
Qed.

(** One event in a generation whose graph has a node without position:
    the flag stays down, the disjoint-set keeps its invariant, no port
    modification is sent and no tree is drawn; a flood ends in
    [NetworkXError]. *)
Lemma undrawable_step n fuel api event c log l P :
  MST_exist (topo c) = false → ¬ has_positions (topo c) →
  set (topo c) = Some (mkUnionFindSet l n) → uf_inv n l P →
  ids_in n (edges (topo c)).*1 → (Z.to_nat (n + 1) ≤ fuel)%nat →
  ∃ c' msgs l' P',
    (packet_in_handler fuel api event (c, log)).2 = (c', log ++ msgs)
    ∧ Forall (λ m, ¬ is_port_mod m ∧ ∀ tree, m ≠ plt_draw_tree tree) msgs
    ∧ MST_exist (topo c') = false
    ∧ _node (topo c') = _node (topo c) ∧ pos (topo c') = pos (topo c)
    ∧ edges (topo c') = edges (topo c)
    ∧ set (topo c') = Some (mkUnionFindSet l' n) ∧ uf_inv n l' P'
    ∧ (floods_event event c = true →
       (packet_in_handler fuel api event (c, log)).1 = Raise NetworkXError
       ∧ msgs = tree_not_drawn).
Proof.
  intros Hflag Hpos Hset Hinv Hids Hfuel.
  destruct (decide (floods_event event c = true)) as [Hfl | Hnf].
  - destruct event as [ev | ? ? ? ?]; [| done]. simpl in Hfl.
    apply andb_true_iff in Hfl as [Hf%negb_true_iff Hout%bool_decide_eq_true].
    rewrite packet_in_trigger by done.
    destruct (Kruskal_run_from n fuel (topo c) log l n P)
      as (K & l' & _ & HK & _ & Hinv' & _); [done | done | done | |].
    { by rewrite (inv_len _ _ _ Hinv). }
    rewrite HK, Kruskal_ends_with_set, bool_decide_eq_false_2 by done.
    eexists _, tree_not_drawn, l', _. split; [done |].
    split; [repeat constructor; (by intros []) || done |].
    do 4 (split; [done |]). split; [done |]. split; [exact Hinv' | done].
  - destruct (packet_in_calm fuel api event c log)
      as (c' & msgs & Hrun & Htopo & Hq).
    { apply not_true_is_false in Hnf. by rewrite Hnf. }
    rewrite Hrun. exists c', msgs, l, P. split; [done |]. split.
    { eapply Forall_impl; [done |]. intros m [Hd Hp]. split; [done |].
      intros tree ->. by apply Hd. }
    rewrite Htopo. do 4 (split; [done |]). split; [done |]. split; [done |].
    intros Hfl. by destruct Hnf.
Qed.

(** X20.  A generation whose graph has a node without position never
    gets its tree enforced.  From a state with the flag down, a fresh
    disjoint-set of count [n] and edges over switches [1..n], the handler
    of a frame with unknown destination ends in [NetworkXError], the
    figure cleared and titled; and whatever packet-in events follow one
    another, no port modification is ever sent, no tree is ever drawn,
    and the flag stays down. *)
Theorem floods_never_enforce n fuel evs c log :
  0 ≤ n → MST_exist (topo c) = false → ¬ has_positions (topo c) →
  set (topo c) = Some (UnionFindSet_init n) →
  ids_in n (edges (topo c)).*1 → (Z.to_nat (n + 1) ≤ fuel)%nat →
  (∀ api ev, filtered ev = false → out_port_of ev c = OFPP_FLOOD →
     (packet_in_handler fuel api (with_ethernet ev) (c, log)).1
     = Raise NetworkXError
     ∧ (packet_in_handler fuel api (with_ethernet ev) (c, log)).2.2
       = log ++ tree_not_drawn)
  ∧ MST_exist (topo (run_events fuel evs (c, log)).1) = false
  ∧ ∃ msgs, (run_events fuel evs (c, log)).2 = log ++ msgs
          ∧ Forall (λ m, ¬ is_port_mod m ∧ ∀ tree, m ≠ plt_draw_tree tree) msgs.
Proof.
  intros Hn Hflag Hpos Hset Hids Hfuel. split.
  { intros api ev Hf Hout.
    destruct (undrawable_step n fuel api (with_ethernet ev) c log
                (fa (UnionFindSet_init n)) [])
      as (c' & msgs & l' & P' & Hrun & _ & _ & _ & _ & _ & _ & _ & Hfl);
      [done | done | done | by apply uf_inv_init | done | done |].
    destruct Hfl as [Ho ->].
    { simpl. unfold floods. rewrite Hf. by apply bool_decide_eq_true_2. }
    by rewrite Ho, Hrun. }
  assert (∀ evs c log l P,
            MST_exist (topo c) = false → ¬ has_positions (topo c) →
            set (topo c) = Some (mkUnionFindSet l n) → uf_inv n l P →
            ids_in n (edges (topo c)).*1 →
            MST_exist (topo (run_events fuel evs (c, log)).1) = false
            ∧ ∃ msgs, (run_events fuel evs (c, log)).2 = log ++ msgs
                    ∧ Forall (λ m, ¬ is_port_mod m
                                   ∧ ∀ tree, m ≠ plt_draw_tree tree) msgs)
    as Hrun.
  { clear evs c log Hflag Hpos Hset Hids. unfold run_events.
    induction evs as [| [api event] evs IH]; intros c log l P Hflag Hpos Hset Hinv Hids.
    - split; [done |]. exists []. by rewrite app_nil_r.
    - cbn [foldl].
      destruct (undrawable_step n fuel api event c log l P)
        as (c' & msgs & l' & P' & Hstep & Hq & Hflag' & Hnode & Hpos' & Hedges
            & Hset' & Hinv' & _); [done | done | done | done | done | done |].
      rewrite Hstep.
      destruct (IH c' (log ++ msgs) l' P') as (Hflag'' & msgs' & Hlog & Hq');
        [done | | done | done | by rewrite Hedges |].
      { unfold has_positions. by rewrite Hnode, Hpos'. }
      split; [done |]. exists (msgs ++ msgs').
      split; [by rewrite Hlog, app_assoc | by apply Forall_app]. }
  by apply (Hrun evs c log (fa (UnionFindSet_init n)) []);
    [| | | apply uf_inv_init |].
Qed.
End packet_in_more.

Lemma packet_in_failure_witness :
  (filtered scenario_A_flood = false
   ∧ out_port_of scenario_A_flood scenario_B.1 = OFPP_FLOOD
   ∧ MST_exist (topo scenario_B.1) = false)
  ∧ mac_to_port
      (packet_in_handler 3 scenario_B_api (with_ethernet scenario_A_flood)
         (scenario_B.1, scenario_B.2)).2.1
    = learned scenario_A_flood scenario_B.1
  ∧ MST_exist
      (topo (packet_in_handler 3 scenario_B_api (with_ethernet scenario_A_flood)
               (scenario_B.1, scenario_B.2)).2.1) = false
  ∧ ∃ msgs,
      (packet_in_handler 3 scenario_B_api (with_ethernet scenario_A_flood)
         (scenario_B.1, scenario_B.2)).2.2 = scenario_B.2 ++ msgs
      ∧ Forall (λ m, is_draw_tree m ∨ is_port_mod m) msgs.
Proof.
  apply (packet_in_failure 3 scenario_B_api (with_ethernet scenario_A_flood)
           scenario_B.1 scenario_B.2 NetworkXError).
  by vm_compute.
Defined.

Lemma learned_port_is_used_witness :
  out_port_of (scenario_packet 1 8 0x0800 "aa" "bb")
    (packet_in_handler 5 scenario_A_api (with_ethernet scenario_A_flood)
       (scenario_A.1, scenario_A.2)).2.1 = 7.
Proof.
  apply (learned_port_is_used 5 scenario_A_api scenario_A_api scenario_A_flood
           (scenario_packet 1 8 0x0800 "aa" "bb") scenario_A.1 scenario_A.2).
  - reflexivity.
  - reflexivity.
  - reflexivity.
  - reflexivity.
  - simpl. discriminate.
  - simpl. unfold OFPP_FLOOD. lia.
Defined.

(** A frame with unknown destination at a controller that has
    discovered nothing: the handler returns. *)
Lemma packet_in_answer_witness :
  ∃ pre,
    (packet_in_handler 1 scenario_A_api (with_ethernet scenario_A_flood)
       (KruskalController_init, [])).2.2
    = [] ++ pre
      ++ [ send_msg 1
             (OFPFlowMod
                (if bool_decide (pi_buffer_id scenario_A_flood = 0)
                 then OFP_NO_BUFFER else pi_buffer_id scenario_A_flood) 1
                {| m_in_port := Some 7; m_eth_dst := Some "bb";
                   m_eth_src := Some "aa" |}
                [OFPActionOutput
                   (out_port_of scenario_A_flood KruskalController_init)
                   OFPCML_MAX]);
           send_msg 1
             (OFPPacketOut (pi_buffer_id scenario_A_flood) 7
                [OFPActionOutput
                   (out_port_of scenario_A_flood KruskalController_init)
                   OFPCML_MAX]
                (if bool_decide (pi_buffer_id scenario_A_flood = OFP_NO_BUFFER)
                 then Some (pi_data scenario_A_flood) else None)) ]
    ∧ Forall (λ m, is_draw_tree m ∨ is_port_mod m) pre
    ∧ (pre ≠ [] → out_port_of scenario_A_flood KruskalController_init = OFPP_FLOOD
                  ∧ MST_exist (topo KruskalController_init) = false).
Proof.
  apply (packet_in_answer 1 scenario_A_api scenario_A_flood
           KruskalController_init []).
  - reflexivity.
  - by vm_compute.
Defined.

Lemma first_flood_without_links_witness :
  packet_in_handler 1 scenario_A_api (with_ethernet scenario_A_flood)
    (KruskalController_init, [])
  = (if bool_decide (has_positions (topo KruskalController_init))
     then (Ret tt,
           (with_topo (with_MST_exist true (topo KruskalController_init))
              (with_mac_to_port (learned scenario_A_flood KruskalController_init)
                 KruskalController_init),
            [] ++ tree_drawn []
            ++ forwarding scenario_A_flood KruskalController_init))
     else (Raise NetworkXError,
           (with_mac_to_port (learned scenario_A_flood KruskalController_init)
              KruskalController_init, [] ++ tree_not_drawn))).
Proof.
  apply (first_flood_without_links 1 scenario_A_api scenario_A_flood
           KruskalController_init []).
  - reflexivity.
  - reflexivity.
  - reflexivity.
  - by vm_compute.
Defined.

(** Scenario B after its rebuild: two floods, neither enforces. *)
Lemma floods_never_enforce_witness :
  (∀ api ev, filtered ev = false → out_port_of ev scenario_B.1 = OFPP_FLOOD →
     (packet_in_handler 3 api (with_ethernet ev) (scenario_B.1, [])).1
     = Raise NetworkXError
     ∧ (packet_in_handler 3 api (with_ethernet ev) (scenario_B.1, [])).2.2
       = [] ++ tree_not_drawn)
  ∧ MST_exist
      (topo (run_events 3
               [ (scenario_B_api, with_ethernet scenario_A_flood);
                 (scenario_B_api, with_ethernet scenario_A_flood2) ]
               (scenario_B.1, [])).1) = false
  ∧ ∃ msgs,
      (run_events 3
         [ (scenario_B_api, with_ethernet scenario_A_flood);
           (scenario_B_api, with_ethernet scenario_A_flood2) ]
         (scenario_B.1, [])).2 = [] ++ msgs
      ∧ Forall (λ m, ¬ is_port_mod m ∧ ∀ tree, m ≠ plt_draw_tree tree) msgs.
Proof.
  apply (floods_never_enforce 2 3
           [ (scenario_B_api, with_ethernet scenario_A_flood);
             (scenario_B_api, with_ethernet scenario_A_flood2) ]
           scenario_B.1 []).
  - lia.
  - reflexivity.
  - apply (bool_decide_eq_false_1 (has_positions (topo scenario_B.1))).
    by vm_compute.
  - reflexivity.
  - exact scenario_B_ids.
  - simpl. lia.
Defined.

(** * Path compression, and [Kruskal] without a disjoint-set *)

(** X22.  [find] compresses the path it walks: afterwards the id points
    directly at its root, every id has the root it had, at a depth no
    larger than before, and a further [find] of the id returns the same
    root and leaves the parent array as it is. *)
Theorem find_compresses_path (l : list Z) (sz x r : Z) (d fuel : nat) :
  root_of l x r d → (d < fuel)%nat →
  ∃ l', find fuel x (mkUnionFindSet l sz) = (Ret r, mkUnionFindSet l' sz)
      ∧ l' !! Z.to_nat x = Some r
      ∧ (∀ y ry dy, root_of l y ry dy →
           ∃ dy', (dy' ≤ dy)%nat ∧ root_of l' y ry dy')
      ∧ ∀ fuel', (1 < fuel')%nat →
          find fuel' x (mkUnionFindSet l' sz) = (Ret r, mkUnionFindSet l' sz).
Proof.
  intros Hx Hfuel.
  destruct (find_root l sz x r d fuel Hx Hfuel)
    as (l' & Hf & Hlen & Hroots & Hpaths).
  pose proof (root_of_nonneg _ _ _ _ Hx) as Hx0.
  destruct (root_of_root _ _ _ _ Hx) as [Hr0 Hr].
  assert (l' !! Z.to_nat x = Some r) as Hlx.
  { assert (is_Some (l !! Z.to_nat x)) as Hsome by (inversion Hx; eauto).
    apply lookup_lt_is_Some in Hsome. rewrite <- Hlen in Hsome.
    apply lookup_lt_is_Some in Hsome as [v Hv].
    pose proof (find_result_lookup _ _ _ _ _ Hf) as Hg.
    rewrite (fa_getitem_Some _ _ _ v) in Hg by done. congruence. }
  assert (l' !! Z.to_nat r = Some r) as Hlr.
  { specialize (Hroots (Z.to_nat r)). rewrite Z2Nat.id in Hroots by done.
    by apply Hroots. }
  exists l'. do 3 (split; [done |]).
  intros fuel' Hfuel'. by apply find_on_child.
Qed.

Lemma find_compresses_path_witness :
  ∃ l', find 3 3 (mkUnionFindSet [0; 1; 1; 2; 4] 4) = (Ret 1, mkUnionFindSet l' 4)
      ∧ l' !! Z.to_nat 3 = Some 1
      ∧ (∀ y ry dy, root_of [0; 1; 1; 2; 4] y ry dy →
           ∃ dy', (dy' ≤ dy)%nat ∧ root_of l' y ry dy')
      ∧ ∀ fuel', (1 < fuel')%nat →
          find fuel' 3 (mkUnionFindSet l' 4) = (Ret 1, mkUnionFindSet l' 4).
Proof.
  apply (find_compresses_path [0; 1; 1; 2; 4] 4 3 1 2 3).
  - eapply root_up; [lia | reflexivity | lia |].
    eapply root_up; [lia | reflexivity | lia |]. by constructor.
  - lia.
Defined.

(** X23.  On a topology whose disjoint-set has not been initialised,
    [Kruskal] raises [AttributeError] at the first edge, without touching
    the figure and without changing the topology.  Only with no edge at
    all does its loop end, with the empty tree: then [Kruskal] returns it
    when every node has a position, and ends in [NetworkXError], the
    figure cleared and titled, when some node has none. *)
Theorem Kruskal_without_set (fuel : nat) (t : Topo) (log : list Effect) :
  set t = None →
  (edges t = [] →
   Kruskal fuel (t, log)
   = (if bool_decide (has_positions t)
      then (Ret [], (t, log ++ tree_drawn []))
      else (Raise NetworkXError, (t, log ++ tree_not_drawn))))
  ∧ (edges t ≠ [] →
     Kruskal fuel (t, log) = (Raise AttributeError, (t, log))).
Proof.
  intros Hset. rewrite Kruskal_unfold. split.
  - by intros ->.
  - intros Hne. destruct (sorted_by_weight (edges t)) as [| e es] eqn:Hs.
    + destruct Hne. apply Permutation_nil.
      by rewrite <- (sorted_by_weight_perm (edges t)), Hs.
    + cbn [Kruskal_loop]. unfold mbind, M_bind, bind, on_set. by rewrite Hset.
Qed.

Lemma Kruskal_without_set_witness :
  Kruskal 5 (with_set None scenario_A_topo, [])
  = (Raise AttributeError, (with_set None scenario_A_topo, [])).
Proof.
  apply (Kruskal_without_set 5 (with_set None scenario_A_topo) []).
  - reflexivity.
  - intros H. apply (f_equal length) in H. vm_compute in H. discriminate.
Defined.
